(** * Company deduplicator: normalizer, matcher, configuration and clusterer

    A shallow embedding of the TypeScript sources

      - [src/utils/normalizer.ts]  (normalizeCompanyName, removeSuffixes,
        extractTokens, isLikelyGeographicVariant, calculateTokenOverlap),
      - [src/utils/matcher.ts]     (calculateLevenshteinDistance,
        calculateSimilarity, the four matching layers, findAllMatches,
        makeMatch),
      - [src/config.ts]            (CONFIG_PRESETS, validateConfig),
      - [src/deduplicator.ts]      (CompanyDeduplicator),

    followed by the properties established about them.

    Conventions of the embedding.

    - A JavaScript string is a sequence of UTF-16 code units.  The model
      covers the strings whose code units lie in U+0000..U+00FF: a string is
      a [list ascii], the character [c] standing for the code unit
      [N_of_ascii c].  On that range the Unicode tables used by
      [toLowerCase], [trim], [normalize('NFD')] and the regular expression
      classes are finite and are written out below.
    - A finite JavaScript number is written as the rational it stands for
      ([Q]).  Every score the matcher computes is a quotient of two lengths
      or two set sizes; the cases in which JavaScript would produce NaN (0/0)
      are written out as such, a comparison with NaN being false.  Where a
      score is cut to three decimals, [toFixed(3)] reads the double nearest
      to the quotient ([Matcher.to_double]), not the quotient.
      [maxResultsPerCompany], a count, is an integer ([Z]).
    - The fields of [DeduplicationConfig] are finite numbers.  The functions
      that build, validate and store a configuration are given a second time
      on objects whose number fields may hold NaN or an infinity
      ([RawConfig]), where they agree with the first on finite numbers.
    - [Array.prototype.sort] is stable; [Map] and [Set] iterate in insertion
      order, so both are lists in insertion order.
    - [console.log] and the two clock readings of [findDuplicates] have no
      part in what is computed and are left out. *)

From Stdlib Require Import Ascii String.
From Stdlib Require Import List Bool Arith ZArith NArith QArith Qround Lia Lqa.
From Stdlib Require Import Sorted Permutation.
Import ListNotations.

Set Implicit Arguments.

Close Scope Q_scope.

(** ** JavaScript strings *)

Definition jsstring := list ascii.

(** String literals. *)
Definition str (s : string) : jsstring := list_ascii_of_string s.

Definition code (c : ascii) : N := N_of_ascii c.

Definition in_range (lo hi : N) (c : ascii) : bool :=
  (N.leb lo (code c) && N.leb (code c) hi)%bool.

Definition space : ascii := " "%char.

Definition ascii_eqb (a b : ascii) : bool := Ascii.eqb a b.

Fixpoint str_eqb (a b : jsstring) : bool :=
  match a, b with
  | [], [] => true
  | x :: a', y :: b' => ascii_eqb x y && str_eqb a' b'
  | _, _ => false
  end.

(** [\s] and the characters removed by [trim]: TAB, LF, VT, FF, CR, SPACE and
    NO-BREAK SPACE are the white space and line terminators below U+0100. *)
Definition is_space (c : ascii) : bool :=
  in_range 9 13 c || N.eqb (code c) 32 || N.eqb (code c) 160.

(** [\d] *)
Definition is_digit (c : ascii) : bool := in_range 48 57 c.

(** [\w] is [A-Za-z0-9_]. *)
Definition is_word (c : ascii) : bool :=
  in_range 65 90 c || in_range 97 122 c || is_digit c || N.eqb (code c) 95.

(** [String.prototype.toLowerCase] on one code unit: A-Z, and the capital
    letters U+00C0..U+00DE except the multiplication sign U+00D7. *)
Definition lower_char (c : ascii) : ascii :=
  if in_range 65 90 c || in_range 192 214 c || in_range 216 222 c
  then ascii_of_N (code c + 32) else c.

Definition toLowerCase (s : jsstring) : jsstring := map lower_char s.

(** [trim]: leading and trailing white space removed. *)
Fixpoint trimStart (s : jsstring) : jsstring :=
  match s with
  | [] => []
  | c :: t => if is_space c then trimStart t else s
  end.

Fixpoint trimEnd (s : jsstring) : jsstring :=
  match s with
  | [] => []
  | c :: t =>
      match trimEnd t with
      | [] => if is_space c then [] else [c]
      | t' => c :: t'
      end
  end.

Definition trim (s : jsstring) : jsstring := trimEnd (trimStart s).

(** [split(' ')]: pieces between single spaces, empty pieces kept. *)
Fixpoint split_space (s : jsstring) : list jsstring :=
  match s with
  | [] => [[]]
  | c :: t =>
      if ascii_eqb c space then [] :: split_space t
      else match split_space t with
           | w :: ws => (c :: w) :: ws
           | [] => [[c]]
           end
  end.

(** [join(sep)] *)
Fixpoint join (sep : jsstring) (ws : list jsstring) : jsstring :=
  match ws with
  | [] => []
  | [w] => w
  | w :: ws' => w ++ sep ++ join sep ws'
  end.

(** [Array.prototype.includes] on an array of strings. *)
Fixpoint str_mem (x : jsstring) (l : list jsstring) : bool :=
  match l with
  | [] => false
  | y :: l' => str_eqb y x || str_mem x l'
  end.

(** [new Set(xs)] listed in insertion order: first occurrences only. *)
Fixpoint set_of_aux (seen : list jsstring) (l : list jsstring) : list jsstring :=
  match l with
  | [] => []
  | x :: l' =>
      if str_mem x seen then set_of_aux seen l'
      else x :: set_of_aux (x :: seen) l'
  end.

Definition set_of (l : list jsstring) : list jsstring := set_of_aux [] l.

(** ** types.ts *)

Module Types.

Record DeduplicationConfig := mkConfig {
  highSimilarityThreshold : Q;
  tokenMatchThreshold : Q;
  partialMatchThreshold : Q;
  removeSuffixes : bool;
  handleAccents : bool;
  removeNumbers : bool;
  minConfidenceScore : Q;
  maxResultsPerCompany : Z
}.

Inductive MatchMethod :=
| exact_after_normalization
| high_similarity
| token_match
| partial_match.

Record CompanyMatch := mkMatch {
  original : jsstring;
  candidate : jsstring;
  confidence : Q;
  method : MatchMethod;
  normalizedOriginal : jsstring;
  normalizedCandidate : jsstring
}.

Record DuplicateGroup := mkGroup {
  group_original : jsstring;      (* original *)
  duplicates : list CompanyMatch;
  totalMatches : nat
}.

Inductive ConfigPreset := conservative | balanced | aggressive.

End Types.

Import Types.

(** ** normalizer.ts *)

Module Normalizer.

Definition BUSINESS_SUFFIXES : list jsstring := map str
  [ "ltd"; "limited"; "inc"; "incorporated"; "corp"; "corporation"; "co"; "company";
    "llc"; "limited liability company"; "plc"; "public limited company";
    "studio"; "studios"; "games"; "entertainment"; "interactive"; "digital";
    "software"; "technologies"; "tech"; "systems"; "solutions"; "services";
    "group"; "holdings"; "ventures"; "partners"; "associates"; "enterprises" ]%string.

Definition GEOGRAPHIC_TERMS : list jsstring := map str
  [ "usa"; "us"; "america"; "american"; "canada"; "canadian"; "uk"; "britain"; "british";
    "europe"; "european"; "asia"; "asian"; "japan"; "japanese"; "china"; "chinese";
    "france"; "french"; "germany"; "german"; "italy"; "italian"; "spain"; "spanish";
    "montreal"; "toronto"; "vancouver"; "london"; "paris"; "berlin"; "tokyo"; "shanghai";
    "emea"; "benelux"; "oecd" ]%string.

(** [text.normalize('NFD').replace(/[\u0300-\u036f]/g, '')] on one code
    unit: the letters of U+00C0..U+00FF that have a canonical decomposition
    decompose into an ASCII letter followed by one combining mark of
    U+0300..U+036F, which the replacement deletes; every other code unit
    below U+0100 is its own decomposition and is not a combining mark. *)
Definition base_letter (c : ascii) : ascii :=
  if in_range 192 197 c then "A"%char
  else if N.eqb (code c) 199 then "C"%char
  else if in_range 200 203 c then "E"%char
  else if in_range 204 207 c then "I"%char
  else if N.eqb (code c) 209 then "N"%char
  else if in_range 210 214 c then "O"%char
  else if in_range 217 220 c then "U"%char
  else if N.eqb (code c) 221 then "Y"%char
  else if in_range 224 229 c then "a"%char
  else if N.eqb (code c) 231 then "c"%char
  else if in_range 232 235 c then "e"%char
  else if in_range 236 239 c then "i"%char
  else if N.eqb (code c) 241 then "n"%char
  else if in_range 242 246 c then "o"%char
  else if in_range 249 252 c then "u"%char
  else if N.eqb (code c) 253 || N.eqb (code c) 255 then "y"%char
  else c.

Definition removeAccents (text : jsstring) : jsstring := map base_letter text.

(** [replace(/\d+/g, '')] *)
Definition remove_digits (s : jsstring) : jsstring :=
  filter (fun c => negb (is_digit c)) s.

(** [replace(/[^\w\s]/g, ' ')] *)
Definition replace_special (s : jsstring) : jsstring :=
  map (fun c => if is_word c || is_space c then c else space) s.

(** [replace(/\s+/g, ' ')]: every maximal run of white space becomes one
    space, emitted at the last character of the run. *)
Fixpoint collapse_spaces (s : jsstring) : jsstring :=
  match s with
  | [] => []
  | c :: t =>
      if is_space c then
        match t with
        | c' :: _ => if is_space c' then collapse_spaces t else space :: collapse_spaces t
        | [] => [space]
        end
      else c :: collapse_spaces t
  end.

Definition removeSuffixes (text : jsstring) : jsstring :=
  let words := split_space text in
  let filtered := filter (fun word => negb (str_mem (toLowerCase word) BUSINESS_SUFFIXES)) words in
  trim (join [space] filtered).

Definition normalizeCompanyName (name : jsstring) (config : DeduplicationConfig) : jsstring :=
  let normalized := trim (toLowerCase name) in
  let normalized := if handleAccents config then removeAccents normalized else normalized in
  let normalized := if removeNumbers config then remove_digits normalized else normalized in
  let normalized := trim (collapse_spaces (replace_special normalized)) in
  let normalized :=
    if Types.removeSuffixes config then removeSuffixes normalized else normalized in
  normalized.

(** The default [sort()] of an array of strings compares code units. *)
Fixpoint str_leb (a b : jsstring) : bool :=
  match a, b with
  | [], _ => true
  | _ :: _, [] => false
  | x :: a', y :: b' =>
      if N.ltb (code x) (code y) then true
      else if N.ltb (code y) (code x) then false
      else str_leb a' b'
  end.

Fixpoint insert_sorted (x : jsstring) (l : list jsstring) : list jsstring :=
  match l with
  | [] => [x]
  | y :: l' => if str_leb x y then x :: l else y :: insert_sorted x l'
  end.

Definition sort_strings (l : list jsstring) : list jsstring :=
  fold_right insert_sorted [] l.

Definition nonempty (s : jsstring) : bool :=
  match s with [] => false | _ => true end.

Definition extractTokens (normalizedName : jsstring) : list jsstring :=
  sort_strings (filter nonempty (split_space normalizedName)).

Definition isLikelyGeographicVariant (name1 name2 : jsstring) : bool :=
  let tokens1 := set_of (split_space (toLowerCase name1)) in
  let tokens2 := set_of (split_space (toLowerCase name2)) in
  let diff1 := filter (fun token => negb (str_mem token tokens2)) tokens1 in
  let diff2 := filter (fun token => negb (str_mem token tokens1)) tokens2 in
  let isOnlyGeographic (diffs : list jsstring) :=
      Nat.ltb 0 (length diffs) &&
      forallb (fun diff => str_mem (toLowerCase diff) GEOGRAPHIC_TERMS) diffs in
  isOnlyGeographic diff1 || isOnlyGeographic diff2.

(** The quotient of two sizes. *)
Definition ratio (a b : nat) : Q := (Z.of_nat a # Pos.of_nat b)%Q.

Definition calculateTokenOverlap (name1 name2 : jsstring) : Q :=
  let tokens1 := set_of (extractTokens name1) in
  let tokens2 := set_of (extractTokens name2) in
  let intersection := set_of (filter (fun token => str_mem token tokens2) tokens1) in
  let union := set_of (tokens1 ++ tokens2) in
  if Nat.ltb 0 (length union) then ratio (length intersection) (length union) else 0%Q.

End Normalizer.

(** ** matcher.ts *)

Module Matcher.

Import Normalizer.

(** *** Helper algorithms *)

(** [matrix[i][j]]; rows are arrays of numbers. *)
Definition get (matrix : list (list nat)) (i j : nat) : nat :=
  nth j (nth i matrix []) 0.

(** [row[j] = v]: an assignment at an index below the length overwrites, one
    at the length (or beyond it, leaving holes, modelled as 0) extends. *)
Definition set_row (row : list nat) (j v : nat) : list nat :=
  firstn j row ++ repeat 0 (j - length row) ++ v :: skipn (S j) row.

(** [matrix[i][j] = v] for an existing row [i]. *)
Definition set_cell (matrix : list (list nat)) (i j v : nat) : list (list nat) :=
  firstn i matrix ++ set_row (nth i matrix []) j v :: skipn (S i) matrix.

Definition min3 (x y z : nat) : nat := Nat.min x (Nat.min y z).

(** [a[i]] for an index inside the string. *)
Definition char_at (a : jsstring) (i : nat) : ascii := nth i a zero.

Definition subst_cost (a b : jsstring) (i j : nat) : nat :=
  if ascii_eqb (char_at a (i - 1)) (char_at b (j - 1)) then 0 else 1.

Definition lev_inner (a b : jsstring) (i : nat) (matrix : list (list nat)) (j : nat) :=
  let cost := subst_cost a b i j in
  set_cell matrix i j
    (min3 (get matrix (i - 1) j + 1)
          (get matrix i (j - 1) + 1)
          (get matrix (i - 1) (j - 1) + cost)).

Definition lev_outer (a b : jsstring) (matrix : list (list nat)) (i : nat) :=
  fold_left (lev_inner a b i) (seq 1 (length b)) matrix.

Definition calculateLevenshteinDistance (a b : jsstring) : nat :=
  if str_eqb a b then 0
  else if Nat.eqb (length a) 0 then length b
  else if Nat.eqb (length b) 0 then length a
  else
    let matrix := map (fun i => [i]) (seq 0 (length a + 1)) in
    (* Initialize first row *)
    let matrix := fold_left (fun m j => set_cell m 0 j j) (seq 1 (length b)) matrix in
    let matrix := fold_left (lev_outer a b) (seq 1 (length a)) matrix in
    get matrix (length a) (length b).

Definition calculateSimilarity (a b : jsstring) : Q :=
  let maxLen := Nat.max (length a) (length b) in
  if Nat.eqb maxLen 0 then 1%Q
  else
    let distance := calculateLevenshteinDistance a b in
    ((Z.of_nat maxLen - Z.of_nat distance) # Pos.of_nat maxLen)%Q.

(** *** Matching layers *)

(** *** The number a quotient leaves in a JavaScript variable

    A score is computed by a division of two integers, and the variable
    holds the IEEE 754 double nearest to the quotient: 53 significant bits,
    a tie going to the even significand.  The exponent range is not
    modelled, a quotient of two string lengths being far from overflow and
    underflow. *)

(** The integer nearest to [n / d] for [0 <= n] and [0 < d], a tie going to
    the even one. *)
Definition round_half_even (n d : Z) : Z :=
  let fl := (n / d)%Z in
  match (2 * (n mod d) ?= d)%Z with
  | Lt => fl
  | Gt => (fl + 1)%Z
  | Eq => if Z.even fl then fl else (fl + 1)%Z
  end.

(** [n / d] in units of [2 ^ e], as a fraction of integers. *)
Definition scaled (n d e : Z) : Z * Z :=
  if (e <? 0)%Z then ((n * 2 ^ (- e))%Z, d) else (n, (d * 2 ^ e)%Z).

(** The double nearest to [n / d] for positive [n] and [d]: [e] is the
    exponent of the last place, chosen so that the significand lies between
    [2 ^ 52] and [2 ^ 53]. *)
Definition double_of_quotient (n d : Z) : Q :=
  let k := (Z.log2 n - Z.log2 d)%Z in
  let (N0, D0) := scaled n d (k - 52) in
  let e := if (N0 <? 2 ^ 52 * D0)%Z then (k - 53)%Z else (k - 52)%Z in
  let (N, D) := scaled n d e in
  let m := round_half_even N D in
  if (e <? 0)%Z then (m # Z.to_pos (2 ^ (- e)))%Q else inject_Z (m * 2 ^ e).

Definition to_double (x : Q) : Q :=
  match Qnum x with
  | Z0 => 0%Q
  | Zpos _ => double_of_quotient (Qnum x) (Zpos (Qden x))
  | Zneg _ => (- double_of_quotient (- Qnum x) (Zpos (Qden x)))%Q
  end.

(** [x.toFixed(3)] on the exact value of a double: the nearest multiple of
    1/1000, a tie going to the larger magnitude.  [Number(_)] of the three
    decimals is the double nearest to them, written here as the decimal
    fraction itself. *)
Definition toFixed3 (x : Q) : Q :=
  if Qle_bool 0 x then (Qfloor (x * 1000 + (1 # 2)) # 1000)%Q
  else (- (Qfloor ((- x) * 1000 + (1 # 2)) # 1000))%Q.

(** [Number(confidence.toFixed(3))] where [confidence] holds a quotient:
    the three decimals are those of the double, not of the exact quotient
    (71/80 is stored as 0.88749999999999995559 and gives 0.887). *)
Definition round3 (x : Q) : Q := toFixed3 (to_double x).

Definition makeMatch (original candidate normalizedOriginal normalizedCandidate : jsstring)
    (confidence : Q) (method : MatchMethod) : CompanyMatch :=
  {| original := original;
     candidate := candidate;
     confidence := round3 confidence;
     method := method;
     normalizedOriginal := normalizedOriginal;
     normalizedCandidate := normalizedCandidate |}.

(** [for (const x of xs) { ... results.push(m) ... }]: the body either
    pushes one element or moves on to the next [x]. *)
Definition push_loop (A B : Type) (body : A -> option B) (xs : list A) : list B :=
  fold_left (fun results x =>
               match body x with
               | Some m => results ++ [m]
               | None => results
               end) xs [].

Definition findHighSimilarityMatches (original : jsstring) (candidates : list jsstring)
    (config : DeduplicationConfig) : list CompanyMatch :=
  let normalizedOriginal := normalizeCompanyName original config in
  push_loop (fun candidate =>
    if str_eqb candidate original then None
    else
      let normalizedCandidate := normalizeCompanyName candidate config in
      let score := calculateSimilarity normalizedOriginal normalizedCandidate in
      if Qle_bool (highSimilarityThreshold config) score
      then Some (makeMatch original candidate normalizedOriginal normalizedCandidate
                           score high_similarity)
      else None) candidates.

Definition findTokenMatches (original : jsstring) (candidates : list jsstring)
    (config : DeduplicationConfig) : list CompanyMatch :=
  let normalizedOriginal := normalizeCompanyName original config in
  push_loop (fun candidate =>
    if str_eqb candidate original then None
    else
      let normalizedCandidate := normalizeCompanyName candidate config in
      let overlap := calculateTokenOverlap normalizedOriginal normalizedCandidate in
      if Qle_bool (tokenMatchThreshold config) overlap
      then Some (makeMatch original candidate normalizedOriginal normalizedCandidate
                           overlap token_match)
      else None) candidates.

(** [s.startsWith(p)] and [longer.includes(shorter)] *)
Fixpoint starts_with (p s : jsstring) : bool :=
  match p, s with
  | [], _ => true
  | x :: p', y :: s' => ascii_eqb x y && starts_with p' s'
  | _ :: _, [] => false
  end.

Fixpoint includes (longer shorter : jsstring) : bool :=
  starts_with shorter longer ||
  match longer with
  | [] => false
  | _ :: t => includes t shorter
  end.

Definition findPartialMatches (original : jsstring) (candidates : list jsstring)
    (config : DeduplicationConfig) : list CompanyMatch :=
  let normalizedOriginal := normalizeCompanyName original config in
  push_loop (fun candidate =>
    if str_eqb candidate original then None
    else
      let normalizedCandidate := normalizeCompanyName candidate config in
      (* Check substring relationship *)
      let shorter := if Nat.leb (length normalizedOriginal) (length normalizedCandidate)
                     then normalizedOriginal else normalizedCandidate in
      let longer := if str_eqb shorter normalizedOriginal
                    then normalizedCandidate else normalizedOriginal in
      if includes longer shorter then
        (* 0 / 0 is NaN, and NaN >= threshold is false *)
        if Nat.eqb (length longer) 0 then None
        else
          let confidence := ratio (length shorter) (length longer) in
          if Qle_bool (partialMatchThreshold config) confidence
          then Some (makeMatch original candidate normalizedOriginal normalizedCandidate
                               confidence partial_match)
          else None
      else None) candidates.

Definition findExactMatches (original : jsstring) (candidates : list jsstring)
    (config : DeduplicationConfig) : list CompanyMatch :=
  let normalizedOriginal := normalizeCompanyName original config in
  push_loop (fun candidate =>
    if str_eqb candidate original then None
    else
      let normalizedCandidate := normalizeCompanyName candidate config in
      if str_eqb normalizedCandidate normalizedOriginal
      then Some (makeMatch original candidate normalizedOriginal normalizedCandidate
                           1%Q exact_after_normalization)
      else None) candidates.

(** *** [Map<string, CompanyMatch>], in insertion order *)

Definition jsmap := list (jsstring * CompanyMatch).

Fixpoint map_get (k : jsstring) (m : jsmap) : option CompanyMatch :=
  match m with
  | [] => None
  | (k', v) :: m' => if str_eqb k' k then Some v else map_get k m'
  end.

(** [set] keeps the position of a key that is present and appends a new one. *)
Fixpoint map_set (k : jsstring) (v : CompanyMatch) (m : jsmap) : jsmap :=
  match m with
  | [] => [(k, v)]
  | (k', v') :: m' => if str_eqb k' k then (k', v) :: m' else (k', v') :: map_set k v m'
  end.

Definition map_values (m : jsmap) : list CompanyMatch := map snd m.

Definition Qlt_bool (x y : Q) : bool := negb (Qle_bool y x).

(** [xs.sort(cmp)]: the elements in the order given by [cmp], elements
    that compare equal keeping the order they had (the sort is stable, so
    its result does not depend on the algorithm; insertion is used here). *)
Section Sort.

Variable A : Type.
Variable cmp : A -> A -> Q.

Fixpoint sort_insert (x : A) (l : list A) : list A :=
  match l with
  | [] => [x]
  | y :: l' => if Qle_bool (cmp x y) 0%Q then x :: l else y :: sort_insert x l'
  end.

Definition js_sort (l : list A) : list A := fold_right sort_insert [] l.

End Sort.

(** [xs.slice(0, end)] for an integer [end]: a negative [end] counts from
    the end of the array. *)
Definition slice0 (A : Type) (xs : list A) (e : Z) : list A :=
  if (e <? 0)%Z then firstn (Z.to_nat (Z.max (Z.of_nat (length xs) + e) 0)) xs
  else firstn (Z.to_nat e) xs.

Definition combined_matches (original : jsstring) (candidates : list jsstring)
    (config : DeduplicationConfig) : list CompanyMatch :=
  findExactMatches original candidates config
  ++ findHighSimilarityMatches original candidates config
  ++ findTokenMatches original candidates config
  ++ findPartialMatches original candidates config.

Definition best_step (bestMap : jsmap) (m : CompanyMatch) : jsmap :=
  match map_get (candidate m) bestMap with
  | None => map_set (candidate m) m bestMap
  | Some existing =>
      if Qlt_bool (confidence existing) (confidence m)
      then map_set (candidate m) m bestMap
      else bestMap
  end.

Definition best_map (combined : list CompanyMatch) : jsmap :=
  fold_left best_step combined [].

Definition by_confidence_desc (a b : CompanyMatch) : Q := (confidence b - confidence a)%Q.

Definition findAllMatches (original : jsstring) (candidates : list jsstring)
    (config : DeduplicationConfig) : list CompanyMatch :=
  let combined := combined_matches original candidates config in
  let bestMap := best_map combined in
  let unique :=
    slice0
      (js_sort by_confidence_desc
         (filter (fun m => Qle_bool (minConfidenceScore config) (confidence m))
                 (map_values bestMap)))
      (maxResultsPerCompany config) in
  unique.

End Matcher.

(** ** config.ts *)

Module Config.

Definition CONFIG_PRESETS (preset : ConfigPreset) : DeduplicationConfig :=
  match preset with
  | conservative =>
      {| highSimilarityThreshold := 0.92;
         tokenMatchThreshold := 0.88;
         partialMatchThreshold := 0.85;
         removeSuffixes := true;
         handleAccents := true;
         removeNumbers := false;
         minConfidenceScore := 0.85;
         maxResultsPerCompany := 10 |}
  | balanced =>
      {| highSimilarityThreshold := 0.85;
         tokenMatchThreshold := 0.80;
         partialMatchThreshold := 0.70;
         removeSuffixes := true;
         handleAccents := true;
         removeNumbers := false;
         minConfidenceScore := 0.75;
         maxResultsPerCompany := 10 |}
  | aggressive =>
      {| highSimilarityThreshold := 0.78;
         tokenMatchThreshold := 0.70;
         partialMatchThreshold := 0.60;
         removeSuffixes := true;
         handleAccents := true;
         removeNumbers := false;
         minConfidenceScore := 0.60;
         maxResultsPerCompany := 15 |}
  end.

Definition DEFAULT_CONFIG : DeduplicationConfig := CONFIG_PRESETS balanced.

(** [between0and1(v, field)] pushes onto [errs].  Here and in
    [validateConfig] the numbers are finite; [RawConfig.validateConfig] is
    the same code on every number a field can hold. *)
Definition between0and1 (v : Q) (field : string) (errs : list string) : list string :=
  if Matcher.Qlt_bool v 0 || Matcher.Qlt_bool 1 v
  then errs ++ [(field ++ " must be between 0 and 1")%string]
  else errs.

Definition validateConfig (cfg : DeduplicationConfig) : list string :=
  let errs := [] in
  let errs := between0and1 (highSimilarityThreshold cfg) "highSimilarityThreshold" errs in
  let errs := between0and1 (tokenMatchThreshold cfg) "tokenMatchThreshold" errs in
  let errs := between0and1 (partialMatchThreshold cfg) "partialMatchThreshold" errs in
  let errs := between0and1 (minConfidenceScore cfg) "minConfidenceScore" errs in
  if (maxResultsPerCompany cfg <=? 0)%Z
  then errs ++ ["maxResultsPerCompany must be > 0"%string]
  else errs.

End Config.

(** The earlier revision of the configuration module (the one with
    [createConfigFromPreset] and [getConfigSummary]) has the same table but
    for one entry. *)
Module ConfigHistory.

Definition CONFIG_PRESETS (preset : ConfigPreset) : DeduplicationConfig :=
  match preset with
  | conservative =>
      {| highSimilarityThreshold := 0.92;
         tokenMatchThreshold := 0.88;
         partialMatchThreshold := 0.85;
         removeSuffixes := true;
         handleAccents := true;
         removeNumbers := false;
         minConfidenceScore := 0.85;
         maxResultsPerCompany := 5 |}
  | balanced =>
      {| highSimilarityThreshold := 0.85;
         tokenMatchThreshold := 0.80;
         partialMatchThreshold := 0.70;
         removeSuffixes := true;
         handleAccents := true;
         removeNumbers := false;
         minConfidenceScore := 0.75;
         maxResultsPerCompany := 10 |}
  | aggressive =>
      {| highSimilarityThreshold := 0.78;
         tokenMatchThreshold := 0.70;
         partialMatchThreshold := 0.60;
         removeSuffixes := true;
         handleAccents := true;
         removeNumbers := false;
         minConfidenceScore := 0.60;
         maxResultsPerCompany := 15 |}
  end.

End ConfigHistory.

(** One row of the preset table: the four thresholds, the result limit
    between [lo] and [hi], and the three fixed normalization switches. *)
Definition table_row (cfg : DeduplicationConfig) (hs tm pm mc : Q) (lo hi : Z) : Prop :=
  (highSimilarityThreshold cfg == hs)%Q /\
  (tokenMatchThreshold cfg == tm)%Q /\
  (partialMatchThreshold cfg == pm)%Q /\
  (minConfidenceScore cfg == mc)%Q /\
  (lo <= maxResultsPerCompany cfg <= hi)%Z /\
  removeSuffixes cfg = true /\
  handleAccents cfg = true /\
  removeNumbers cfg = false.

(** ** deduplicator.ts *)

Module Deduplicator.

Import Config.

(** A call either returns or throws [new Error(message)]. *)
Inductive outcome (A : Type) :=
| Returns (value : A)
| Throws (message : string).
Arguments Returns {A} value.
Arguments Throws {A} message.

Record CompanyDeduplicator := mkDeduplicator { config : DeduplicationConfig }.

(** [processingTimeMs], the difference of two clock readings, is left out. *)
Record DeduplicationResult := mkResult {
  totalCompanies : nat;
  duplicateGroups : list DuplicateGroup;
  resultConfig : DeduplicationConfig
}.

(** [errs.join(', ')] *)
Fixpoint join_messages (errs : list string) : string :=
  match errs with
  | [] => ""
  | [e] => e
  | e :: errs' => e ++ ", " ++ join_messages errs'
  end.

Definition constructor (config : DeduplicationConfig) : outcome CompanyDeduplicator :=
  let errs := validateConfig config in
  if Nat.ltb 0 (length errs)
  then Throws ("Invalid config: " ++ join_messages errs)
  else Returns (mkDeduplicator config).

(** [processed.add(x)] *)
Definition set_add (processed : list jsstring) (x : jsstring) : list jsstring :=
  if str_mem x processed then processed else processed ++ [x].

Definition dedup_step (uniqueCompanies : list jsstring) (cfg : DeduplicationConfig)
    (state : list jsstring * list DuplicateGroup) (company : jsstring)
    : list jsstring * list DuplicateGroup :=
  let (processed, groups) := state in
  if str_mem company processed then state
  else
    let matches := Matcher.findAllMatches company uniqueCompanies cfg in
    if Nat.ltb 0 (length matches) then
      let groups := groups ++ [ {| group_original := company;
                                   duplicates := matches;
                                   totalMatches := length matches |} ] in
      (* mark original + all candidates *)
      let processed := set_add processed company in
      let processed := fold_left (fun p m => set_add p (candidate m)) matches processed in
      (processed, groups)
    else state.

Definition findDuplicates (self : CompanyDeduplicator) (companies : list jsstring)
    : DeduplicationResult :=
  let uniqueCompanies := set_of (filter Normalizer.nonempty (map trim companies)) in
  let '(_, groups) :=
    fold_left (dedup_step uniqueCompanies (config self)) uniqueCompanies ([], []) in
  {| totalCompanies := length uniqueCompanies;
     duplicateGroups := groups;
     resultConfig := config self |}.

Definition findDuplicatesForCompany (self : CompanyDeduplicator) (company : jsstring)
    (candidates : list jsstring) : list CompanyMatch :=
  let cleaned := filter Normalizer.nonempty (map trim candidates) in
  Matcher.findAllMatches company cleaned (config self).

End Deduplicator.

(** ** The token layer as the specification words it *)


(** ** Definitions used to state the properties *)

Module LevenshteinSpec.

Import Matcher.

(** The recurrence the matrix is filled by: [cell a b i j] is the entry the
    loops store at [matrix[i][j]]. *)
Fixpoint cell (a b : jsstring) (i j : nat) {struct i} : nat :=
  match i with
  | 0 => j
  | S i' =>
      (fix row (j : nat) : nat :=
         match j with
         | 0 => S i'
         | S j' => min3 (cell a b i' (S j') + 1)
                        (row j' + 1)
                        (cell a b i' j' + subst_cost a b (S i') (S j'))
         end) j
  end.

(** How far row [i] has been filled when the loops are at [(i0, j0)]: the
    rows above [i0] are complete, row [i0] holds [j0] entries, the rows below
    hold their first entry only. *)
Definition filled (b : jsstring) (i0 j0 i : nat) : nat :=
  if Nat.ltb i i0 then S (length b) else if Nat.eqb i i0 then j0 else 1.

Definition matrix_at (a b : jsstring) (i0 j0 : nat) (m : list (list nat)) : Prop :=
  length m = S (length a) /\
  forall i, i <= length a ->
    length (nth i m []) = filled b i0 j0 i /\
    forall j, j < filled b i0 j0 i -> get m i j = cell a b i j.

End LevenshteinSpec.

(** [before l x y]: an occurrence of [x] in [l] is followed, later in [l], by
    an occurrence of [y]. *)
Inductive before (A : Type) : list A -> A -> A -> Prop :=
| before_here (x y : A) (l : list A) : In y l -> before (x :: l) x y
| before_later (z x y : A) (l : list A) : before l x y -> before (z :: l) x y.

(** The state of the clustering loop after the names [visited] have been
    gone through: every group was started by a visited name, no name started
    two groups, the members of each group are the matcher's answer for its
    representative, every name placed in a group is marked as processed, and
    a representative is never a match-target of an earlier group. *)
Definition cluster_invariant (uniqueCompanies : list jsstring) (cfg : DeduplicationConfig)
    (visited : list jsstring) (state : list jsstring * list DuplicateGroup) : Prop :=
  let (processed, groups) := state in
  (forall g, In g groups -> In (group_original g) visited) /\
  NoDup (map group_original groups) /\
  (forall g, In g groups ->
     duplicates g = Matcher.findAllMatches (group_original g) uniqueCompanies cfg) /\
  (forall g, In g groups ->
     In (group_original g) processed /\
     forall c, In c (map candidate (duplicates g)) -> In c processed) /\
  (forall g1 g2, before groups g1 g2 ->
     ~ In (group_original g2) (map candidate (duplicates g1))).

(** The shape of a normalized name: words over [a-z0-9_] (without digits
    when [removeNumbers] is set) separated by single spaces. *)
Module NormalForm.

Definition plain_char (num : bool) (c : ascii) : bool :=
  is_word c && negb (in_range 65 90 c) && negb (num && is_digit c).

Definition starts_clean (s : jsstring) : bool :=
  match s with
  | [] => true
  | c :: _ => negb (is_space c)
  end.

Fixpoint ends_clean (s : jsstring) : bool :=
  match s with
  | [] => true
  | [c] => negb (is_space c)
  | _ :: t => ends_clean t
  end.

Fixpoint no_double_space (s : jsstring) : bool :=
  match s with
  | [] => true
  | c :: t => negb (is_space c && negb (starts_clean t)) && no_double_space t
  end.

Definition clean (num : bool) (s : jsstring) : Prop :=
  Forall (fun c => c = space \/ plain_char num c = true) s /\
  starts_clean s = true /\ ends_clean s = true /\ no_double_space s = true.

Definition word (num : bool) (w : jsstring) : Prop :=
  w <> [] /\ Forall (fun c => plain_char num c = true) w.

(** The steps of [normalizeCompanyName] that come before suffix removal. *)
Definition front_steps (name : jsstring) (config : DeduplicationConfig) : jsstring :=
  let normalized := trim (toLowerCase name) in
  let normalized :=
    if handleAccents config then Normalizer.removeAccents normalized else normalized in
  let normalized :=
    if removeNumbers config then Normalizer.remove_digits normalized else normalized in
  trim (Normalizer.collapse_spaces (Normalizer.replace_special normalized)).

(** The test [removeSuffixes] filters the words by. *)
Definition not_suffix (w : jsstring) : bool :=
  negb (str_mem (toLowerCase w) Normalizer.BUSINESS_SUFFIXES).

End NormalForm.

(** ** Concrete inputs *)

Module Examples.

Definition balanced_config : DeduplicationConfig := Config.CONFIG_PRESETS balanced.

(** The balanced preset with [tokenMatchThreshold] and [minConfidenceScore]
    overridden. *)
Definition token_config (threshold : Q) : DeduplicationConfig :=
  {| highSimilarityThreshold := 0.85;
     tokenMatchThreshold := threshold;
     partialMatchThreshold := 0.70;
     removeSuffixes := true;
     handleAccents := true;
     removeNumbers := false;
     minConfidenceScore := 0.5;
     maxResultsPerCompany := 10 |}.

Definition ubisoft : jsstring := str "Ubisoft".
Definition ubisoft_montreal : jsstring := str "Ubisoft Montreal".
Definition montreal_ubisoft : jsstring := str "montreal ubisoft".
Definition ubisoft_montreal_inc : jsstring := str "Ubisoft Montreal Inc".
(** The balanced preset with [highSimilarityThreshold] overridden by 1. *)
Definition strict_config : DeduplicationConfig :=
  {| highSimilarityThreshold := 1;
     tokenMatchThreshold := 0.80;
     partialMatchThreshold := 0.70;
     removeSuffixes := true;
     handleAccents := true;
     removeNumbers := false;
     minConfidenceScore := 0.75;
     maxResultsPerCompany := 10 |}.

(** The match of "Ubisoft Montreal" with "Ubisoft Montreal Inc". *)
Definition exact_inc_match : CompanyMatch :=
  {| original := ubisoft_montreal;
     candidate := ubisoft_montreal_inc;
     confidence := 1.000;
     method := exact_after_normalization;
     normalizedOriginal := str "ubisoft montreal";
     normalizedCandidate := str "ubisoft montreal" |}.

Definition inc : jsstring := str "Inc".
Definition ltd : jsstring := str "Ltd".

(** "Ubisoft Montr\u00e9al Studio" *)
Definition e_acute : ascii := ascii_of_N 233.
Definition ubisoft_montreal_studio : jsstring :=
  str "Ubisoft Montr" ++ e_acute :: str "al Studio".

(** Three names in a chain: the middle one is one edit away from each of the
    other two, which are two edits apart. *)
Definition chain_first : jsstring := str "abcdefghij".
Definition chain_middle : jsstring := str "abcdefghix".
Definition chain_last : jsstring := str "abcdefghyx".

End Examples.

(** ** Further functions of the sources *)

(** normalizer.ts, the remaining export. *)
Module NormalizerExtra.

(** [token.substring(0, 3)] is [firstn 3]; [join('')] is [concat]. *)
Definition createFuzzySignature (normalizedName : jsstring) : jsstring :=
  let tokens := Normalizer.extractTokens normalizedName in
  (* Remove very short tokens *)
  let significantTokens := filter (fun token => Nat.leb 2 (length token)) tokens in
  (* Take first 3 characters of each significant token *)
  let signature := join [] (map (firstn 3) significantTokens) in
  signature.

End NormalizerExtra.

(** config.ts: [createConfig].  [Partial<DeduplicationConfig>] is a record
    of optional fields, an absent property being [None]. *)
Module Partial.

Record t := mk {
  highSimilarityThreshold : option Q;
  tokenMatchThreshold : option Q;
  partialMatchThreshold : option Q;
  removeSuffixes : option bool;
  handleAccents : option bool;
  removeNumbers : option bool;
  minConfidenceScore : option Q;
  maxResultsPerCompany : option Z
}.

(** [{}] *)
Definition empty : t := mk None None None None None None None None.

End Partial.

Module ConfigExtra.

(** One property of [{ ...base, ...overrides }]. *)
Definition spread (A : Type) (base : A) (override : option A) : A :=
  match override with
  | Some v => v
  | None => base
  end.

Definition createConfig (preset : ConfigPreset) (overrides : Partial.t)
    : DeduplicationConfig :=
  let base := Config.CONFIG_PRESETS preset in
  {| Types.highSimilarityThreshold :=
       spread (Types.highSimilarityThreshold base) (Partial.highSimilarityThreshold overrides);
     Types.tokenMatchThreshold :=
       spread (Types.tokenMatchThreshold base) (Partial.tokenMatchThreshold overrides);
     Types.partialMatchThreshold :=
       spread (Types.partialMatchThreshold base) (Partial.partialMatchThreshold overrides);
     Types.removeSuffixes :=
       spread (Types.removeSuffixes base) (Partial.removeSuffixes overrides);
     Types.handleAccents :=
       spread (Types.handleAccents base) (Partial.handleAccents overrides);
     Types.removeNumbers :=
       spread (Types.removeNumbers base) (Partial.removeNumbers overrides);
     Types.minConfidenceScore :=
       spread (Types.minConfidenceScore base) (Partial.minConfidenceScore overrides);
     Types.maxResultsPerCompany :=
       spread (Types.maxResultsPerCompany base) (Partial.maxResultsPerCompany overrides) |}.

End ConfigExtra.

(** deduplicator.ts: the remaining methods.  A method that throws leaves
    the object as it was. *)
Module DeduplicatorMethods.

Import Deduplicator.

Definition getConfig (self : CompanyDeduplicator) : DeduplicationConfig := config self.

Definition setConfig (self : CompanyDeduplicator) (newCfg : DeduplicationConfig)
    : CompanyDeduplicator * outcome unit :=
  let errs := Config.validateConfig newCfg in
  if Nat.ltb 0 (length errs)
  then (self, Throws ("Invalid config: " ++ join_messages errs))
  else (mkDeduplicator newCfg, Returns tt).

Definition usePreset (self : CompanyDeduplicator) (preset : ConfigPreset)
    (overrides : Partial.t) : CompanyDeduplicator * outcome unit :=
  setConfig self (ConfigExtra.createConfig preset overrides).

(** A call of one of the two methods that change the configuration. *)
Inductive call :=
| CallSetConfig (newCfg : DeduplicationConfig)
| CallUsePreset (preset : ConfigPreset) (overrides : Partial.t).

Definition perform (self : CompanyDeduplicator) (c : call) : CompanyDeduplicator :=
  match c with
  | CallSetConfig newCfg => fst (setConfig self newCfg)
  | CallUsePreset preset overrides => fst (usePreset self preset overrides)
  end.

(** The object after a sequence of calls, a caller catching what is thrown. *)
Definition perform_all (self : CompanyDeduplicator) (calls : list call)
    : CompanyDeduplicator :=
  fold_left perform calls self.

End DeduplicatorMethods.

(** ** Configurations as JavaScript holds them

    A field of type [number] may hold NaN or an infinity: the command line
    stores [Number(value)] of whatever follows [--min-similarity] and hands
    it to [createConfig].  The record [DeduplicationConfig] has the
    configurations all of whose numbers are finite; the functions that
    build, validate and store a configuration are given here on every
    configuration object. *)
Module JsNumber.

Inductive number :=
| Finite (value : Q)
| PosInfinity
| NegInfinity
| NaN.

(** [x < y]: false as soon as one side is NaN. *)
Definition lt (x y : number) : bool :=
  match x with
  | NaN => false
  | PosInfinity => false
  | NegInfinity =>
      match y with
      | Finite _ | PosInfinity => true
      | NegInfinity | NaN => false
      end
  | Finite a =>
      match y with
      | Finite b => Matcher.Qlt_bool a b
      | PosInfinity => true
      | NegInfinity | NaN => false
      end
  end.

(** [x <= y]: false as soon as one side is NaN. *)
Definition le (x y : number) : bool :=
  match x with
  | NaN => false
  | PosInfinity =>
      match y with
      | PosInfinity => true
      | Finite _ | NegInfinity | NaN => false
      end
  | NegInfinity =>
      match y with
      | NaN => false
      | Finite _ | PosInfinity | NegInfinity => true
      end
  | Finite a =>
      match y with
      | Finite b => Qle_bool a b
      | PosInfinity => true
      | NegInfinity | NaN => false
      end
  end.

End JsNumber.

Module RawConfig.

Import JsNumber Deduplicator.

Record t := mk {
  highSimilarityThreshold : number;
  tokenMatchThreshold : number;
  partialMatchThreshold : number;
  removeSuffixes : bool;
  handleAccents : bool;
  removeNumbers : bool;
  minConfidenceScore : number;
  maxResultsPerCompany : number
}.

(** A configuration with finite numbers, as an object. *)
Definition of_config (cfg : DeduplicationConfig) : t :=
  {| highSimilarityThreshold := Finite (Types.highSimilarityThreshold cfg);
     tokenMatchThreshold := Finite (Types.tokenMatchThreshold cfg);
     partialMatchThreshold := Finite (Types.partialMatchThreshold cfg);
     removeSuffixes := Types.removeSuffixes cfg;
     handleAccents := Types.handleAccents cfg;
     removeNumbers := Types.removeNumbers cfg;
     minConfidenceScore := Finite (Types.minConfidenceScore cfg);
     maxResultsPerCompany := Finite (inject_Z (Types.maxResultsPerCompany cfg)) |}.

Definition CONFIG_PRESETS (preset : ConfigPreset) : t :=
  of_config (Config.CONFIG_PRESETS preset).

(** [Partial<DeduplicationConfig>] *)
Record partial := mkPartial {
  override_highSimilarityThreshold : option number;
  override_tokenMatchThreshold : option number;
  override_partialMatchThreshold : option number;
  override_removeSuffixes : option bool;
  override_handleAccents : option bool;
  override_removeNumbers : option bool;
  override_minConfidenceScore : option number;
  override_maxResultsPerCompany : option number
}.

(** [{}] *)
Definition no_overrides : partial := mkPartial None None None None None None None None.

(** [{ ...CONFIG_PRESETS[preset], ...overrides }] *)
Definition createConfig (preset : ConfigPreset) (overrides : partial) : t :=
  let base := CONFIG_PRESETS preset in
  {| highSimilarityThreshold :=
       ConfigExtra.spread (highSimilarityThreshold base)
                          (override_highSimilarityThreshold overrides);
     tokenMatchThreshold :=
       ConfigExtra.spread (tokenMatchThreshold base)
                          (override_tokenMatchThreshold overrides);
     partialMatchThreshold :=
       ConfigExtra.spread (partialMatchThreshold base)
                          (override_partialMatchThreshold overrides);
     removeSuffixes :=
       ConfigExtra.spread (removeSuffixes base) (override_removeSuffixes overrides);
     handleAccents :=
       ConfigExtra.spread (handleAccents base) (override_handleAccents overrides);
     removeNumbers :=
       ConfigExtra.spread (removeNumbers base) (override_removeNumbers overrides);
     minConfidenceScore :=
       ConfigExtra.spread (minConfidenceScore base)
                          (override_minConfidenceScore overrides);
     maxResultsPerCompany :=
       ConfigExtra.spread (maxResultsPerCompany base)
                          (override_maxResultsPerCompany overrides) |}.

(** [if (v < 0 || v > 1) errs.push(...)] *)
Definition between0and1 (v : number) (field : string) (errs : list string) : list string :=
  if lt v (Finite 0) || lt (Finite 1) v
  then errs ++ [(field ++ " must be between 0 and 1")%string]
  else errs.

Definition validateConfig (cfg : t) : list string :=
  let errs := [] in
  let errs := between0and1 (highSimilarityThreshold cfg) "highSimilarityThreshold" errs in
  let errs := between0and1 (tokenMatchThreshold cfg) "tokenMatchThreshold" errs in
  let errs := between0and1 (partialMatchThreshold cfg) "partialMatchThreshold" errs in
  let errs := between0and1 (minConfidenceScore cfg) "minConfidenceScore" errs in
  if le (maxResultsPerCompany cfg) (Finite 0)
  then errs ++ ["maxResultsPerCompany must be > 0"%string]
  else errs.

Record CompanyDeduplicator := mkDeduplicator { config : t }.

Definition constructor (config : t) : outcome CompanyDeduplicator :=
  let errs := validateConfig config in
  if Nat.ltb 0 (length errs)
  then Throws ("Invalid config: " ++ join_messages errs)
  else Returns (mkDeduplicator config).

(** What the command line builds for [--min-similarity] followed by a word
    that is not a number, [Number] of it being NaN. *)
Definition nan_overrides : partial :=
  mkPartial (Some NaN) None None None None None None None.

Definition nan_config : t := createConfig balanced nan_overrides.

(** The values of a field that validation lets through. *)
Definition threshold_passes (v : number) : Prop :=
  match v with
  | Finite q => (0 <= q <= 1)%Q
  | NaN => True
  | PosInfinity | NegInfinity => False
  end.

Definition limit_passes (v : number) : Prop :=
  match v with
  | Finite q => (0 < q)%Q
  | NaN | PosInfinity => True
  | NegInfinity => False
  end.

Definition override_passes (passes : number -> Prop) (override : option number) : Prop :=
  match override with
  | Some v => passes v
  | None => True
  end.

End RawConfig.

(** What the clustering loop keeps besides [cluster_invariant]: a visited
    name is marked as processed unless the matcher found nothing for it, a
    processed name is in some group, every group has members and counts
    them, and the groups come in the order of their representatives. *)
Definition cluster_coverage (uniqueCompanies : list jsstring) (cfg : DeduplicationConfig)
    (visited : list jsstring) (state : list jsstring * list DuplicateGroup) : Prop :=
  let (processed, groups) := state in
  (forall x, In x visited ->
     In x processed \/ Matcher.findAllMatches x uniqueCompanies cfg = []) /\
  (forall x, In x processed ->
     exists g, In g groups /\
               (x = group_original g \/ In x (map candidate (duplicates g)))) /\
  (forall g, In g groups ->
     duplicates g <> [] /\ totalMatches g = length (duplicates g)) /\
  (forall g1 g2, before groups g1 g2 ->
     before visited (group_original g1) (group_original g2)).

(** ** The file reader (src/utils/fileReader.ts) *)

Module FileReader.

Import Deduplicator.

Definition LF : ascii := ascii_of_N 10.
Definition CR : ascii := ascii_of_N 13.

Definition cons_first (c : ascii) (pieces : list jsstring) : list jsstring :=
  match pieces with
  | w :: ws => (c :: w) :: ws
  | [] => [[c]]
  end.

(** [content.split(/\r?\n/)]: a piece ends at each line feed, and a carriage
    return just before that line feed belongs to the separator. *)
Fixpoint split_lines (s : jsstring) : list jsstring :=
  match s with
  | [] => [[]]
  | c :: t =>
      if ascii_eqb c LF then [] :: split_lines t
      else
        match t with
        | d :: t' =>
            if ascii_eqb c CR && ascii_eqb d LF then [] :: split_lines t'
            else cons_first c (split_lines t)
        | [] => [[c]]
        end
  end.

(** What the reader uses of [fs]: [existsSync] and [readFileSync(_, 'utf8')],
    which returns the content or throws. *)
Record filesystem := mkFilesystem {
  existsSync : jsstring -> bool;
  readFileSync : jsstring -> outcome jsstring
}.

Section Reader.

(** [path.resolve] *)
Variable resolve : jsstring -> jsstring.

Definition readCompanyNamesFromFile (fs : filesystem) (filePath : jsstring)
    : outcome (list jsstring) :=
  let abs := resolve filePath in
  if negb (existsSync fs abs)
  then Throws (String.append "Input file not found: " (string_of_list_ascii abs))
  else
    match readFileSync fs abs with
    | Throws e => Throws e
    | Returns content =>
        Returns (filter Normalizer.nonempty (map trim (split_lines content)))
    end.

End Reader.

End FileReader.

(** ** The command line (src/cli.ts) *)

Module Cli.

Import Deduplicator.

Section ParseArgs.

(** JavaScript numbers and [Number(_)] on a string, as the loop only stores
    the converted value. *)
Variable num : Type.
Variable Number : jsstring -> num.

(** [preset] and [format] hold whatever string follows the flag. *)
Record ParsedArgs := mkArgs {
  file : jsstring;
  preset : jsstring;
  minSim : option num;
  minConf : option num;
  format : jsstring;
  out : option jsstring;
  verbose : bool;
  help : bool
}.

Definition initial_args : ParsedArgs :=
  {| file := [];
     preset := str "balanced";
     minSim := None;
     minConf := None;
     format := str "text";
     out := None;
     verbose := false;
     help := false |}.

Definition is_flag (arg : jsstring) (short long : string) : bool :=
  str_eqb arg (str short) || str_eqb arg (str long).

(** The [while (args.length)] loop; [pop()] takes the next argument or throws. *)
Fixpoint parse_loop (args : list jsstring) (parsed : ParsedArgs) : outcome ParsedArgs :=
  match args with
  | [] => Returns parsed
  | arg :: rest =>
      if is_flag arg "-h" "--help" then
        Returns {| file := file parsed; preset := preset parsed;
                   minSim := minSim parsed; minConf := minConf parsed;
                   format := format parsed; out := out parsed;
                   verbose := verbose parsed; help := true |}
      else if str_eqb arg (str "--preset") then
        match rest with
        | [] => Throws "Missing value for flag"
        | value :: rest' =>
            parse_loop rest'
              {| file := file parsed; preset := value;
                 minSim := minSim parsed; minConf := minConf parsed;
                 format := format parsed; out := out parsed;
                 verbose := verbose parsed; help := help parsed |}
        end
      else if str_eqb arg (str "--min-similarity") then
        match rest with
        | [] => Throws "Missing value for flag"
        | value :: rest' =>
            parse_loop rest'
              {| file := file parsed; preset := preset parsed;
                 minSim := Some (Number value); minConf := minConf parsed;
                 format := format parsed; out := out parsed;
                 verbose := verbose parsed; help := help parsed |}
        end
      else if str_eqb arg (str "--min-confidence") then
        match rest with
        | [] => Throws "Missing value for flag"
        | value :: rest' =>
            parse_loop rest'
              {| file := file parsed; preset := preset parsed;
                 minSim := minSim parsed; minConf := Some (Number value);
                 format := format parsed; out := out parsed;
                 verbose := verbose parsed; help := help parsed |}
        end
      else if str_eqb arg (str "--format") then
        match rest with
        | [] => Throws "Missing value for flag"
        | value :: rest' =>
            parse_loop rest'
              {| file := file parsed; preset := preset parsed;
                 minSim := minSim parsed; minConf := minConf parsed;
                 format := value; out := out parsed;
                 verbose := verbose parsed; help := help parsed |}
        end
      else if is_flag arg "-o" "--output" then
        match rest with
        | [] => Throws "Missing value for flag"
        | value :: rest' =>
            parse_loop rest'
              {| file := file parsed; preset := preset parsed;
                 minSim := minSim parsed; minConf := minConf parsed;
                 format := format parsed; out := Some value;
                 verbose := verbose parsed; help := help parsed |}
        end
      else if is_flag arg "-v" "--verbose" then
        parse_loop rest
          {| file := file parsed; preset := preset parsed;
             minSim := minSim parsed; minConf := minConf parsed;
             format := format parsed; out := out parsed;
             verbose := true; help := help parsed |}
      else if Matcher.starts_with (str "-") arg then
        Throws (String.append "Unknown flag: " (string_of_list_ascii arg))
      else if negb (Normalizer.nonempty (file parsed)) then
        parse_loop rest
          {| file := arg; preset := preset parsed;
             minSim := minSim parsed; minConf := minConf parsed;
             format := format parsed; out := out parsed;
             verbose := verbose parsed; help := help parsed |}
      else Throws "Multiple input files specified"
  end.

(** [argv.slice(2)] skips node and the script. *)
Definition parseArgs (argv : list jsstring) : outcome ParsedArgs :=
  parse_loop (skipn 2 argv) initial_args.

End ParseArgs.

End Cli.

(** Where the fields of a parse result come from: a field that differs from
    its initial value was taken from the arguments. *)
Definition parsed_from (num : Type) (Number : jsstring -> num)
    (args : list jsstring) (r : Cli.ParsedArgs num) : Prop :=
  (Cli.help r = true -> In (str "-h") args \/ In (str "--help") args) /\
  (Cli.verbose r = true -> In (str "-v") args \/ In (str "--verbose") args) /\
  (Cli.file r <> [] ->
   In (Cli.file r) args /\ Matcher.starts_with (str "-") (Cli.file r) = false) /\
  (Cli.preset r <> str "balanced" -> In (Cli.preset r) args) /\
  (Cli.format r <> str "text" -> In (Cli.format r) args) /\
  (forall value, Cli.out r = Some value -> In value args) /\
  (forall x, Cli.minSim r = Some x -> exists value, In value args /\ x = Number value) /\
  (forall x, Cli.minConf r = Some x -> exists value, In value args /\ x = Number value).

Module ClusterExamples.

(** The groups of the three names of the chain, and a group to stand for a
    missing one. *)
Definition chain_groups : list DuplicateGroup :=
  Deduplicator.duplicateGroups
    (Deduplicator.findDuplicates (Deduplicator.mkDeduplicator Examples.balanced_config)
       [Examples.chain_first; Examples.chain_middle; Examples.chain_last]).

Definition no_group : DuplicateGroup :=
  {| group_original := []; duplicates := []; totalMatches := 0 |}.

End ClusterExamples.

Module FileExamples.

Import FileReader.

Definition three_lines : list jsstring := [str "Acme Inc"; []; str "  Acme  "].

(** A file system in which every path holds the same three lines, ended by
    carriage return and line feed. *)
Definition crlf_disk : filesystem :=
  {| existsSync := fun _ => true;
     readFileSync := fun _ => Deduplicator.Returns (join [CR; LF] three_lines) |}.

Definition same_path (filePath : jsstring) : jsstring := filePath.

Definition padded : jsstring := str " Acme ".

End FileExamples.

(** * Properties *)

(** ** The tests of the repository *)

Section RepositoryTests.

Import Normalizer Matcher Examples.

(** normalizer.test.ts: removes accents, suffixes and punctuation. *)
Example normalizer_test_accents_suffixes :
  normalizeCompanyName (ubisoft_montreal_studio ++ str "!") Config.DEFAULT_CONFIG
  = str "ubisoft montreal".
Proof. vm_compute. reflexivity. Qed.

(** normalizer.test.ts: token overlap detects reordered words. *)
Example normalizer_test_reordered_words :
  (calculateTokenOverlap
     (normalizeCompanyName (str "Montreal Ubisoft") Config.DEFAULT_CONFIG)
     (normalizeCompanyName (str "Ubisoft Montreal") Config.DEFAULT_CONFIG) == 1)%Q.
Proof. vm_compute. reflexivity. Qed.

(** matcher.test.ts: exact match after normalisation, then the typo. *)
Example matcher_test_exact_then_similar :
  map (fun m => (method m, confidence m))
      (findAllMatches ubisoft_montreal
         [ubisoft_montreal_studio; str "Ubisot Montral Studio"] Config.DEFAULT_CONFIG)
  = [(exact_after_normalization, 1.000%Q); (high_similarity, 0.875%Q)].
Proof. vm_compute. reflexivity. Qed.

(** matcher.test.ts: high similarity (typo). *)
Example matcher_test_typo :
  map (fun m => (method m, confidence m))
      (findAllMatches (str "Bolt Technology") [str "Bolt Technlgy"] Config.DEFAULT_CONFIG)
  = [(high_similarity, 0.867%Q)].
Proof. vm_compute. reflexivity. Qed.

(** matcher.test.ts: token overlap (word order). *)
Example matcher_test_word_order :
  map (fun m => (method m, confidence m))
      (findAllMatches ubisoft_montreal [str "Montreal Ubisoft"] Config.DEFAULT_CONFIG)
  = [(token_match, 1.000%Q)].
Proof. vm_compute. reflexivity. Qed.

(** matcher.test.ts: partial substring match under the aggressive preset. *)
Example matcher_test_partial :
  map (fun m => (method m, confidence m))
      (findAllMatches (str "Santa Monica Studio") [str "Sony Santa Monica"]
         (Config.CONFIG_PRESETS aggressive))
  = [(partial_match, 0.706%Q)].
Proof. vm_compute. reflexivity. Qed.

(** matcher.test.ts: borderline matches filtered by the conservative preset. *)
Example matcher_test_conservative :
  findAllMatches (str "Getir") [str "Getir Brand"] (Config.CONFIG_PRESETS conservative)
  = [].
Proof. vm_compute. reflexivity. Qed.

End RepositoryTests.

(** ** Strings, sets and loops *)

Lemma str_eqb_eq (a b : jsstring) : str_eqb a b = true <-> a = b.
Proof.
  revert b; induction a as [|x a IH]; intros [|y b]; simpl; try (split; congruence).
  rewrite andb_true_iff, IH. unfold ascii_eqb. rewrite Ascii.eqb_eq.
  split; [intros [-> ->]; reflexivity | intros H; inversion H; auto].
Qed.

Lemma str_eqb_refl (a : jsstring) : str_eqb a a = true.
Proof. apply str_eqb_eq; reflexivity. Qed.

Lemma str_eqb_neq (a b : jsstring) : str_eqb a b = false <-> a <> b.
Proof.
  rewrite <- str_eqb_eq. destruct (str_eqb a b); split; congruence.
Qed.

Lemma str_eqb_sym (a b : jsstring) : str_eqb a b = str_eqb b a.
Proof.
  destruct (str_eqb a b) eqn:E.
  - apply str_eqb_eq in E; subst. symmetry; apply str_eqb_refl.
  - apply str_eqb_neq in E. symmetry; apply str_eqb_neq. congruence.
Qed.

Lemma str_mem_In (x : jsstring) (l : list jsstring) : str_mem x l = true <-> In x l.
Proof.
  induction l as [|y l IH]; simpl; [split; [discriminate | tauto]|].
  rewrite orb_true_iff, IH, str_eqb_eq. tauto.
Qed.

Lemma str_mem_not_In (x : jsstring) (l : list jsstring) : str_mem x l = false <-> ~ In x l.
Proof.
  rewrite <- str_mem_In. destruct (str_mem x l); split; congruence.
Qed.

Lemma set_of_aux_In (seen l : list jsstring) (x : jsstring) :
  In x (set_of_aux seen l) <-> In x l /\ ~ In x seen.
Proof.
  revert seen; induction l as [|y l IH]; intros seen; simpl; [tauto|].
  destruct (str_mem y seen) eqn:E.
  - apply str_mem_In in E. rewrite IH. split; [tauto|].
    intros [[->|H] Hn]; tauto.
  - apply str_mem_not_In in E. simpl. rewrite IH. simpl.
    split.
    + intros [->|[H Hn]]; tauto.
    + intros [[->|H] Hn]; [tauto|].
      destruct (str_eqb y x) eqn:Exy.
      * apply str_eqb_eq in Exy; tauto.
      * apply str_eqb_neq in Exy; tauto.
Qed.

Lemma set_of_aux_NoDup (seen l : list jsstring) : NoDup (set_of_aux seen l).
Proof.
  revert seen; induction l as [|y l IH]; intros seen; simpl; [constructor|].
  destruct (str_mem y seen); [apply IH|].
  constructor; [|apply IH].
  rewrite set_of_aux_In. simpl. tauto.
Qed.

Lemma set_of_In (l : list jsstring) (x : jsstring) : In x (set_of l) <-> In x l.
Proof. unfold set_of. rewrite set_of_aux_In. simpl. tauto. Qed.

Lemma set_of_NoDup (l : list jsstring) : NoDup (set_of l).
Proof. apply set_of_aux_NoDup. Qed.

Lemma push_loop_flat_map (A B : Type) (body : A -> option B) (xs : list A) :
  Matcher.push_loop body xs =
  flat_map (fun x => match body x with Some m => [m] | None => [] end) xs.
Proof.
  unfold Matcher.push_loop.
  enough (forall acc,
           fold_left (fun results x =>
                        match body x with Some m => results ++ [m] | None => results end)
                     xs acc
           = acc ++ flat_map (fun x => match body x with Some m => [m] | None => [] end) xs)
    as H by apply (H []).
  induction xs as [|x xs IH]; intros acc; simpl.
  - now rewrite app_nil_r.
  - rewrite IH. destruct (body x); simpl; [now rewrite <- app_assoc | reflexivity].
Qed.

Lemma In_push_loop (A B : Type) (body : A -> option B) (xs : list A) (m : B) :
  In m (Matcher.push_loop body xs) <-> exists x, In x xs /\ body x = Some m.
Proof.
  rewrite push_loop_flat_map, in_flat_map.
  split; intros [x [Hx H]]; exists x; split; auto.
  - destruct (body x); simpl in H; [destruct H as [->|[]]; reflexivity | contradiction].
  - rewrite H; simpl; auto.
Qed.

Lemma Qle_bool_true (x y : Q) : Qle_bool x y = true <-> (x <= y)%Q.
Proof. apply Qle_bool_iff. Qed.

Lemma Qlt_bool_true (x y : Q) : Matcher.Qlt_bool x y = true <-> (x < y)%Q.
Proof.
  unfold Matcher.Qlt_bool. rewrite negb_true_iff.
  destruct (Qle_bool y x) eqn:E.
  - apply Qle_bool_iff in E. split; [discriminate|]. intros H.
    exfalso. exact (Qlt_not_le _ _ H E).
  - split; [|reflexivity]. intros _. apply Qnot_le_lt. intros H.
    apply Qle_bool_iff in H. congruence.
Qed.


(** ** The exact and the token layer *)

Section Layers.

Import Normalizer Matcher.

(** C3 (as amended).  The exact layer produces a match for a candidate
    exactly when the candidate differs from the query as a raw string and the
    two normalized forms are equal; the match has confidence 1.0 and carries
    both normalized forms.  Nothing requires the common normalized form to be
    non-empty. *)
Theorem exact_match_iff (q : jsstring) (cs : list jsstring)
    (cfg : DeduplicationConfig) (m : CompanyMatch) :
  In m (findExactMatches q cs cfg) <->
  exists c, In c cs /\ c <> q /\
            normalizeCompanyName c cfg = normalizeCompanyName q cfg /\
            m = {| original := q; candidate := c; confidence := 1.000%Q;
                   method := exact_after_normalization;
                   normalizedOriginal := normalizeCompanyName q cfg;
                   normalizedCandidate := normalizeCompanyName c cfg |}.
Proof.
  unfold findExactMatches. rewrite In_push_loop.
  split.
  - intros [c [Hc Hb]]. exists c.
    destruct (str_eqb c q) eqn:Ecq; [discriminate|].
    destruct (str_eqb (normalizeCompanyName c cfg) (normalizeCompanyName q cfg)) eqn:En;
      [|discriminate].
    apply str_eqb_neq in Ecq. apply str_eqb_eq in En.
    inversion Hb; subst m. repeat split; auto.
  - intros [c [Hc [Hne [Hn ->]]]]. exists c. split; [assumption|].
    apply str_eqb_neq in Hne. rewrite Hne.
    apply str_eqb_eq in Hn. rewrite Hn. reflexivity.
Qed.

(** C3 as stated fails: "Inc" and "Ltd" both normalize to the empty string
    under the balanced preset, and the exact layer matches them. *)
Lemma exact_match_on_empty_forms :
  ~ ((exists m, In m (findExactMatches Examples.inc [Examples.ltd] Examples.balanced_config)
                /\ candidate m = Examples.ltd) <->
     (Examples.ltd <> Examples.inc /\
      normalizeCompanyName Examples.ltd Examples.balanced_config
        = normalizeCompanyName Examples.inc Examples.balanced_config /\
      normalizeCompanyName Examples.inc Examples.balanced_config <> [])).
Proof.
  intros [H _].
  assert (Hm : exists m,
             In m (findExactMatches Examples.inc [Examples.ltd] Examples.balanced_config)
             /\ candidate m = Examples.ltd).
  { eexists. split; [left; reflexivity | reflexivity]. }
  destruct (H Hm) as [_ [_ Hne]]. apply Hne. reflexivity.
Qed.



End Layers.

(** ** The edit distance *)

Module LevenshteinFacts.

Import Matcher LevenshteinSpec.

Lemma cell_0 a b j : cell a b 0 j = j.
Proof. reflexivity. Qed.

Lemma cell_S_0 a b i : cell a b (S i) 0 = S i.
Proof. reflexivity. Qed.

Lemma cell_S_S a b i j :
  cell a b (S i) (S j) =
  min3 (cell a b i (S j) + 1) (cell a b (S i) j + 1)
       (cell a b i j + subst_cost a b (S i) (S j)).
Proof. reflexivity. Qed.

Lemma cell_i_0 a b i : cell a b i 0 = i.
Proof. destruct i; reflexivity. Qed.

Lemma subst_cost_sym a b i j : subst_cost a b i j = subst_cost b a j i.
Proof.
  unfold subst_cost, ascii_eqb. now rewrite Ascii.eqb_sym.
Qed.

Lemma cell_sym a b i : forall j, cell a b i j = cell b a j i.
Proof.
  induction i as [|i IHi]; intros j.
  - now rewrite cell_0, cell_i_0.
  - induction j as [|j IHj].
    + reflexivity.
    + rewrite !cell_S_S, IHj, !IHi, (subst_cost_sym a b).
      unfold min3. lia.
Qed.

(** Reading and writing the matrix. *)

Lemma length_set_row row j v :
  j <= length row -> length (set_row row j v) = Nat.max (length row) (S j).
Proof.
  intros H. unfold set_row.
  rewrite !length_app, length_firstn, repeat_length. cbn [length].
  rewrite length_skipn. lia.
Qed.

Lemma nth_set_row row j v k :
  j <= length row ->
  nth k (set_row row j v) 0 = if Nat.eqb k j then v else nth k row 0.
Proof.
  intros H. unfold set_row.
  replace (j - length row) with 0 by lia. cbn [repeat app].
  destruct (Nat.eqb_spec k j) as [->|Hkj].
  - rewrite app_nth2; rewrite length_firstn; [|lia].
    replace (j - Nat.min j (length row)) with 0 by lia. reflexivity.
  - destruct (Nat.lt_ge_cases k j) as [Hlt|Hge].
    + rewrite app_nth1 by (rewrite length_firstn; lia).
      now rewrite nth_firstn, (proj2 (Nat.ltb_lt _ _) Hlt).
    + rewrite app_nth2; rewrite length_firstn; [|lia].
      replace (Nat.min j (length row)) with j by lia.
      destruct (k - j) as [|d] eqn:Ed; [lia|]. cbn [nth].
      rewrite nth_skipn. f_equal. lia.
Qed.

Lemma length_set_cell m i j v : i < length m -> length (set_cell m i j v) = length m.
Proof.
  intros H. unfold set_cell.
  rewrite length_app, length_firstn. cbn [length]. rewrite length_skipn. lia.
Qed.

Lemma nth_set_cell m i j v k :
  i < length m ->
  nth k (set_cell m i j v) [] =
  if Nat.eqb k i then set_row (nth i m []) j v else nth k m [].
Proof.
  intros H. unfold set_cell.
  destruct (Nat.eqb_spec k i) as [->|Hki].
  - rewrite app_nth2; rewrite length_firstn; [|lia].
    replace (i - Nat.min i (length m)) with 0 by lia. reflexivity.
  - destruct (Nat.lt_ge_cases k i) as [Hlt|Hge].
    + rewrite app_nth1 by (rewrite length_firstn; lia).
      now rewrite nth_firstn, (proj2 (Nat.ltb_lt _ _) Hlt).
    + rewrite app_nth2; rewrite length_firstn; [|lia].
      replace (Nat.min i (length m)) with i by lia.
      destruct (k - i) as [|d] eqn:Ed; [lia|]. cbn [nth].
      rewrite nth_skipn. f_equal. lia.
Qed.

(** A loop over [lo, lo + 1, ..., lo + n - 1] maintains an invariant indexed
    by the next value of the loop variable. *)
Lemma fold_seq_invariant (S : Type) (P : nat -> S -> Prop) (f : S -> nat -> S) :
  forall n lo s,
    P lo s ->
    (forall k t, lo <= k < lo + n -> P k t -> P (Datatypes.S k) (f t k)) ->
    P (lo + n) (fold_left f (seq lo n) s).
Proof.
  induction n as [|n IH]; intros lo s H0 Hstep; simpl.
  - now rewrite Nat.add_0_r.
  - rewrite <- Nat.add_succ_comm. apply IH.
    + apply Hstep; [lia | assumption].
    + intros k t Hk. apply Hstep. lia.
Qed.

Section Matrix.

Variables a b : jsstring.

Lemma matrix_at_next_row i0 m :
  matrix_at a b i0 (S (length b)) m -> matrix_at a b (S i0) 1 m.
Proof.
  intros [Hlen H]. split; [assumption|].
  intros i Hi. destruct (H i Hi) as [Hl Hc].
  assert (E : filled b (S i0) 1 i = filled b i0 (S (length b)) i).
  { unfold filled.
    destruct (Nat.ltb_spec i (S i0)), (Nat.ltb_spec i i0),
             (Nat.eqb_spec i i0), (Nat.eqb_spec i (S i0)); lia. }
  rewrite E. split; assumption.
Qed.

Lemma matrix_at_init :
  matrix_at a b 0 1 (map (fun i => [i]) (seq 0 (length a + 1))).
Proof.
  split; [rewrite length_map, length_seq; lia|].
  intros i Hi.
  assert (E : nth i (map (fun i => [i]) (seq 0 (length a + 1))) [] = [i]).
  { rewrite nth_indep with (d' := [0])
      by (rewrite length_map, length_seq; lia).
    pose proof (map_nth (fun i : nat => [i]) (seq 0 (length a + 1)) 0 i) as E0.
    cbv beta in E0. rewrite E0, seq_nth by lia. reflexivity. }
  unfold get. rewrite E. split.
  - unfold filled. simpl. destruct (Nat.eqb i 0); reflexivity.
  - intros j Hj.
    assert (j = 0) as ->.
    { unfold filled in Hj. simpl in Hj. destruct (Nat.eqb i 0); lia. }
    simpl. now rewrite cell_i_0.
Qed.

(** One assignment [matrix[i0][j0] = cell a b i0 j0] at the end of row [i0]. *)
Lemma matrix_at_set i0 j0 m :
  i0 <= length a -> 1 <= j0 ->
  matrix_at a b i0 j0 m ->
  matrix_at a b i0 (S j0) (set_cell m i0 j0 (cell a b i0 j0)).
Proof.
  intros Hi0 Hj0 [Hlen H]. split; [rewrite length_set_cell; lia|].
  intros i Hi. unfold get. rewrite nth_set_cell by lia.
  destruct (H i Hi) as [Hl Hc].
  destruct (Nat.eqb_spec i i0) as [->|Hne].
  - assert (Ef : forall j, filled b i0 j i0 = j).
    { intros j. unfold filled. rewrite Nat.ltb_irrefl, Nat.eqb_refl. reflexivity. }
    rewrite Ef in *. split.
    + rewrite length_set_row by lia. lia.
    + intros j Hj. rewrite nth_set_row by lia.
      destruct (Nat.eqb_spec j j0) as [->|Hjj]; [reflexivity|].
      apply Hc. lia.
  - assert (Ef : filled b i0 (S j0) i = filled b i0 j0 i).
    { unfold filled. destruct (Nat.ltb i i0); [reflexivity|].
      destruct (Nat.eqb_spec i i0); [contradiction | reflexivity]. }
    rewrite Ef. split; assumption.
Qed.

Lemma first_row_loop :
  matrix_at a b 1 1
    (fold_left (fun m j => set_cell m 0 j j) (seq 1 (length b))
               (map (fun i => [i]) (seq 0 (length a + 1)))).
Proof.
  apply matrix_at_next_row.
  change (S (length b)) with (1 + length b).
  apply fold_seq_invariant with (P := fun j m => matrix_at a b 0 j m).
  - apply matrix_at_init.
  - intros k t Hk Ht.
    change (set_cell t 0 k k) with (set_cell t 0 k (cell a b 0 k)).
    apply matrix_at_set; [lia | lia | assumption].
Qed.

Lemma inner_loop_step i j m :
  1 <= i <= length a -> 1 <= j <= length b ->
  matrix_at a b i j m ->
  lev_inner a b i m j = set_cell m i j (cell a b i j).
Proof.
  intros Hi Hj [Hlen H]. unfold lev_inner. f_equal.
  destruct i as [|i]; [lia|]. destruct j as [|j]; [lia|].
  rewrite cell_S_S. simpl Nat.sub. rewrite !Nat.sub_0_r.
  assert (Hup : forall j', j' <= length b -> get m i j' = cell a b i j').
  { intros j' Hj'. apply (H i); [lia|].
    unfold filled. rewrite (proj2 (Nat.ltb_lt i (S i))) by lia. lia. }
  assert (Hleft : get m (S i) j = cell a b (S i) j).
  { apply (H (S i)); [lia|].
    unfold filled. rewrite Nat.ltb_irrefl, Nat.eqb_refl. lia. }
  rewrite !Hup, Hleft by lia. reflexivity.
Qed.

Lemma outer_loop_step i m :
  1 <= i <= length a ->
  matrix_at a b i 1 m -> matrix_at a b (S i) 1 (lev_outer a b m i).
Proof.
  intros Hi Hm. apply matrix_at_next_row. unfold lev_outer.
  change (S (length b)) with (1 + length b).
  apply fold_seq_invariant with (P := fun j m => matrix_at a b i j m).
  - assumption.
  - intros k t Hk Ht. rewrite inner_loop_step by (assumption || lia).
    apply matrix_at_set; [lia | lia | assumption].
Qed.

Lemma matrix_loops :
  matrix_at a b (S (length a)) 1
    (fold_left (lev_outer a b) (seq 1 (length a))
       (fold_left (fun m j => set_cell m 0 j j) (seq 1 (length b))
                  (map (fun i => [i]) (seq 0 (length a + 1))))).
Proof.
  change (S (length a)) with (1 + length a).
  apply fold_seq_invariant with (P := fun i m => matrix_at a b i 1 m).
  - apply first_row_loop.
  - intros k t Hk Ht. apply outer_loop_step; [lia | assumption].
Qed.

(** The value the function returns. *)
Lemma calculateLevenshteinDistance_cell :
  calculateLevenshteinDistance a b =
  if str_eqb a b then 0
  else if Nat.eqb (length a) 0 then length b
  else if Nat.eqb (length b) 0 then length a
  else cell a b (length a) (length b).
Proof.
  unfold calculateLevenshteinDistance.
  destruct (str_eqb a b); [reflexivity|].
  destruct (Nat.eqb (length a) 0); [reflexivity|].
  destruct (Nat.eqb (length b) 0); [reflexivity|].
  destruct matrix_loops as [_ H].
  apply (H (length a)); [lia|].
  unfold filled. rewrite (proj2 (Nat.ltb_lt _ _)); lia.
Qed.

End Matrix.

Lemma calculateLevenshteinDistance_sym (a b : jsstring) :
  calculateLevenshteinDistance a b = calculateLevenshteinDistance b a.
Proof.
  rewrite !calculateLevenshteinDistance_cell, (str_eqb_sym b a), (cell_sym a b).
  destruct (str_eqb a b) eqn:E; [reflexivity|].
  apply str_eqb_neq in E.
  destruct a, b; simpl; reflexivity || congruence.
Qed.

End LevenshteinFacts.

(** C8.  Similarity is symmetric, and the similarity of two empty strings
    is 1. *)
Theorem calculateSimilarity_sym (a b : jsstring) :
  Matcher.calculateSimilarity a b = Matcher.calculateSimilarity b a /\
  Matcher.calculateSimilarity [] [] = 1%Q.
Proof.
  split; [|reflexivity].
  unfold Matcher.calculateSimilarity.
  now rewrite LevenshteinFacts.calculateLevenshteinDistance_sym, Nat.max_comm.
Qed.

(** ** Configuration *)

Section ConfigFacts.

Import Config.

(** C9.  The three presets carry the values of the table, in the current
    configuration module and in its earlier revision; the two differ only in
    the result limit of the conservative preset, 10 and 5. *)
Theorem presets_table :
  (table_row (Config.CONFIG_PRESETS balanced) 0.85 0.80 0.70 0.75 10 10 /\
   table_row (Config.CONFIG_PRESETS conservative) 0.92 0.88 0.85 0.85 5 10 /\
   table_row (Config.CONFIG_PRESETS aggressive) 0.78 0.70 0.60 0.60 15 15) /\
  (table_row (ConfigHistory.CONFIG_PRESETS balanced) 0.85 0.80 0.70 0.75 10 10 /\
   table_row (ConfigHistory.CONFIG_PRESETS conservative) 0.92 0.88 0.85 0.85 5 10 /\
   table_row (ConfigHistory.CONFIG_PRESETS aggressive) 0.78 0.70 0.60 0.60 15 15).
Proof.
  unfold table_row; simpl.
  repeat split; reflexivity || lia.
Qed.

Lemma In_between0and1 (v : Q) (field : string) (errs : list string) (msg : string) :
  In msg (between0and1 v field errs) <->
  In msg errs \/ (msg = (field ++ " must be between 0 and 1")%string /\ (v < 0 \/ 1 < v)%Q).
Proof.
  unfold between0and1.
  destruct (Matcher.Qlt_bool v 0 || Matcher.Qlt_bool 1 v) eqn:E.
  - apply orb_true_iff in E. rewrite !Qlt_bool_true in E.
    rewrite in_app_iff. simpl. intuition.
  - apply orb_false_iff in E. destruct E as [E1 E2].
    split; [tauto|]. intros [H|[_ [H|H]]]; [assumption| |];
      apply Qlt_bool_true in H; congruence.
Qed.

Lemma NoDup_between0and1 (v : Q) (field : string) (errs : list string) :
  NoDup errs -> ~ In (field ++ " must be between 0 and 1")%string errs ->
  NoDup (between0and1 v field errs).
Proof.
  intros Hnd Hni. unfold between0and1.
  destruct (_ || _); [|assumption].
  apply NoDup_app; [assumption | repeat constructor; intros [] |].
  intros x Hx [<-|[]]. contradiction.
Qed.

Lemma In_validateConfig (cfg : DeduplicationConfig) (msg : string) :
  In msg (validateConfig cfg) <->
  (msg = "highSimilarityThreshold must be between 0 and 1"%string /\
   (highSimilarityThreshold cfg < 0 \/ 1 < highSimilarityThreshold cfg)%Q) \/
  (msg = "tokenMatchThreshold must be between 0 and 1"%string /\
   (tokenMatchThreshold cfg < 0 \/ 1 < tokenMatchThreshold cfg)%Q) \/
  (msg = "partialMatchThreshold must be between 0 and 1"%string /\
   (partialMatchThreshold cfg < 0 \/ 1 < partialMatchThreshold cfg)%Q) \/
  (msg = "minConfidenceScore must be between 0 and 1"%string /\
   (minConfidenceScore cfg < 0 \/ 1 < minConfidenceScore cfg)%Q) \/
  (msg = "maxResultsPerCompany must be > 0"%string /\
   (maxResultsPerCompany cfg <= 0)%Z).
Proof.
  unfold validateConfig.
  destruct (Z.leb_spec (maxResultsPerCompany cfg) 0) as [Hm|Hm].
  - rewrite in_app_iff, !In_between0and1. simpl. intuition.
  - rewrite !In_between0and1. simpl. intuition lia.
Qed.

(** A configuration that passes validation. *)
Lemma valid_config_bounds (cfg : DeduplicationConfig) :
  validateConfig cfg = [] ->
  (0 <= minConfidenceScore cfg <= 1)%Q /\ (0 < maxResultsPerCompany cfg)%Z.
Proof.
  intros H.
  assert (Hno : forall msg, ~ In msg (validateConfig cfg)) by (rewrite H; auto).
  repeat split.
  - apply Qnot_lt_le. intros Hlt.
    apply (Hno "minConfidenceScore must be between 0 and 1"%string).
    apply In_validateConfig. tauto.
  - apply Qnot_lt_le. intros Hlt.
    apply (Hno "minConfidenceScore must be between 0 and 1"%string).
    apply In_validateConfig. tauto.
  - apply Z.nle_gt. intros Hle.
    apply (Hno "maxResultsPerCompany must be > 0"%string).
    apply In_validateConfig. tauto.
Qed.

(** On configurations of finite numbers [validateConfig] reports every
    field that is out of range, each once and nothing else: a threshold below
    0 or above 1, a result limit that is not positive.  The constructor
    returns an object exactly when there is nothing to report and otherwise
    throws an error whose message joins all the reports; no deduplicator
    exists on which matching could be run. *)
Theorem validateConfig_reports_every_field (cfg : DeduplicationConfig) :
  let errs := validateConfig cfg in
  let out (v : Q) := (v < 0 \/ 1 < v)%Q in
  (In "highSimilarityThreshold must be between 0 and 1"%string errs
     <-> out (highSimilarityThreshold cfg)) /\
  (In "tokenMatchThreshold must be between 0 and 1"%string errs
     <-> out (tokenMatchThreshold cfg)) /\
  (In "partialMatchThreshold must be between 0 and 1"%string errs
     <-> out (partialMatchThreshold cfg)) /\
  (In "minConfidenceScore must be between 0 and 1"%string errs
     <-> out (minConfidenceScore cfg)) /\
  (In "maxResultsPerCompany must be > 0"%string errs
     <-> (maxResultsPerCompany cfg <= 0)%Z) /\
  NoDup errs /\
  (forall msg, In msg errs ->
     In msg ["highSimilarityThreshold must be between 0 and 1";
             "tokenMatchThreshold must be between 0 and 1";
             "partialMatchThreshold must be between 0 and 1";
             "minConfidenceScore must be between 0 and 1";
             "maxResultsPerCompany must be > 0"]%string) /\
  (Deduplicator.constructor cfg = Deduplicator.Returns (Deduplicator.mkDeduplicator cfg)
     <-> errs = []) /\
  (Deduplicator.constructor cfg =
     Deduplicator.Throws ("Invalid config: " ++ Deduplicator.join_messages errs)
     <-> errs <> []).
Proof.
  intros errs out. subst errs out. cbv beta.
  pose proof (In_validateConfig cfg) as Hin.
  assert (Hnd : NoDup (validateConfig cfg)).
  { unfold validateConfig.
    assert (H4 : NoDup
      (between0and1 (minConfidenceScore cfg) "minConfidenceScore"
        (between0and1 (partialMatchThreshold cfg) "partialMatchThreshold"
          (between0and1 (tokenMatchThreshold cfg) "tokenMatchThreshold"
            (between0and1 (highSimilarityThreshold cfg) "highSimilarityThreshold" []))))).
    { repeat (apply NoDup_between0and1;
              [| rewrite ?In_between0and1; simpl;
                 intros H; decompose [and or] H; try discriminate; try contradiction]).
      constructor. }
    destruct (_ <=? _)%Z; [|assumption].
    apply NoDup_app; [assumption | repeat constructor; intros [] |].
    intros x Hx [<-|[]]. revert Hx. rewrite !In_between0and1. simpl.
    intros H; decompose [and or] H; try discriminate; try contradiction. }
  assert (Hfield : forall msg (P : Prop),
             (In msg (validateConfig cfg) -> P) ->
             (P -> In msg (validateConfig cfg)) ->
             (In msg (validateConfig cfg) <-> P)) by (intros; split; assumption).
  split; [|split; [|split; [|split; [|split; [|split; [|split; [|split]]]]]]].
  - apply Hfield; intros H; [apply Hin in H|apply Hin; tauto].
    decompose [and or] H; try discriminate; auto.
  - apply Hfield; intros H; [apply Hin in H|apply Hin; tauto].
    decompose [and or] H; try discriminate; auto.
  - apply Hfield; intros H; [apply Hin in H|apply Hin; tauto].
    decompose [and or] H; try discriminate; auto.
  - apply Hfield; intros H; [apply Hin in H|apply Hin; tauto].
    decompose [and or] H; try discriminate; auto.
  - apply Hfield; intros H; [apply Hin in H|apply Hin; tauto].
    decompose [and or] H; try discriminate; auto.
  - exact Hnd.
  - intros msg H. apply Hin in H. decompose [and or] H; subst; simpl; tauto.
  - unfold Deduplicator.constructor.
    destruct (validateConfig cfg); cbn; split; intros H;
      reflexivity || discriminate H.
  - unfold Deduplicator.constructor.
    destruct (validateConfig cfg); cbn; split; intros H;
      reflexivity || discriminate || congruence.
Qed.

End ConfigFacts.
(** ** Configurations with NaN and infinities *)

Module RawConfigFacts.

Import JsNumber RawConfig.

Lemma Qlt_bool_false (x y : Q) : Matcher.Qlt_bool x y = false <-> (y <= x)%Q.
Proof.
  split.
  - intros H. apply Qnot_lt_le. intros Hlt. apply Qlt_bool_true in Hlt. congruence.
  - intros H. destruct (Matcher.Qlt_bool x y) eqn:E; [|reflexivity].
    apply Qlt_bool_true in E. lra.
Qed.

Lemma threshold_passes_iff (v : number) :
  lt v (Finite 0) || lt (Finite 1) v = false <-> threshold_passes v.
Proof.
  destruct v as [q| | |]; cbn [lt threshold_passes orb].
  - rewrite orb_false_iff, !Qlt_bool_false. tauto.
  - split; [discriminate | contradiction].
  - split; [discriminate | contradiction].
  - tauto.
Qed.

Lemma limit_passes_iff (v : number) : le v (Finite 0) = false <-> limit_passes v.
Proof.
  destruct v as [q| | |]; cbn [le limit_passes].
  - split.
    + intros H. apply Qnot_le_lt. intros Hle. apply Qle_bool_iff in Hle. congruence.
    + intros H. destruct (Qle_bool q 0) eqn:E; [|reflexivity].
      apply Qle_bool_iff in E. lra.
  - tauto.
  - split; [discriminate | contradiction].
  - tauto.
Qed.

Lemma between0and1_nil (v : number) (field : string) (errs : list string) :
  between0and1 v field errs = [] <-> errs = [] /\ threshold_passes v.
Proof.
  rewrite <- threshold_passes_iff. unfold between0and1.
  destruct (lt v (Finite 0) || lt (Finite 1) v).
  - split; [|intros [_ H]; discriminate H].
    intros H. apply app_eq_nil in H. destruct H as [_ H]. discriminate H.
  - tauto.
Qed.

(** Validation lets a configuration through exactly when each threshold is
    a number of [0,1] or NaN and the limit is positive or NaN. *)
Lemma validateConfig_passes_iff (cfg : t) :
  validateConfig cfg = [] <->
  threshold_passes (highSimilarityThreshold cfg) /\
  threshold_passes (tokenMatchThreshold cfg) /\
  threshold_passes (partialMatchThreshold cfg) /\
  threshold_passes (minConfidenceScore cfg) /\
  limit_passes (maxResultsPerCompany cfg).
Proof.
  unfold validateConfig. rewrite <- limit_passes_iff.
  destruct (le (maxResultsPerCompany cfg) (Finite 0)).
  - split; [|intros (_ & _ & _ & _ & H); discriminate H].
    intros H. apply app_eq_nil in H. destruct H as [_ H]. discriminate H.
  - rewrite !between0and1_nil. tauto.
Qed.

(** What is reported: a threshold, or the limit, that validation does not
    let through, and nothing else. *)
Lemma In_between0and1_number (v : number) (field : string) (errs : list string) (msg : string) :
  In msg (between0and1 v field errs) <->
  In msg errs \/
  (msg = (field ++ " must be between 0 and 1")%string /\ ~ threshold_passes v).
Proof.
  rewrite <- threshold_passes_iff. unfold between0and1.
  destruct (lt v (Finite 0) || lt (Finite 1) v).
  - rewrite in_app_iff. simpl. split.
    + intros [H|[H|[]]]; [now left | right]. split; [now symmetry | discriminate].
    + intros [H|[H _]]; [now left | right; left; now symmetry].
  - split; [tauto|]. intros [H|[_ H]]; [assumption | now contradiction H].
Qed.

Lemma validateConfig_reports (cfg : t) (msg : string) :
  In msg (validateConfig cfg) <->
  (msg = "highSimilarityThreshold must be between 0 and 1"%string /\
   ~ threshold_passes (highSimilarityThreshold cfg)) \/
  (msg = "tokenMatchThreshold must be between 0 and 1"%string /\
   ~ threshold_passes (tokenMatchThreshold cfg)) \/
  (msg = "partialMatchThreshold must be between 0 and 1"%string /\
   ~ threshold_passes (partialMatchThreshold cfg)) \/
  (msg = "minConfidenceScore must be between 0 and 1"%string /\
   ~ threshold_passes (minConfidenceScore cfg)) \/
  (msg = "maxResultsPerCompany must be > 0"%string /\
   ~ limit_passes (maxResultsPerCompany cfg)).
Proof.
  unfold validateConfig. rewrite <- limit_passes_iff.
  destruct (le (maxResultsPerCompany cfg) (Finite 0)).
  - rewrite in_app_iff, !In_between0and1_number. simpl.
    intuition (try discriminate; try (symmetry; assumption)).
  - rewrite !In_between0and1_number. simpl.
    intuition (try discriminate; try (symmetry; assumption)).
Qed.

(** On a configuration of finite numbers the two validations agree. *)
Lemma between0and1_finite (q : Q) (field : string) (errs : list string) :
  between0and1 (Finite q) field errs = Config.between0and1 q field errs.
Proof. reflexivity. Qed.

Lemma validateConfig_of_config (cfg : DeduplicationConfig) :
  validateConfig (of_config cfg) = Config.validateConfig cfg.
Proof.
  unfold validateConfig, Config.validateConfig, of_config.
  cbn [highSimilarityThreshold tokenMatchThreshold partialMatchThreshold
       minConfidenceScore maxResultsPerCompany le].
  rewrite !between0and1_finite.
  replace (Qle_bool (inject_Z (Types.maxResultsPerCompany cfg)) 0)
    with (Types.maxResultsPerCompany cfg <=? 0)%Z; [reflexivity|].
  unfold Qle_bool, inject_Z. cbn [Qnum Qden]. now rewrite Z.mul_1_r.
Qed.

Lemma constructor_of_config (cfg : DeduplicationConfig) :
  match Deduplicator.constructor cfg with
  | Deduplicator.Returns _ =>
      constructor (of_config cfg) = Deduplicator.Returns (mkDeduplicator (of_config cfg))
  | Deduplicator.Throws message =>
      constructor (of_config cfg) = Deduplicator.Throws message
  end.
Proof.
  unfold constructor, Deduplicator.constructor. rewrite validateConfig_of_config.
  destruct (Nat.ltb 0 (length (Config.validateConfig cfg))); reflexivity.
Qed.

Lemma presets_pass (preset : ConfigPreset) : validateConfig (CONFIG_PRESETS preset) = [].
Proof. destruct preset; reflexivity. Qed.

End RawConfigFacts.

(** C6 (the code at a configuration it can receive).  The command line turns
    [--min-similarity] followed by a word that is not a number into a NaN
    override of [highSimilarityThreshold].  NaN is not between 0 and 1, yet
    [validateConfig] reports nothing for the configuration built from it,
    and the constructor returns a deduplicator holding it instead of
    throwing. *)
Theorem validateConfig_lets_NaN_through :
  RawConfig.highSimilarityThreshold RawConfig.nan_config = JsNumber.NaN /\
  JsNumber.le (JsNumber.Finite 0)
              (RawConfig.highSimilarityThreshold RawConfig.nan_config) = false /\
  JsNumber.le (RawConfig.highSimilarityThreshold RawConfig.nan_config)
              (JsNumber.Finite 1) = false /\
  RawConfig.validateConfig RawConfig.nan_config = [] /\
  RawConfig.constructor RawConfig.nan_config
    = Deduplicator.Returns (RawConfig.mkDeduplicator RawConfig.nan_config).
Proof. repeat split. Qed.

(** ** The reconciliation map *)

Module MapFacts.

Import Matcher.

Lemma map_get_None (k : jsstring) (bm : jsmap) :
  map_get k bm = None <-> ~ In k (map fst bm).
Proof.
  induction bm as [|[k' v'] bm IH]; simpl; [tauto|].
  destruct (str_eqb k' k) eqn:E.
  - apply str_eqb_eq in E. split; [discriminate | tauto].
  - apply str_eqb_neq in E. rewrite IH. tauto.
Qed.

Lemma map_get_In (k : jsstring) (v : CompanyMatch) (bm : jsmap) :
  map_get k bm = Some v -> In (k, v) bm.
Proof.
  induction bm as [|[k' v'] bm IH]; simpl; [discriminate|].
  destruct (str_eqb k' k) eqn:E.
  - apply str_eqb_eq in E. intros H; inversion H; subst. now left.
  - intros H. right. now apply IH.
Qed.

Lemma In_map_get (k : jsstring) (v : CompanyMatch) (bm : jsmap) :
  NoDup (map fst bm) -> In (k, v) bm -> map_get k bm = Some v.
Proof.
  induction bm as [|[k' v'] bm IH]; simpl; [tauto|].
  intros Hnd [H|H]; inversion Hnd as [|? ? Hni Hnd']; subst.
  - inversion H; subst. now rewrite str_eqb_refl.
  - destruct (str_eqb k' k) eqn:E; [|now apply IH].
    apply str_eqb_eq in E; subst. exfalso. apply Hni.
    change k with (fst (k, v)). now apply in_map.
Qed.

Lemma map_get_map_set (k k' : jsstring) (v : CompanyMatch) (bm : jsmap) :
  map_get k' (map_set k v bm) = if str_eqb k k' then Some v else map_get k' bm.
Proof.
  induction bm as [|[k0 v0] bm IH]; simpl; [reflexivity|].
  destruct (str_eqb k0 k) eqn:E0; simpl.
  - apply str_eqb_eq in E0; subst k0. destruct (str_eqb k k'); reflexivity.
  - rewrite IH. destruct (str_eqb k0 k') eqn:E1; [|reflexivity].
    apply str_eqb_eq in E1; subst k0. now rewrite str_eqb_sym, E0.
Qed.

Lemma keys_map_set (k : jsstring) (v : CompanyMatch) (bm : jsmap) :
  map fst (map_set k v bm) =
  if str_mem k (map fst bm) then map fst bm else map fst bm ++ [k].
Proof.
  induction bm as [|[k0 v0] bm IH]; simpl; [reflexivity|].
  destruct (str_eqb k0 k) eqn:E0; simpl; [reflexivity|].
  rewrite IH. destruct (str_mem k (map fst bm)); reflexivity.
Qed.

Lemma In_map_set (k k' : jsstring) (v v' : CompanyMatch) (bm : jsmap) :
  In (k', v') (map_set k v bm) -> In (k', v') bm \/ (k' = k /\ v' = v).
Proof.
  induction bm as [|[k0 v0] bm IH]; simpl.
  - intros [H|[]]. inversion H; auto.
  - destruct (str_eqb k0 k) eqn:E0; simpl.
    + apply str_eqb_eq in E0; subst k0.
      intros [H|H]; [inversion H; auto | auto].
    + intros [H|H]; [auto|]. destruct (IH H); auto.
Qed.

Lemma keys_best_step (bm : jsmap) (m : CompanyMatch) :
  map fst (best_step bm m) =
  if str_mem (candidate m) (map fst bm) then map fst bm
  else map fst bm ++ [candidate m].
Proof.
  unfold best_step.
  destruct (map_get (candidate m) bm) as [existing|] eqn:E.
  - assert (Hin : str_mem (candidate m) (map fst bm) = true).
    { apply str_mem_In. apply map_get_In in E.
      change (candidate m) with (fst (candidate m, existing)). now apply in_map. }
    rewrite Hin. destruct (Qlt_bool _ _); [|reflexivity].
    now rewrite keys_map_set, Hin.
  - rewrite keys_map_set.
    apply map_get_None, str_mem_not_In in E. now rewrite E.
Qed.

Lemma set_of_aux_ext (seen seen' l : list jsstring) :
  (forall x, In x seen <-> In x seen') -> set_of_aux seen l = set_of_aux seen' l.
Proof.
  revert seen seen'; induction l as [|y l IH]; intros seen seen' H; simpl; [reflexivity|].
  assert (E : str_mem y seen = str_mem y seen').
  { destruct (str_mem y seen) eqn:E1; symmetry.
    - apply str_mem_In. apply H. now apply str_mem_In.
    - apply str_mem_not_In. rewrite <- H. now apply str_mem_not_In. }
  rewrite <- E. destruct (str_mem y seen); [now apply IH|].
  f_equal. apply IH. intros x; simpl. rewrite H. tauto.
Qed.

(** The keys of the map are the candidates of the pooled matches, each at
    its first appearance. *)
Lemma keys_fold_best_step (l : list CompanyMatch) (bm : jsmap) :
  map fst (fold_left best_step l bm) =
  map fst bm ++ set_of_aux (map fst bm) (map candidate l).
Proof.
  revert bm; induction l as [|m l IH]; intros bm; simpl; [now rewrite app_nil_r|].
  rewrite IH, keys_best_step.
  destruct (str_mem (candidate m) (map fst bm)); [reflexivity|].
  rewrite <- app_assoc. simpl. do 2 f_equal.
  apply set_of_aux_ext. intros x. rewrite in_app_iff. simpl. tauto.
Qed.

Lemma keys_best_map (l : list CompanyMatch) :
  map fst (best_map l) = set_of (map candidate l).
Proof. unfold best_map. now rewrite keys_fold_best_step. Qed.

Lemma entries_fold_best_step (l : list CompanyMatch) (bm : jsmap) (k : jsstring)
    (v : CompanyMatch) :
  In (k, v) (fold_left best_step l bm) ->
  In (k, v) bm \/ (k = candidate v /\ In v l).
Proof.
  revert bm; induction l as [|m l IH]; intros bm; simpl; [auto|].
  intros H. apply IH in H. destruct H as [H|[H1 H2]]; [|auto].
  unfold best_step in H.
  destruct (map_get (candidate m) bm) as [existing|];
    [destruct (Qlt_bool _ _)|]; auto;
    apply In_map_set in H; destruct H as [H|[-> ->]]; auto.
Qed.

Lemma entries_best_map (l : list CompanyMatch) (k : jsstring) (v : CompanyMatch) :
  In (k, v) (best_map l) -> k = candidate v /\ In v l.
Proof.
  intros H. apply entries_fold_best_step in H. destruct H as [[]|H]. exact H.
Qed.

Lemma values_best_map (l : list CompanyMatch) (v : CompanyMatch) :
  In v (map_values (best_map l)) -> In v l.
Proof.
  unfold map_values. rewrite in_map_iff. intros [[k v'] [E H]]. simpl in E; subst v'.
  now apply entries_best_map in H.
Qed.

Lemma candidates_best_map (l : list CompanyMatch) :
  map candidate (map_values (best_map l)) = set_of (map candidate l).
Proof.
  rewrite <- keys_best_map. unfold map_values. rewrite map_map.
  apply map_ext_in. intros [k v] H. simpl.
  apply entries_best_map in H. symmetry. apply H.
Qed.

(** An entry stays as long as no later match for its key has a strictly
    greater confidence. *)
Lemma map_get_fold_stable (c : jsstring) (m0 : CompanyMatch) (l : list CompanyMatch) :
  forall bm,
    map_get c bm = Some m0 ->
    (forall m, In m l -> candidate m = c -> ~ (confidence m0 < confidence m)%Q) ->
    map_get c (fold_left best_step l bm) = Some m0.
Proof.
  induction l as [|m l IH]; intros bm Hget Hall; simpl; [assumption|].
  apply IH; [|intros m' Hm'; apply Hall; now right].
  unfold best_step.
  destruct (str_eqb (candidate m) c) eqn:E.
  - apply str_eqb_eq in E. rewrite E, Hget.
    destruct (Qlt_bool (confidence m0) (confidence m)) eqn:El; [|assumption].
    apply Qlt_bool_true in El. exfalso. apply (Hall m); [now left | assumption | assumption].
  - destruct (map_get (candidate m) bm) as [existing|];
      [destruct (Qlt_bool _ _)|]; auto; now rewrite map_get_map_set, E.
Qed.

Lemma map_get_fold_first (c : jsstring) (m0 : CompanyMatch) (l : list CompanyMatch) :
  forall bm,
    map_get c bm = None ->
    (exists m, In m l /\ candidate m = c) ->
    (forall m, In m l -> candidate m = c -> m = m0) ->
    map_get c (fold_left best_step l bm) = Some m0.
Proof.
  induction l as [|m l IH]; intros bm Hget [w [Hw Hc]] Hall; [destruct Hw|]. simpl.
  destruct (str_eqb (candidate m) c) eqn:E.
  - apply str_eqb_eq in E.
    assert (m = m0) by (apply Hall; [now left | assumption]). subst m.
    apply map_get_fold_stable.
    + unfold best_step. rewrite E, Hget, map_get_map_set. now rewrite str_eqb_refl.
    + intros m Hm Hcm. rewrite (Hall m); [apply Qlt_irrefl | now right | assumption].
  - apply IH.
    + unfold best_step.
      destruct (map_get (candidate m) bm) as [existing|];
        [destruct (Qlt_bool _ _)|]; auto; now rewrite map_get_map_set, E.
    + destruct Hw as [->|Hw]; [|now exists w].
      apply str_eqb_neq in E. contradiction.
    + intros m' Hm'. apply Hall. now right.
Qed.

End MapFacts.

(** ** Confidence values *)

Module ConfidenceFacts.

Import Normalizer Matcher.

Lemma toFixed3_thousandths (x : Q) : exists k : Z, toFixed3 x = (k # 1000)%Q.
Proof.
  unfold toFixed3. destruct (Qle_bool 0 x).
  - eexists; reflexivity.
  - exists (- Qfloor (- x * 1000 + (1 # 2)))%Z. reflexivity.
Qed.

Lemma toFixed3_le_1 (x : Q) : (x <= 1)%Q -> (toFixed3 x <= 1)%Q.
Proof.
  intros Hx. unfold toFixed3. destruct (Qle_bool 0 x) eqn:E.
  - assert (H : (Qfloor (x * 1000 + (1 # 2)) <= Qfloor (2001 # 2))%Z).
    { apply Qfloor_resp_le.
      apply Qle_trans with (1 * 1000 + (1 # 2))%Q; [|unfold Qle; simpl; lia].
      apply Qplus_le_compat; [|apply Qle_refl].
      apply Qmult_le_compat_r; [assumption | unfold Qle; simpl; lia]. }
    change (Qfloor (2001 # 2)) with 1000%Z in H.
    unfold Qle; cbn [Qnum Qden]. lia.
  - assert (H : (Qfloor 0 <= Qfloor (- x * 1000 + (1 # 2)))%Z).
    { apply Qfloor_resp_le.
      assert (Hneg : (x < 0)%Q).
      { apply Qnot_le_lt. intros H. apply Qle_bool_iff in H. congruence. }
      apply Qle_trans with (0 * 1000 + (1 # 2))%Q; [unfold Qle; simpl; lia|].
      apply Qplus_le_compat; [|apply Qle_refl].
      apply Qmult_le_compat_r; [|unfold Qle; simpl; lia].
      apply Qopp_le_compat in Hx. apply Qlt_le_weak in Hneg.
      apply Qopp_le_compat in Hneg. exact Hneg. }
    change (Qfloor 0) with 0%Z in H.
    set (k := Qfloor _) in *.
    unfold Qle, Qopp; cbn [Qnum Qden]. lia.
Qed.

(** Rounding to the nearest integer does not pass an integer bound. *)
Lemma round_half_even_le (n d bound : Z) :
  (0 < d)%Z -> (n <= bound * d)%Z -> (round_half_even n d <= bound)%Z.
Proof.
  intros Hd Hn. unfold round_half_even.
  pose proof (Z.div_mod n d ltac:(lia)) as Hdm.
  pose proof (Z.mod_pos_bound n d Hd) as Hm.
  assert (Hfl : (n / d <= bound)%Z) by (apply Z.div_le_upper_bound; lia).
  destruct (Z.eq_dec (n / d) bound) as [E|E].
  - assert (Hr : (n mod d = 0)%Z) by nia.
    destruct (Z.compare_spec (2 * (n mod d)) d); lia.
  - destruct (Z.compare_spec (2 * (n mod d)) d); [destruct (Z.even (n / d))|..]; lia.
Qed.

Lemma round_half_even_nonneg (n d : Z) :
  (0 < d)%Z -> (0 <= n)%Z -> (0 <= round_half_even n d)%Z.
Proof.
  intros Hd Hn. unfold round_half_even.
  assert (Hfl : (0 <= n / d)%Z) by (apply Z.div_pos; lia).
  destruct (Z.compare_spec (2 * (n mod d)) d); [destruct (Z.even (n / d))|..]; lia.
Qed.

Lemma scaled_positive (n d e : Z) :
  (0 < n)%Z -> (0 < d)%Z -> (0 <= fst (scaled n d e))%Z /\ (0 < snd (scaled n d e))%Z.
Proof.
  intros Hn Hd. unfold scaled. destruct (Z.ltb_spec e 0); cbn [fst snd].
  - split; [|assumption]. apply Z.mul_nonneg_nonneg; [lia|]. apply Z.pow_nonneg. lia.
  - split; [lia|]. apply Z.mul_pos_pos; [assumption|]. apply Z.pow_pos_nonneg; lia.
Qed.

Lemma double_of_quotient_nonneg (n d : Z) :
  (0 < n)%Z -> (0 < d)%Z -> (0 <= double_of_quotient n d)%Q.
Proof.
  intros Hn Hd. unfold double_of_quotient.
  destruct (scaled n d (Z.log2 n - Z.log2 d - 52)) as [N0 D0].
  set (e := if (N0 <? 2 ^ 52 * D0)%Z then _ else _). clearbody e.
  pose proof (@scaled_positive n d e Hn Hd) as [HN HD].
  destruct (scaled n d e) as [N D]. cbn [fst snd] in HN, HD.
  pose proof (@round_half_even_nonneg N D HD HN) as Hm.
  destruct (e <? 0)%Z.
  - unfold Qle. cbn [Qnum Qden]. lia.
  - unfold Qle, inject_Z. cbn [Qnum Qden].
    assert (0 <= 2 ^ e)%Z by (apply Z.pow_nonneg; lia). nia.
Qed.

Lemma double_of_quotient_le_1 (n d : Z) :
  (0 < n)%Z -> (n <= d)%Z -> (double_of_quotient n d <= 1)%Q.
Proof.
  intros Hn Hd. unfold double_of_quotient.
  assert (Hk : (Z.log2 n - Z.log2 d <= 0)%Z).
  { pose proof (Z.log2_le_mono n d Hd). lia. }
  destruct (scaled n d (Z.log2 n - Z.log2 d - 52)) as [N0 D0].
  set (e := if (N0 <? 2 ^ 52 * D0)%Z then _ else _).
  assert (He : (e < 0)%Z) by (subst e; destruct (N0 <? 2 ^ 52 * D0)%Z; lia).
  clearbody e. unfold scaled.
  destruct (Z.ltb_spec e 0) as [_|Hge]; [|lia].
  assert (Hp : (0 < 2 ^ (- e))%Z) by (apply Z.pow_pos_nonneg; lia).
  assert (Hm : (round_half_even (n * 2 ^ (- e)) d <= 2 ^ (- e))%Z).
  { apply round_half_even_le; [lia|]. rewrite Z.mul_comm. apply Z.mul_le_mono_nonneg_l; lia. }
  unfold Qle. cbn [Qnum Qden]. rewrite Z2Pos.id by assumption. lia.
Qed.

Lemma to_double_le_1 (x : Q) : (x <= 1)%Q -> (to_double x <= 1)%Q.
Proof.
  intros Hx. unfold to_double. destruct x as [n d]. cbn [Qnum Qden].
  unfold Qle in Hx. cbn [Qnum Qden] in Hx.
  destruct n as [|p|p].
  - unfold Qle. simpl. lia.
  - apply double_of_quotient_le_1; lia.
  - pose proof (@double_of_quotient_nonneg (- Z.neg p) (Z.pos d)
                  ltac:(lia) ltac:(lia)) as H.
    apply Qopp_le_compat in H.
    eapply Qle_trans; [exact H|]. unfold Qle. simpl. lia.
Qed.

Lemma round3_thousandths (x : Q) : exists k : Z, round3 x = (k # 1000)%Q.
Proof. apply toFixed3_thousandths. Qed.

Lemma round3_le_1 (x : Q) : (x <= 1)%Q -> (round3 x <= 1)%Q.
Proof. intros Hx. apply toFixed3_le_1. now apply to_double_le_1. Qed.

(** The decimals are those of the double: 71/80 and 3/80 lie just below the
    middle between two thousandths once stored, 1/8 lies on it. *)
Lemma round3_reads_the_double :
  round3 (71 # 80) = (887 # 1000)%Q /\ round3 (3 # 80) = (37 # 1000)%Q /\
  round3 (1 # 8) = (125 # 1000)%Q /\ round3 (15 # 10000) = (2 # 1000)%Q /\
  round3 1 = (1000 # 1000)%Q /\ round3 0 = (0 # 1000)%Q.
Proof. repeat split; vm_compute; reflexivity. Qed.

(** The partial layer on normalized forms of 71 and 80 characters. *)
Lemma partial_confidence_reads_the_double :
  map confidence
      (findPartialMatches (repeat "a"%char 71) [repeat "a"%char 80] Examples.balanced_config)
  = [(887 # 1000)%Q].
Proof. vm_compute. reflexivity. Qed.

Lemma ratio_le_1 (a b : nat) : a <= b -> 0 < b -> (ratio a b <= 1)%Q.
Proof.
  intros Hab Hb. unfold ratio, Qle. cbn [Qnum Qden].
  rewrite <- (positive_nat_Z (Pos.of_nat b)), Nat2Pos.id by lia. lia.
Qed.

Lemma calculateSimilarity_le_1 (a b : jsstring) : (calculateSimilarity a b <= 1)%Q.
Proof.
  unfold calculateSimilarity.
  destruct (Nat.eqb_spec (Nat.max (length a) (length b)) 0) as [E|E];
    [apply Qle_refl|].
  set (n := Nat.max (length a) (length b)) in *.
  unfold Qle. cbn [Qnum Qden].
  rewrite <- (positive_nat_Z (Pos.of_nat n)), Nat2Pos.id by assumption. lia.
Qed.

Lemma calculateTokenOverlap_le_1 (n1 n2 : jsstring) : (calculateTokenOverlap n1 n2 <= 1)%Q.
Proof.
  unfold calculateTokenOverlap.
  destruct (Nat.ltb_spec 0
              (length (set_of (set_of (extractTokens n1) ++ set_of (extractTokens n2)))))
    as [H|H]; [|unfold Qle; simpl; lia].
  apply ratio_le_1; [|assumption].
  apply NoDup_incl_length; [apply set_of_NoDup|].
  intros x Hx. rewrite set_of_In, filter_In in Hx.
  rewrite set_of_In, in_app_iff. left. apply Hx.
Qed.

Lemma partial_lengths (no nc : jsstring) :
  let shorter := if Nat.leb (length no) (length nc) then no else nc in
  let longer := if str_eqb shorter no then nc else no in
  length shorter <= length longer.
Proof.
  cbv zeta. destruct (Nat.leb_spec (length no) (length nc)) as [H|H].
  - now rewrite str_eqb_refl.
  - destruct (str_eqb nc no) eqn:E; [|lia].
    apply str_eqb_eq in E. subst. lia.
Qed.

(** What every pooled match looks like. *)
Lemma combined_matches_shape (q : jsstring) (cs : list jsstring)
    (cfg : DeduplicationConfig) (m : CompanyMatch) :
  In m (combined_matches q cs cfg) ->
  original m = q /\ In (candidate m) cs /\ candidate m <> q /\
  (exists k : Z, confidence m = (k # 1000)%Q) /\ (confidence m <= 1)%Q.
Proof.
  unfold combined_matches. rewrite !in_app_iff.
  unfold findExactMatches, findHighSimilarityMatches, findTokenMatches, findPartialMatches.
  rewrite !In_push_loop.
  intros [H|[H|[H|H]]]; destruct H as [c [Hc Hb]];
    destruct (str_eqb c q) eqn:Ecq; try discriminate;
    apply str_eqb_neq in Ecq;
    pose proof (partial_lengths (normalizeCompanyName q cfg) (normalizeCompanyName c cfg))
      as Hlen; cbv zeta in Hlen;
    repeat match type of Hb with
           | context [if ?b then _ else _] => destruct b eqn:?; try discriminate
           end;
    inversion Hb; subst m; cbn [original candidate confidence];
    (repeat split; [assumption | assumption | apply round3_thousandths |]);
    apply round3_le_1;
    try apply Qle_refl;
    try apply calculateSimilarity_le_1;
    try apply calculateTokenOverlap_le_1;
    (apply ratio_le_1; [exact Hlen|]);
    match goal with
    | H : Nat.eqb _ 0 = false |- _ => apply Nat.eqb_neq in H; lia
    end.
Qed.

End ConfidenceFacts.

(** ** Order of occurrence, sorting and slicing *)

Module OrderFacts.

Import Matcher.

Lemma before_In (A : Type) (l : list A) (x y : A) :
  before l x y -> In x l /\ In y l.
Proof.
  induction 1 as [x y l H | z x y l H IH]; simpl; tauto.
Qed.


Lemma In_firstn_In (A : Type) (n : nat) (l : list A) (x : A) :
  In x (firstn n l) -> In x l.
Proof.
  intros H. rewrite <- (firstn_skipn n l). apply in_or_app. now left.
Qed.




Lemma slice0_firstn (A : Type) (l : list A) (e : Z) : exists n, slice0 l e = firstn n l.
Proof. unfold slice0. destruct (e <? 0)%Z; eexists; reflexivity. Qed.

Lemma length_slice0 (A : Type) (l : list A) (e : Z) :
  (0 < e)%Z -> (Z.of_nat (length (slice0 l e)) <= e)%Z.
Proof.
  intros He. unfold slice0.
  destruct (Z.ltb_spec e 0); [lia|]. rewrite length_firstn. lia.
Qed.

Lemma slice0_all (A : Type) (l : list A) (e : Z) :
  (Z.of_nat (length l) <= e)%Z -> slice0 l e = l.
Proof.
  intros He. unfold slice0.
  destruct (Z.ltb_spec e 0); [lia|]. apply firstn_all2. lia.
Qed.

Section SortFacts.

Variable A : Type.
Variable cmp : A -> A -> Q.


Lemma sort_insert_perm (x : A) (l : list A) : Permutation (x :: l) (sort_insert cmp x l).
Proof.
  induction l as [|z l IH]; simpl; [apply Permutation_refl|].
  destruct (Qle_bool (cmp x z) 0); [apply Permutation_refl|].
  eapply Permutation_trans; [apply perm_swap|]. now apply perm_skip.
Qed.

Lemma js_sort_perm (l : list A) : Permutation l (js_sort cmp l).
Proof.
  induction l as [|x l IH]; simpl; [constructor|].
  eapply Permutation_trans; [apply perm_skip, IH | apply sort_insert_perm].
Qed.



End SortFacts.




(** Distinct keys stay distinct in a filtered list and in a prefix. *)
Lemma NoDup_map_filter (X Y : Type) (key : X -> Y) (keep : X -> bool) (xs : list X)
    (Hnd : NoDup (map key xs)) :
  NoDup (map key (filter keep xs)).
Proof.
  induction xs as [|x xs IH]; simpl in *; [exact Hnd|].
  inversion Hnd as [|? ? Hni Hnd']; subst.
  destruct (keep x); simpl; [|auto].
  constructor; [|auto].
  intros Hin. apply Hni. apply in_map_iff in Hin. destruct Hin as [y [Hy Hin]].
  apply filter_In in Hin. rewrite <- Hy. apply in_map. apply Hin.
Qed.

Lemma NoDup_map_firstn (X Y : Type) (key : X -> Y) (n : nat) :
  forall xs : list X, NoDup (map key xs) -> NoDup (map key (firstn n xs)).
Proof.
  induction n as [|n IH]; intros [|x xs] Hnd; simpl; try constructor.
  - inversion Hnd as [|? ? Hni Hnd']; subst.
    intros Hin. apply Hni. apply in_map_iff in Hin. destruct Hin as [y [Hy Hin]].
    apply In_firstn_In in Hin. rewrite <- Hy. now apply in_map.
  - inversion Hnd; subst. now apply IH.
Qed.

End OrderFacts.

(** ** findAllMatches *)

Section FindAllMatchesFacts.

Import Normalizer Matcher MapFacts ConfidenceFacts OrderFacts.

Lemma findAllMatches_sub (q : jsstring) (cs : list jsstring) (cfg : DeduplicationConfig)
    (m : CompanyMatch) :
  In m (findAllMatches q cs cfg) ->
  In m (map_values (best_map (combined_matches q cs cfg))) /\
  (minConfidenceScore cfg <= confidence m)%Q.
Proof.
  unfold findAllMatches. intros H.
  destruct (slice0_firstn
              (js_sort by_confidence_desc
                 (filter (fun m => Qle_bool (minConfidenceScore cfg) (confidence m))
                         (map_values (best_map (combined_matches q cs cfg)))))
              (maxResultsPerCompany cfg)) as [n En].
  rewrite En in H. apply In_firstn_In in H.
  eapply Permutation_in in H; [|apply Permutation_sym, js_sort_perm].
  apply filter_In in H. destruct H as [H1 H2].
  split; [assumption | now apply Qle_bool_iff].
Qed.

Lemma findAllMatches_NoDup (q : jsstring) (cs : list jsstring) (cfg : DeduplicationConfig) :
  NoDup (map candidate (findAllMatches q cs cfg)).
Proof.
  unfold findAllMatches.
  destruct (slice0_firstn
              (js_sort by_confidence_desc
                 (filter (fun m => Qle_bool (minConfidenceScore cfg) (confidence m))
                         (map_values (best_map (combined_matches q cs cfg)))))
              (maxResultsPerCompany cfg)) as [n En].
  rewrite En. apply NoDup_map_firstn.
  eapply Permutation_NoDup; [apply Permutation_map, js_sort_perm|].
  apply NoDup_map_filter. rewrite candidates_best_map. apply set_of_NoDup.
Qed.

(** C10.  With a valid configuration every returned match has a confidence
    between 0 and 1 that is a multiple of 1/1000 and at least
    [minConfidenceScore], its candidate differs from the query, the
    candidates are pairwise distinct, and at most [maxResultsPerCompany]
    matches are returned. *)
Theorem findAllMatches_output_invariant (q : jsstring) (cs : list jsstring)
    (cfg : DeduplicationConfig) :
  Config.validateConfig cfg = [] ->
  let r := findAllMatches q cs cfg in
  (forall m, In m r ->
     (0 <= confidence m <= 1)%Q /\
     (exists k : Z, confidence m = (k # 1000)%Q) /\
     (minConfidenceScore cfg <= confidence m)%Q /\
     candidate m <> q) /\
  NoDup (map candidate r) /\
  (Z.of_nat (length r) <= maxResultsPerCompany cfg)%Z.
Proof.
  intros Hvalid r. subst r.
  apply valid_config_bounds in Hvalid. destruct Hvalid as [[Hmin0 Hmin1] Hmax].
  split; [|split].
  - intros m Hm. apply findAllMatches_sub in Hm. destruct Hm as [Hv Hge].
    apply values_best_map, combined_matches_shape in Hv.
    destruct Hv as [_ [_ [Hne [Hk Hle]]]].
    repeat split; try assumption. lra.
  - apply findAllMatches_NoDup.
  - unfold findAllMatches. now apply length_slice0.
Qed.

Lemma findAllMatches_output_invariant_witness :
  Config.validateConfig Examples.balanced_config = [] /\
  ((forall m,
      In m (findAllMatches Examples.ubisoft_montreal
              [Examples.montreal_ubisoft; Examples.ubisoft_montreal_inc]
              Examples.balanced_config) ->
      (0 <= confidence m <= 1)%Q /\
      (exists k : Z, confidence m = (k # 1000)%Q) /\
      (minConfidenceScore Examples.balanced_config <= confidence m)%Q /\
      candidate m <> Examples.ubisoft_montreal) /\
   NoDup (map candidate
            (findAllMatches Examples.ubisoft_montreal
               [Examples.montreal_ubisoft; Examples.ubisoft_montreal_inc]
               Examples.balanced_config)) /\
   (Z.of_nat (length (findAllMatches Examples.ubisoft_montreal
                        [Examples.montreal_ubisoft; Examples.ubisoft_montreal_inc]
                        Examples.balanced_config))
    <= maxResultsPerCompany Examples.balanced_config)%Z).
Proof.
  split; [reflexivity|].
  apply (findAllMatches_output_invariant
           Examples.ubisoft_montreal
           [Examples.montreal_ubisoft; Examples.ubisoft_montreal_inc]
           Examples.balanced_config).
  reflexivity.
Defined.




(** C5.  A candidate that differs from the query as a raw string and has
    the same normalized form is reported with confidence 1.0 and method
    [exact_after_normalization], and no other match for that candidate is
    returned, provided [minConfidenceScore] is at most 1 and
    [maxResultsPerCompany] is at least the size of the candidate pool. *)
Theorem exact_match_is_reported (q c : jsstring) (cs : list jsstring)
    (cfg : DeduplicationConfig) :
  In c cs -> c <> q ->
  normalizeCompanyName c cfg = normalizeCompanyName q cfg ->
  (minConfidenceScore cfg <= 1)%Q ->
  (Z.of_nat (length cs) <= maxResultsPerCompany cfg)%Z ->
  let r := findAllMatches q cs cfg in
  (exists m, In m r /\ candidate m = c) /\
  (forall m, In m r -> candidate m = c ->
     (confidence m == 1)%Q /\ method m = exact_after_normalization).
Proof.
  intros Hc Hne Hnorm Hmin Hmax r. subst r.
  set (m0 := {| original := q; candidate := c; confidence := 1.000%Q;
                method := exact_after_normalization;
                normalizedOriginal := normalizeCompanyName q cfg;
                normalizedCandidate := normalizeCompanyName c cfg |}).
  assert (Hexact : forall m, In m (findExactMatches q cs cfg) -> candidate m = c -> m = m0).
  { intros m Hm Hcm. unfold findExactMatches in Hm. rewrite In_push_loop in Hm.
    destruct Hm as [c' [_ Hb]].
    destruct (str_eqb c' q); [discriminate|].
    destruct (str_eqb _ _); [|discriminate].
    inversion Hb; subst m. simpl in Hcm. subst c'. reflexivity. }
  assert (Hin0 : In m0 (findExactMatches q cs cfg)).
  { unfold findExactMatches. rewrite In_push_loop. exists c. split; [assumption|].
    apply str_eqb_neq in Hne. rewrite Hne.
    apply str_eqb_eq in Hnorm. rewrite Hnorm. reflexivity. }
  assert (Hget : map_get c (best_map (combined_matches q cs cfg)) = Some m0).
  { unfold best_map, combined_matches. rewrite fold_left_app.
    apply map_get_fold_stable.
    - apply map_get_fold_first; [reflexivity | exists m0; auto | assumption].
    - intros m Hm _.
      assert (Hle : (confidence m <= 1)%Q).
      { apply (combined_matches_shape q cs cfg). unfold combined_matches.
        apply in_or_app. now right. }
      change (confidence m0) with 1.000%Q. intros Hlt.
      assert (H1 : (1.000 == 1)%Q) by reflexivity. lra. }
  assert (Hkeys : NoDup (map fst (best_map (combined_matches q cs cfg)))).
  { rewrite keys_best_map. apply set_of_NoDup. }
  split.
  - exists m0. split; [|reflexivity].
    unfold findAllMatches. rewrite slice0_all.
    + eapply Permutation_in; [apply js_sort_perm|].
      apply filter_In. split.
      * apply map_get_In in Hget. unfold map_values.
        change m0 with (snd (c, m0)). now apply in_map.
      * apply Qle_bool_iff. change (confidence m0) with 1.000%Q.
        assert (H1 : (1.000 == 1)%Q) by reflexivity. lra.
    + rewrite <- (Permutation_length (js_sort_perm by_confidence_desc _)).
      eapply Z.le_trans; [|exact Hmax]. apply Nat2Z.inj_le.
      eapply Nat.le_trans; [apply filter_length_le|].
      unfold map_values. rewrite length_map, <- (length_map fst).
      apply NoDup_incl_length; [assumption|].
      intros k Hk. rewrite keys_best_map, set_of_In in Hk.
      apply in_map_iff in Hk. destruct Hk as [m [<- Hm]].
      now apply (combined_matches_shape q cs cfg).
  - intros m Hm Hcm. apply findAllMatches_sub in Hm. destruct Hm as [Hv _].
    unfold map_values in Hv. apply in_map_iff in Hv.
    destruct Hv as [[k v] [Ev Hkv]]. simpl in Ev; subst v.
    pose proof (entries_best_map _ _ _ Hkv) as [Hk _].
    apply In_map_get in Hkv; [|assumption].
    rewrite Hk, Hcm, Hget in Hkv. inversion Hkv; subst m.
    split; reflexivity.
Qed.

Lemma exact_match_is_reported_witness :
  (In Examples.ubisoft_montreal_inc
      [Examples.montreal_ubisoft; Examples.ubisoft_montreal_inc] /\
   Examples.ubisoft_montreal_inc <> Examples.ubisoft_montreal /\
   normalizeCompanyName Examples.ubisoft_montreal_inc Examples.balanced_config
     = normalizeCompanyName Examples.ubisoft_montreal Examples.balanced_config /\
   (minConfidenceScore Examples.balanced_config <= 1)%Q /\
   (Z.of_nat (length [Examples.montreal_ubisoft; Examples.ubisoft_montreal_inc])
    <= maxResultsPerCompany Examples.balanced_config)%Z) /\
  ((exists m,
      In m (findAllMatches Examples.ubisoft_montreal
              [Examples.montreal_ubisoft; Examples.ubisoft_montreal_inc]
              Examples.balanced_config) /\
      candidate m = Examples.ubisoft_montreal_inc) /\
   (forall m,
      In m (findAllMatches Examples.ubisoft_montreal
              [Examples.montreal_ubisoft; Examples.ubisoft_montreal_inc]
              Examples.balanced_config) ->
      candidate m = Examples.ubisoft_montreal_inc ->
      (confidence m == 1)%Q /\ method m = exact_after_normalization)).
Proof.
  assert (H1 : In Examples.ubisoft_montreal_inc
                  [Examples.montreal_ubisoft; Examples.ubisoft_montreal_inc])
    by (right; left; reflexivity).
  assert (H2 : Examples.ubisoft_montreal_inc <> Examples.ubisoft_montreal)
    by discriminate.
  assert (H3 : normalizeCompanyName Examples.ubisoft_montreal_inc Examples.balanced_config
               = normalizeCompanyName Examples.ubisoft_montreal Examples.balanced_config)
    by reflexivity.
  assert (H4 : (minConfidenceScore Examples.balanced_config <= 1)%Q)
    by (vm_compute; discriminate).
  assert (H5 : (Z.of_nat (length [Examples.montreal_ubisoft; Examples.ubisoft_montreal_inc])
                <= maxResultsPerCompany Examples.balanced_config)%Z)
    by (vm_compute; discriminate).
  split; [repeat split; assumption|].
  exact (@exact_match_is_reported _ _ _ _ H1 H2 H3 H4 H5).
Defined.

End FindAllMatchesFacts.

(** ** The clustering loop *)

Section ClusterFacts.

Import Matcher Deduplicator OrderFacts.

Lemma before_app_last (A : Type) (l : list A) (z x y : A) :
  before (l ++ [z]) x y -> before l x y \/ (y = z /\ In x l).
Proof.
  induction l as [|w l IH]; simpl; intros H.
  - inversion H; subst; [contradiction|].
    match goal with H' : before [] _ _ |- _ => inversion H' end.
  - inversion H as [? ? ? Hin | ? ? ? ? Hb]; subst.
    + apply in_app_or in Hin. destruct Hin as [Hin|[->|[]]].
      * left. now apply before_here.
      * right. auto.
    + destruct (IH Hb) as [H1|[-> H2]].
      * left. now apply before_later.
      * right. auto.
Qed.

Lemma In_set_add (processed : list jsstring) (x y : jsstring) :
  In y (set_add processed x) <-> In y processed \/ y = x.
Proof.
  unfold set_add. destruct (str_mem x processed) eqn:E.
  - apply str_mem_In in E. split; [auto|]. intros [H| ->]; assumption.
  - rewrite in_app_iff. simpl. intuition.
Qed.

Lemma In_mark_candidates (matches : list CompanyMatch) (processed : list jsstring)
    (y : jsstring) :
  In y (fold_left (fun p m => set_add p (candidate m)) matches processed) <->
  In y processed \/ In y (map candidate matches).
Proof.
  revert processed; induction matches as [|m ms IH]; intros processed; simpl; [tauto|].
  rewrite IH, In_set_add. intuition.
Qed.

Lemma dedup_step_invariant (U : list jsstring) (cfg : DeduplicationConfig)
    (visited : list jsstring) (state : list jsstring * list DuplicateGroup)
    (company : jsstring) :
  ~ In company visited ->
  cluster_invariant U cfg visited state ->
  cluster_invariant U cfg (visited ++ [company]) (dedup_step U cfg state company).
Proof.
  destruct state as [processed groups].
  intros Hnew (Hvis & Hnd & Hdup & Hproc & Hord).
  assert (Hsame : cluster_invariant U cfg (visited ++ [company]) (processed, groups)).
  { repeat split; try assumption; try (now apply Hproc).
    intros g Hg. apply in_or_app. left. now apply Hvis. }
  unfold dedup_step.
  destruct (str_mem company processed) eqn:Eproc; [exact Hsame|].
  destruct (Nat.ltb 0 (length (findAllMatches company U cfg))); [|exact Hsame].
  apply str_mem_not_In in Eproc.
  set (g0 := {| group_original := company;
                duplicates := findAllMatches company U cfg;
                totalMatches := length (findAllMatches company U cfg) |}).
  unfold cluster_invariant. repeat split.
  - intros g Hg. apply in_app_or in Hg. apply in_or_app.
    destruct Hg as [Hg|[<-|[]]]; [left; now apply Hvis | right; now left].
  - rewrite map_app. simpl. apply NoDup_app; [assumption | repeat constructor; intros [] |].
    intros x Hx [<-|[]]. apply Hnew.
    apply in_map_iff in Hx. destruct Hx as [g [<- Hg]]. now apply Hvis.
  - intros g Hg. apply in_app_or in Hg.
    destruct Hg as [Hg|[<-|[]]]; [now apply Hdup | reflexivity].
  - apply In_mark_candidates. left. apply In_set_add.
    apply in_app_or in H. destruct H as [Hg|[<-|[]]]; [|now right].
    left. now apply Hproc.
  - intros c Hc. apply In_mark_candidates.
    apply in_app_or in H. destruct H as [Hg|[<-|[]]]; [|now right].
    left. apply In_set_add. left. now apply (Hproc g).
  - intros g1 g2 Hb Hin. apply before_app_last in Hb.
    destruct Hb as [Hb|[-> Hg1]]; [now apply (Hord g1 g2)|].
    apply Eproc. now apply (Hproc g1).
Qed.

Lemma dedup_loop_invariant (U : list jsstring) (cfg : DeduplicationConfig)
    (rest : list jsstring) :
  forall visited state,
    NoDup (visited ++ rest) ->
    cluster_invariant U cfg visited state ->
    cluster_invariant U cfg (visited ++ rest) (fold_left (dedup_step U cfg) rest state).
Proof.
  induction rest as [|x rest IH]; intros visited state Hnd Hinv; simpl.
  - now rewrite app_nil_r.
  - replace (visited ++ x :: rest) with ((visited ++ [x]) ++ rest)
      by (now rewrite <- app_assoc).
    apply IH; [now rewrite <- app_assoc|].
    apply dedup_step_invariant; [|assumption].
    apply NoDup_remove_2 in Hnd. intros H. apply Hnd. apply in_or_app. now left.
Qed.

(** C2 (as amended).  In the result of [findDuplicates] no name is the
    representative of two groups, no name occurs twice among the
    match-targets of one group, and the representative of a group is not a
    match-target of an earlier group.  (A name may be a match-target of
    several groups.) *)
Theorem findDuplicates_groups (self : CompanyDeduplicator) (companies : list jsstring) :
  let groups := duplicateGroups (findDuplicates self companies) in
  NoDup (map group_original groups) /\
  (forall g, In g groups -> NoDup (map candidate (duplicates g))) /\
  (forall g1 g2, before groups g1 g2 ->
     ~ In (group_original g2) (map candidate (duplicates g1))).
Proof.
  unfold findDuplicates.
  set (U := set_of (filter Normalizer.nonempty (map trim companies))).
  pose proof (dedup_loop_invariant U (config self) U [] ([], [])) as H.
  simpl app in H.
  destruct (fold_left (dedup_step U (config self)) U ([], [])) as [processed groups].
  simpl.
  destruct H as (_ & Hnd & Hdup & _ & Hord).
  - apply set_of_NoDup.
  - unfold cluster_invariant. split; [intros g []|].
    split; [constructor|]. split; [intros g []|]. split; [intros g []|].
    intros g1 g2 Hb. inversion Hb.
  - repeat split; try assumption.
    intros g Hg. rewrite (Hdup g Hg). apply findAllMatches_NoDup.
Qed.

(** C2 as stated fails for match-targets.  Under the balanced preset
    "abcdefghix" is within one edit of both "abcdefghij" and "abcdefghyx",
    which are two edits apart; both start a group and both groups contain
    "abcdefghix". *)
Lemma name_matched_in_two_groups :
  exists g1 g2,
    duplicateGroups
      (findDuplicates (mkDeduplicator Examples.balanced_config)
         [Examples.chain_first; Examples.chain_middle; Examples.chain_last]) = [g1; g2] /\
    group_original g1 <> group_original g2 /\
    In Examples.chain_middle (map candidate (duplicates g1)) /\
    In Examples.chain_middle (map candidate (duplicates g2)).
Proof.
  eexists. eexists. split; [vm_compute; reflexivity|].
  split; [discriminate|]. split; left; reflexivity.
Qed.

End ClusterFacts.

(** ** Normalization *)

Module NormalizerFacts.

Import Normalizer NormalForm.

(** Facts about single code units, by inspection of all 256 of them. *)
Ltac all_chars :=
  let c := fresh "c" in
  intros c; destruct c as [[] [] [] [] [] [] [] []]; vm_compute;
  try reflexivity; try (intros; discriminate); try (intros; reflexivity).

Lemma lower_char_not_upper : forall c, in_range 65 90 (lower_char c) = false.
Proof. all_chars. Qed.

Lemma base_letter_lower_not_upper :
  forall c, in_range 65 90 (base_letter (lower_char c)) = false.
Proof. all_chars. Qed.

Lemma word_not_space : forall c, is_word c = true -> is_space c = false.
Proof. all_chars. Qed.

Lemma word_lower_fixed :
  forall c, is_word c = true -> in_range 65 90 c = false -> lower_char c = c.
Proof. all_chars. Qed.

Lemma word_base_letter_fixed : forall c, is_word c = true -> base_letter c = c.
Proof. all_chars. Qed.

Lemma space_is_space : is_space space = true.
Proof. reflexivity. Qed.

Lemma plain_char_spec (num : bool) (c : ascii) :
  plain_char num c = true <->
  is_word c = true /\ in_range 65 90 c = false /\ (num = true -> is_digit c = false).
Proof.
  unfold plain_char. rewrite !andb_true_iff, !negb_true_iff.
  destruct num, (is_digit c); simpl; intuition discriminate.
Qed.

Lemma plain_not_space (num : bool) (c : ascii) :
  plain_char num c = true -> is_space c = false.
Proof. intros H. apply word_not_space. now apply plain_char_spec in H. Qed.

Lemma plain_neq_space (num : bool) (c : ascii) :
  plain_char num c = true -> ascii_eqb c space = false.
Proof.
  intros H. destruct (ascii_eqb c space) eqn:E; [|reflexivity].
  apply Ascii.eqb_eq in E. subst. apply plain_not_space in H. discriminate.
Qed.

(** *** What [trim] and the white-space collapse produce *)

Lemma trimStart_Forall (P : ascii -> Prop) (s : jsstring) :
  Forall P s -> Forall P (trimStart s).
Proof.
  induction 1 as [|c t Hc Ht IH]; simpl; [constructor|].
  destruct (is_space c); [assumption | now constructor].
Qed.

Lemma trimEnd_Forall (P : ascii -> Prop) (s : jsstring) :
  Forall P s -> Forall P (trimEnd s).
Proof.
  induction 1 as [|c t Hc Ht IH]; simpl; [constructor|].
  destruct (trimEnd t); [destruct (is_space c); repeat constructor; assumption|].
  now constructor.
Qed.

Lemma trimEnd_head (s : jsstring) (d : ascii) (t' : jsstring) :
  trimEnd s = d :: t' -> exists rest, s = d :: rest.
Proof.
  destruct s as [|c t]; simpl; [discriminate|].
  destruct (trimEnd t); [destruct (is_space c)|]; intros H; inversion H; eauto.
Qed.

Lemma trimStart_starts (s : jsstring) : starts_clean (trimStart s) = true.
Proof.
  induction s as [|c t IH]; simpl; [reflexivity|].
  destruct (is_space c) eqn:E; [assumption|]. simpl. now rewrite E.
Qed.

Lemma trimEnd_starts (s : jsstring) :
  starts_clean s = true -> starts_clean (trimEnd s) = true.
Proof.
  intros H. destruct (trimEnd s) as [|d t'] eqn:E; [reflexivity|].
  apply trimEnd_head in E. destruct E as [rest ->]. exact H.
Qed.

Lemma trimEnd_ends (s : jsstring) : ends_clean (trimEnd s) = true.
Proof.
  induction s as [|c t IH]; simpl; [reflexivity|].
  destruct (trimEnd t) as [|d t'].
  - destruct (is_space c) eqn:E; simpl; [reflexivity | now rewrite E].
  - exact IH.
Qed.

Lemma no_double_space_tail (c : ascii) (t : jsstring) :
  no_double_space (c :: t) = true -> no_double_space t = true.
Proof. simpl. intros H. apply andb_true_iff in H. apply H. Qed.

Lemma trimStart_no_double (s : jsstring) :
  no_double_space s = true -> no_double_space (trimStart s) = true.
Proof.
  induction s as [|c t IH]; intros H; [reflexivity|].
  cbn [trimStart]. destruct (is_space c); [|assumption].
  apply IH. eapply no_double_space_tail. eassumption.
Qed.

Lemma trimEnd_no_double (s : jsstring) :
  no_double_space s = true -> no_double_space (trimEnd s) = true.
Proof.
  induction s as [|c t IH]; intros H; [reflexivity|].
  pose proof (no_double_space_tail _ _ H) as Ht.
  cbn [trimEnd]. destruct (trimEnd t) as [|d t'] eqn:E.
  - destruct (is_space c); [reflexivity|]. simpl.
    now rewrite andb_false_r.
  - cbn [no_double_space] in *. rewrite (IH Ht), andb_true_r.
    apply andb_true_iff in H. destruct H as [H _].
    apply trimEnd_head in E. destruct E as [rest ->]. exact H.
Qed.

Lemma collapse_spaces_Forall (P : ascii -> Prop) (u : jsstring) :
  Forall (fun d => is_space d = true \/ P d) u ->
  Forall (fun d => d = space \/ P d) (collapse_spaces u).
Proof.
  induction 1 as [|c t Hc Ht IH]; [constructor|].
  cbn [collapse_spaces]. destruct (is_space c) eqn:E.
  - destruct t as [|c' t']; [repeat constructor; now left|].
    destruct (is_space c'); [assumption|].
    constructor; [now left | assumption].
  - constructor; [|assumption].
    destruct Hc as [Hc|Hc]; [congruence | now right].
Qed.

Lemma collapse_spaces_starts (c : ascii) (t : jsstring) :
  is_space c = false -> starts_clean (collapse_spaces (c :: t)) = true.
Proof. intros E. cbn [collapse_spaces]. rewrite E. simpl. now rewrite E. Qed.

Lemma collapse_spaces_no_double (u : jsstring) :
  no_double_space (collapse_spaces u) = true.
Proof.
  induction u as [|c t IH]; [reflexivity|].
  cbn [collapse_spaces]. destruct (is_space c) eqn:E.
  - destruct t as [|c' t']; [reflexivity|].
    destruct (is_space c') eqn:E'; [assumption|].
    cbn [no_double_space]. rewrite IH, andb_true_r.
    now rewrite (collapse_spaces_starts _ _ E'), andb_false_r.
  - cbn [no_double_space]. now rewrite IH, E.
Qed.

Lemma trim_collapse_clean (num : bool) (u : jsstring) :
  Forall (fun d => is_space d = true \/ plain_char num d = true) u ->
  clean num (trim (collapse_spaces u)).
Proof.
  intros H. unfold clean, trim. repeat split.
  - apply trimEnd_Forall, trimStart_Forall. now apply collapse_spaces_Forall.
  - apply trimEnd_starts, trimStart_starts.
  - apply trimEnd_ends.
  - apply trimEnd_no_double, trimStart_no_double, collapse_spaces_no_double.
Qed.

(** *** The steps before suffix removal leave a clean string alone *)

Lemma clean_space_char (num : bool) (c : ascii) :
  c = space \/ plain_char num c = true -> is_space c = true -> c = space.
Proof.
  intros [->|H] Hs; [reflexivity|]. apply plain_not_space in H. congruence.
Qed.

Lemma trimStart_fixed (s : jsstring) : starts_clean s = true -> trimStart s = s.
Proof.
  destruct s as [|c t]; simpl; [reflexivity|].
  intros H. apply negb_true_iff in H. now rewrite H.
Qed.

Lemma trimEnd_fixed (s : jsstring) : ends_clean s = true -> trimEnd s = s.
Proof.
  induction s as [|c t IH]; [reflexivity|].
  destruct t as [|d t'].
  - simpl. intros H. apply negb_true_iff in H. now rewrite H.
  - intros H. change (ends_clean (c :: d :: t')) with (ends_clean (d :: t')) in H.
    cbn [trimEnd] in *. rewrite (IH H). reflexivity.
Qed.

Lemma clean_trim (num : bool) (r : jsstring) : clean num r -> trim r = r.
Proof.
  intros (_ & Hs & He & _). unfold trim.
  rewrite (trimStart_fixed _ Hs). now apply trimEnd_fixed.
Qed.

Lemma clean_map_fixed (num : bool) (f : ascii -> ascii) (r : jsstring) :
  f space = space ->
  (forall c, plain_char num c = true -> f c = c) ->
  clean num r -> map f r = r.
Proof.
  intros Hsp Hf (Hall & _). induction Hall as [|c t Hc Ht IH]; simpl; [reflexivity|].
  rewrite IH. f_equal. destruct Hc as [->|Hc]; auto.
Qed.

Lemma clean_toLowerCase (num : bool) (r : jsstring) : clean num r -> toLowerCase r = r.
Proof.
  apply clean_map_fixed; [reflexivity|].
  intros c H. apply plain_char_spec in H. now apply word_lower_fixed.
Qed.

Lemma clean_removeAccents (num : bool) (r : jsstring) : clean num r -> removeAccents r = r.
Proof.
  apply clean_map_fixed; [reflexivity|].
  intros c H. apply plain_char_spec in H. now apply word_base_letter_fixed.
Qed.

Lemma clean_replace_special (num : bool) (r : jsstring) :
  clean num r -> replace_special r = r.
Proof.
  apply clean_map_fixed; [reflexivity|].
  intros c H. apply plain_char_spec in H. destruct H as [H _]. now rewrite H.
Qed.

Lemma clean_remove_digits (r : jsstring) : clean true r -> remove_digits r = r.
Proof.
  intros (Hall & _). induction Hall as [|c t Hc Ht IH]; simpl; [reflexivity|].
  assert (E : is_digit c = false).
  { destruct Hc as [->|Hc]; [reflexivity|]. apply plain_char_spec in Hc. now apply Hc. }
  rewrite E. simpl. now rewrite IH.
Qed.

Lemma clean_collapse_spaces (num : bool) (r : jsstring) :
  clean num r -> collapse_spaces r = r.
Proof.
  intros (Hall & _ & _ & Hnd).
  induction Hall as [|c t Hc Ht IH]; [reflexivity|].
  pose proof (no_double_space_tail _ _ Hnd) as Hnd'.
  cbn [collapse_spaces]. destruct (is_space c) eqn:E.
  - rewrite (clean_space_char num Hc E) in *.
    destruct t as [|c' t']; [reflexivity|].
    cbn [no_double_space starts_clean] in Hnd.
    destruct (is_space c'); [discriminate|].
    now rewrite (IH Hnd').
  - now rewrite (IH Hnd').
Qed.

(** Everything [normalizeCompanyName] does before it removes suffixes. *)
Lemma clean_front_steps (cfg : DeduplicationConfig) (r : jsstring) :
  clean (removeNumbers cfg) r ->
  trim (collapse_spaces (replace_special
    (let s := trim (toLowerCase r) in
     let s := if handleAccents cfg then removeAccents s else s in
     if removeNumbers cfg then remove_digits s else s))) = r.
Proof.
  intros H. cbv zeta.
  rewrite (clean_toLowerCase H), (clean_trim H).
  assert (E1 : (if handleAccents cfg then removeAccents r else r) = r).
  { destruct (handleAccents cfg); [now apply (clean_removeAccents H) | reflexivity]. }
  rewrite E1.
  assert (E2 : (if removeNumbers cfg then remove_digits r else r) = r).
  { destruct (removeNumbers cfg); [now apply clean_remove_digits | reflexivity]. }
  rewrite E2, (clean_replace_special H), (clean_collapse_spaces H).
  now apply (clean_trim H).
Qed.

(** *** The first pass produces a clean string *)

Lemma normalizeCompanyName_steps (x : jsstring) (cfg : DeduplicationConfig) :
  normalizeCompanyName x cfg =
  if Types.removeSuffixes cfg then removeSuffixes (front_steps x cfg)
  else front_steps x cfg.
Proof. reflexivity. Qed.

Lemma front_steps_clean (x : jsstring) (cfg : DeduplicationConfig) :
  clean (removeNumbers cfg) (front_steps x cfg).
Proof.
  unfold front_steps. cbv zeta. apply trim_collapse_clean.
  set (s1 := trim (toLowerCase x)).
  assert (H1 : Forall (fun c => in_range 65 90 c = false /\
                                in_range 65 90 (base_letter c) = false) s1).
  { apply trimEnd_Forall, trimStart_Forall. unfold toLowerCase.
    apply Forall_forall. intros c Hc. apply in_map_iff in Hc.
    destruct Hc as [c0 [<- _]].
    split; [apply lower_char_not_upper | apply base_letter_lower_not_upper]. }
  set (s2 := if handleAccents cfg then removeAccents s1 else s1).
  assert (H2 : Forall (fun c => in_range 65 90 c = false) s2).
  { subst s2. destruct (handleAccents cfg).
    - unfold removeAccents. apply Forall_forall. intros c Hc. apply in_map_iff in Hc.
      destruct Hc as [c0 [<- Hc0]]. rewrite Forall_forall in H1. now apply H1.
    - eapply Forall_impl; [|exact H1]. intros c Hc. apply Hc. }
  set (s3 := if removeNumbers cfg then remove_digits s2 else s2).
  assert (H3 : Forall (fun c => in_range 65 90 c = false /\
                                (removeNumbers cfg = true -> is_digit c = false)) s3).
  { subst s3. destruct (removeNumbers cfg).
    - unfold remove_digits. apply Forall_forall. intros c Hc. apply filter_In in Hc.
      destruct Hc as [Hc Hd]. rewrite Forall_forall in H2.
      split; [now apply H2 | intros _; now apply negb_true_iff].
    - eapply Forall_impl; [|exact H2]. intros c Hc. split; [assumption | discriminate]. }
  unfold replace_special. apply Forall_forall. intros d Hd. apply in_map_iff in Hd.
  destruct Hd as [c [<- Hc]]. rewrite Forall_forall in H3. destruct (H3 c Hc) as [Hu Hn].
  destruct (is_word c) eqn:Ew; simpl.
  - right. apply plain_char_spec. auto.
  - destruct (is_space c) eqn:Es; [now left | left; reflexivity].
Qed.

(** *** Words *)

Lemma word_cons (num : bool) (c : ascii) (w : jsstring) :
  plain_char num c = true -> w = [] \/ word num w -> word num (c :: w).
Proof.
  intros Hc Hw. split; [discriminate|].
  constructor; [assumption|]. destruct Hw as [->|[_ Hw]]; [constructor | assumption].
Qed.

Lemma split_space_cons (c : ascii) (t : jsstring) :
  split_space (c :: t) =
  if ascii_eqb c space then [] :: split_space t
  else match split_space t with
       | w :: ws => (c :: w) :: ws
       | [] => [[c]]
       end.
Proof. reflexivity. Qed.

Lemma split_space_clean (num : bool) (r : jsstring) :
  Forall (fun c => c = space \/ plain_char num c = true) r ->
  ends_clean r = true -> no_double_space r = true -> r <> [] ->
  exists w ws, split_space r = w :: ws /\ Forall (word num) ws /\
               (if starts_clean r then word num w else w = []).
Proof.
  induction 1 as [|c t Hc Ht IH]; intros He Hnd Hne; [congruence|].
  destruct t as [|c' t'].
  - simpl in He. apply negb_true_iff in He.
    destruct Hc as [->|Hc]; [discriminate|].
    exists [c], []. cbn [split_space starts_clean].
    rewrite (plain_neq_space _ _ Hc), He.
    repeat split; [constructor | discriminate | repeat constructor; assumption].
  - destruct IH as [w [ws [Es [Hws Hw]]]];
      [exact He | eapply no_double_space_tail; eassumption | discriminate |].
    rewrite split_space_cons, Es.
    destruct (ascii_eqb c space) eqn:Ec.
    + apply Ascii.eqb_eq in Ec. subst c.
      exists [], (w :: ws). cbn [starts_clean]. rewrite space_is_space.
      repeat split. constructor; [|assumption].
      cbn [no_double_space] in Hnd. rewrite space_is_space in Hnd.
      destruct (starts_clean (c' :: t')); [assumption | discriminate].
    + destruct Hc as [->|Hc]; [discriminate|].
      exists (c :: w), ws. cbn [starts_clean]. rewrite (plain_not_space _ _ Hc).
      repeat split; try assumption; try discriminate.
      * constructor; [assumption|].
        destruct (starts_clean (c' :: t')); [apply Hw | subst w; constructor].
Qed.

Lemma clean_split_words (num : bool) (r : jsstring) :
  clean num r -> r <> [] -> Forall (word num) (split_space r).
Proof.
  intros (Hall & Hs & He & Hnd) Hne.
  destruct (@split_space_clean num r Hall He Hnd Hne) as [w [ws [E [Hws Hw]]]].
  rewrite E. rewrite Hs in Hw. now constructor.
Qed.

Lemma split_space_no_space (w : jsstring) :
  Forall (fun c => ascii_eqb c space = false) w -> split_space w = [w].
Proof.
  induction 1 as [|c t Hc Ht IH]; [reflexivity|].
  cbn [split_space]. now rewrite Hc, IH.
Qed.

Lemma split_space_app (w r : jsstring) :
  Forall (fun c => ascii_eqb c space = false) w ->
  split_space (w ++ space :: r) = w :: split_space r.
Proof.
  induction 1 as [|c t Hc Ht IH]; [reflexivity|].
  cbn [app split_space]. now rewrite Hc, IH.
Qed.

Lemma word_no_space (num : bool) (w : jsstring) :
  word num w -> Forall (fun c => ascii_eqb c space = false) w.
Proof.
  intros [_ H]. eapply Forall_impl; [|exact H]. intros c. apply plain_neq_space.
Qed.

Lemma split_space_join (num : bool) (ws : list jsstring) :
  Forall (word num) ws -> ws <> [] -> split_space (join [space] ws) = ws.
Proof.
  induction 1 as [|w ws Hw Hws IH]; intros Hne; [congruence|].
  destruct ws as [|w' ws'].
  - apply split_space_no_space. eapply word_no_space; eassumption.
  - cbn [join app]. rewrite split_space_app by (eapply word_no_space; eassumption).
    f_equal. apply IH. discriminate.
Qed.

Lemma ends_clean_no_space (w : jsstring) :
  Forall (fun c => is_space c = false) w -> ends_clean w = true.
Proof.
  induction 1 as [|c t Hc Ht IH]; [reflexivity|].
  destruct t; [simpl; now rewrite Hc | exact IH].
Qed.

Lemma no_double_no_space (w : jsstring) :
  Forall (fun c => is_space c = false) w -> no_double_space w = true.
Proof.
  induction 1 as [|c t Hc Ht IH]; [reflexivity|].
  cbn [no_double_space]. now rewrite Hc, IH.
Qed.

Lemma ends_clean_app (l r : jsstring) : r <> [] -> ends_clean (l ++ r) = ends_clean r.
Proof.
  intros Hr. induction l as [|c l IH]; [reflexivity|].
  cbn [app]. destruct (l ++ r) eqn:E; [|exact IH].
  destruct l; simpl in E; [congruence | discriminate].
Qed.

Lemma word_plain_space (num : bool) (w : jsstring) :
  word num w -> Forall (fun c => is_space c = false) w.
Proof.
  intros [_ H]. eapply Forall_impl; [|exact H]. intros c. apply plain_not_space.
Qed.

Lemma word_clean (num : bool) (w : jsstring) : word num w -> clean num w.
Proof.
  intros Hw. pose proof (@word_plain_space num w Hw) as Hns. destruct Hw as [Hne Hall].
  repeat split.
  - eapply Forall_impl; [|exact Hall]. intros c Hc. now right.
  - destruct w as [|c t]; [congruence|]. simpl.
    inversion Hns; subst. now apply negb_true_iff.
  - now apply ends_clean_no_space.
  - now apply no_double_no_space.
Qed.

Lemma clean_app_word (num : bool) (w r : jsstring) :
  word num w -> clean num r -> r <> [] -> clean num (w ++ space :: r).
Proof.
  intros Hw (Hall & Hs & He & Hnd) Hr.
  pose proof (@word_plain_space num w Hw) as Hns. destruct Hw as [Hne Hw].
  repeat split.
  - apply Forall_app. split.
    + eapply Forall_impl; [|exact Hw]. intros c Hc. now right.
    + constructor; [now left | assumption].
  - destruct w as [|c t]; [congruence|]. simpl.
    inversion Hns; subst. now apply negb_true_iff.
  - change (w ++ space :: r) with (w ++ [space] ++ r).
    rewrite app_assoc, ends_clean_app; assumption.
  - clear Hne Hw. induction Hns as [|c t Hc Ht IH].
    + cbn [app no_double_space]. now rewrite Hs, Hnd.
    + cbn [app no_double_space]. now rewrite Hc, IH.
Qed.

Lemma join_cons_nonnil (num : bool) (w : jsstring) (ws : list jsstring) :
  word num w -> join [space] (w :: ws) <> [].
Proof.
  intros [Hne _]. destruct ws; cbn [join]; [assumption|].
  destruct w; [congruence | discriminate].
Qed.

Lemma join_words_clean (num : bool) (ws : list jsstring) :
  Forall (word num) ws -> clean num (join [space] ws).
Proof.
  induction 1 as [|w ws Hw Hws IH]; [repeat split; constructor|].
  destruct ws as [|w' ws']; [now apply word_clean|].
  change (join [space] (w :: w' :: ws')) with (w ++ space :: join [space] (w' :: ws')).
  apply clean_app_word; [assumption | assumption |].
  inversion Hws; subst. eapply join_cons_nonnil; eassumption.
Qed.

(** *** Suffix removal *)

Lemma filter_fixed (A : Type) (f : A -> bool) (l : list A) :
  Forall (fun x => f x = true) l -> filter f l = l.
Proof.
  induction 1 as [|x l Hx Hl IH]; simpl; [reflexivity|]. now rewrite Hx, IH.
Qed.

Lemma removeSuffixes_filter (text : jsstring) :
  removeSuffixes text = trim (join [space] (filter not_suffix (split_space text))).
Proof. reflexivity. Qed.

Lemma removeSuffixes_join (num : bool) (ws : list jsstring) :
  Forall (word num) ws -> Forall (fun w => not_suffix w = true) ws ->
  removeSuffixes (join [space] ws) = join [space] ws.
Proof.
  intros Hw Hf. destruct ws as [|w ws]; [reflexivity|].
  rewrite removeSuffixes_filter.
  rewrite (@split_space_join num _ Hw) by discriminate.
  rewrite (filter_fixed _ Hf).
  eapply clean_trim. apply join_words_clean. eassumption.
Qed.

Lemma removeSuffixes_clean (num : bool) (r : jsstring) :
  clean num r ->
  exists ws, Forall (word num) ws /\ Forall (fun w => not_suffix w = true) ws /\
             removeSuffixes r = join [space] ws.
Proof.
  intros Hr. destruct r as [|c t].
  - exists []. repeat split; constructor.
  - exists (filter not_suffix (split_space (c :: t))).
    assert (Hw : Forall (word num) (filter not_suffix (split_space (c :: t)))).
    { apply Forall_forall. intros w Hin. apply filter_In in Hin.
      pose proof (@clean_split_words num _ Hr) as H. rewrite Forall_forall in H.
      apply H; [discriminate | apply Hin]. }
    repeat split.
    + exact Hw.
    + apply Forall_forall. intros w Hin. apply filter_In in Hin. apply Hin.
    + rewrite removeSuffixes_filter. eapply clean_trim.
      apply join_words_clean. eassumption.
Qed.

End NormalizerFacts.

(** C7.  Normalization is idempotent. *)
Theorem normalizeCompanyName_idempotent (x : jsstring) (cfg : DeduplicationConfig) :
  Normalizer.normalizeCompanyName (Normalizer.normalizeCompanyName x cfg) cfg =
  Normalizer.normalizeCompanyName x cfg.
Proof.
  pose proof (NormalizerFacts.front_steps_clean x cfg) as Hclean.
  rewrite (NormalizerFacts.normalizeCompanyName_steps x cfg).
  destruct (Types.removeSuffixes cfg) eqn:Esuf.
  - destruct (@NormalizerFacts.removeSuffixes_clean _ _ Hclean) as [ws [Hw [Hf E]]].
    rewrite E, NormalizerFacts.normalizeCompanyName_steps, Esuf.
    assert (Hfront : NormalForm.front_steps (join [space] ws) cfg = join [space] ws).
    { apply NormalizerFacts.clean_front_steps.
      now apply NormalizerFacts.join_words_clean. }
    rewrite Hfront. eapply NormalizerFacts.removeSuffixes_join; eassumption.
  - rewrite NormalizerFacts.normalizeCompanyName_steps, Esuf.
    now apply NormalizerFacts.clean_front_steps.
Qed.

(** * Further properties *)

(** ** The edit distance: values *)

Module LevenshteinValues.

Import Matcher LevenshteinSpec LevenshteinFacts.

Lemma cell_diagonal (a : jsstring) (i : nat) : cell a a i i = 0.
Proof.
  induction i as [|i IH]; [reflexivity|].
  rewrite cell_S_S, IH. unfold subst_cost, ascii_eqb.
  rewrite Ascii.eqb_refl. unfold min3. lia.
Qed.

(** The early returns agree with the matrix. *)
Lemma distance_is_cell (a b : jsstring) :
  calculateLevenshteinDistance a b = cell a b (length a) (length b).
Proof.
  rewrite calculateLevenshteinDistance_cell.
  destruct (str_eqb a b) eqn:E.
  - apply str_eqb_eq in E. subst b. symmetry. apply cell_diagonal.
  - destruct (Nat.eqb_spec (length a) 0) as [Ha|Ha]; [now rewrite Ha, cell_0|].
    destruct (Nat.eqb_spec (length b) 0) as [Hb|Hb]; [now rewrite Hb, cell_i_0|].
    reflexivity.
Qed.

Lemma cell_upper (a b : jsstring) (i : nat) : forall j, cell a b i j <= Nat.max i j.
Proof.
  induction i as [|i IHi]; intros j; [rewrite cell_0; lia|].
  destruct j as [|j]; [rewrite cell_S_0; lia|].
  rewrite cell_S_S. specialize (IHi j).
  unfold min3, subst_cost. destruct (ascii_eqb _ _); lia.
Qed.

Lemma cell_lower (a b : jsstring) (i : nat) :
  forall j, i - j <= cell a b i j /\ j - i <= cell a b i j.
Proof.
  induction i as [|i IHi]; intros j; [rewrite cell_0; lia|].
  induction j as [|j IHj]; [rewrite cell_S_0; lia|].
  rewrite cell_S_S.
  pose proof (IHi j) as H1. pose proof (IHi (S j)) as H2.
  unfold min3. lia.
Qed.

Lemma firstn_succ_char (a : jsstring) (i : nat) :
  i < length a -> firstn (S i) a = firstn i a ++ [char_at a i].
Proof.
  revert i; induction a as [|x a IH]; intros i Hi; simpl in Hi; [lia|].
  destruct i as [|i]; [reflexivity|].
  change (firstn (S (S i)) (x :: a)) with (x :: firstn (S i) a).
  rewrite IH by lia. reflexivity.
Qed.

Lemma cell_zero (a b : jsstring) (i : nat) :
  forall j, i <= length a -> j <= length b -> cell a b i j = 0 ->
            i = j /\ firstn i a = firstn j b.
Proof.
  induction i as [|i IHi]; intros j Hi Hj H0.
  - rewrite cell_0 in H0. subst j. split; reflexivity.
  - destruct j as [|j]; [rewrite cell_S_0 in H0; lia|].
    rewrite cell_S_S in H0. unfold min3, subst_cost in H0.
    simpl Nat.sub in H0. rewrite !Nat.sub_0_r in H0.
    destruct (ascii_eqb (char_at a i) (char_at b j)) eqn:Ec; [|lia].
    apply Ascii.eqb_eq in Ec.
    destruct (IHi j) as [Hij Hf]; [lia | lia | lia |].
    split; [lia|].
    rewrite (firstn_succ_char a) by lia. rewrite (firstn_succ_char b) by lia.
    now rewrite Hf, Ec.
Qed.

(** Entries of the matrix depend on the prefixes only. *)
Lemma cell_prefix_l (a a' b : jsstring) (i : nat) :
  forall j, i <= length a -> cell (a ++ a') b i j = cell a b i j.
Proof.
  induction i as [|i IHi]; intros j Hi; [reflexivity|].
  induction j as [|j IHj]; [reflexivity|].
  rewrite !cell_S_S, IHj, !IHi by lia.
  unfold subst_cost, char_at. simpl Nat.sub. rewrite !Nat.sub_0_r.
  rewrite app_nth1 by lia. reflexivity.
Qed.

Lemma cell_prefix_r (a b b' : jsstring) (i j : nat) :
  j <= length b -> cell a (b ++ b') i j = cell a b i j.
Proof.
  intros Hj. rewrite (cell_sym a (b ++ b')), (cell_sym a b).
  now apply cell_prefix_l.
Qed.

Lemma subst_cost_last (a b : jsstring) (x y : ascii) :
  subst_cost (a ++ [x]) (b ++ [y]) (S (length a)) (S (length b)) =
  if ascii_eqb x y then 0 else 1.
Proof.
  unfold subst_cost, char_at. simpl Nat.sub. rewrite !Nat.sub_0_r.
  now rewrite !nth_middle.
Qed.

Lemma distance_upper (a b : jsstring) :
  calculateLevenshteinDistance a b <= Nat.max (length a) (length b).
Proof. rewrite distance_is_cell. apply cell_upper. Qed.

Lemma distance_zero_equal (a b : jsstring) :
  calculateLevenshteinDistance a b = 0 -> a = b.
Proof.
  rewrite distance_is_cell. intros H.
  apply cell_zero in H; [|lia|lia].
  destruct H as [_ H]. now rewrite !firstn_all in H.
Qed.

Lemma distance_equal_zero (a : jsstring) : calculateLevenshteinDistance a a = 0.
Proof. unfold calculateLevenshteinDistance. now rewrite str_eqb_refl. Qed.

Lemma similarity_range (a b : jsstring) :
  (0 <= calculateSimilarity a b <= 1)%Q.
Proof.
  split; [|apply ConfidenceFacts.calculateSimilarity_le_1].
  unfold calculateSimilarity.
  destruct (Nat.eqb (Nat.max (length a) (length b)) 0); [discriminate|].
  pose proof (distance_upper a b).
  unfold Qle. cbn [Qnum Qden]. lia.
Qed.

Lemma similarity_one (a b : jsstring) :
  (calculateSimilarity a b == 1)%Q <-> a = b.
Proof.
  unfold calculateSimilarity.
  destruct (Nat.eqb_spec (Nat.max (length a) (length b)) 0) as [E|E].
  - split; [|reflexivity]. intros _.
    destruct a, b; simpl in E; try lia. reflexivity.
  - set (n := Nat.max (length a) (length b)) in *.
    unfold Qeq. cbn [Qnum Qden].
    rewrite <- (positive_nat_Z (Pos.of_nat n)), Nat2Pos.id by assumption.
    split.
    + intros H. apply distance_zero_equal. lia.
    + intros ->. rewrite distance_equal_zero. lia.
Qed.

End LevenshteinValues.

(** X1.  The distance lies between the difference of the two lengths and the
    larger of them. *)
Theorem distance_bounds (a b : jsstring) :
  length a - length b <= Matcher.calculateLevenshteinDistance a b /\
  length b - length a <= Matcher.calculateLevenshteinDistance a b /\
  Matcher.calculateLevenshteinDistance a b <= Nat.max (length a) (length b).
Proof.
  rewrite LevenshteinValues.distance_is_cell.
  pose proof (LevenshteinValues.cell_lower a b (length a) (length b)).
  pose proof (LevenshteinValues.cell_upper a b (length a) (length b)).
  lia.
Qed.

(** X2.  The distance is 0 exactly for equal strings. *)
Theorem distance_zero_iff (a b : jsstring) :
  Matcher.calculateLevenshteinDistance a b = 0 <-> a = b.
Proof.
  split; [apply LevenshteinValues.distance_zero_equal|].
  intros ->. apply LevenshteinValues.distance_equal_zero.
Qed.

(** X3.  The distance obeys the recurrence of the edit distance on the last
    characters: against the empty string it is the length of the other
    string, and for two strings that end in [x] and [y] it is the least of a
    deletion, an insertion and a substitution (free when [x = y]). *)
Theorem distance_recurrence (a b : jsstring) (x y : ascii) :
  Matcher.calculateLevenshteinDistance [] b = length b /\
  Matcher.calculateLevenshteinDistance a [] = length a /\
  Matcher.calculateLevenshteinDistance (a ++ [x]) (b ++ [y]) =
    Nat.min (Matcher.calculateLevenshteinDistance a (b ++ [y]) + 1)
      (Nat.min (Matcher.calculateLevenshteinDistance (a ++ [x]) b + 1)
               (Matcher.calculateLevenshteinDistance a b
                + (if ascii_eqb x y then 0 else 1))).
Proof.
  rewrite !LevenshteinValues.distance_is_cell.
  split; [reflexivity|]. split; [apply LevenshteinFacts.cell_i_0|].
  rewrite !length_app. simpl length. rewrite !Nat.add_1_r.
  rewrite LevenshteinFacts.cell_S_S, LevenshteinValues.subst_cost_last.
  rewrite (@LevenshteinValues.cell_prefix_l a [x] (b ++ [y]) (length a) (S (length b)))
    by lia.
  rewrite (@LevenshteinValues.cell_prefix_l a [x] (b ++ [y]) (length a) (length b))
    by lia.
  rewrite (@LevenshteinValues.cell_prefix_r (a ++ [x]) b [y] (S (length a)) (length b))
    by lia.
  rewrite (@LevenshteinValues.cell_prefix_r a b [y] (length a) (length b)) by lia.
  unfold Matcher.min3. lia.
Qed.

(** X4.  The similarity of two strings lies between 0 and 1, and it is 1
    exactly when the strings are equal. *)
Theorem calculateSimilarity_range (a b : jsstring) :
  (0 <= Matcher.calculateSimilarity a b <= 1)%Q /\
  ((Matcher.calculateSimilarity a b == 1)%Q <-> a = b).
Proof.
  split; [apply LevenshteinValues.similarity_range | apply LevenshteinValues.similarity_one].
Qed.

(** ** The similarity and the partial layer *)

Module LayerFacts.

Import Normalizer Matcher.



End LayerFacts.

(** The similarity layer produces a match for a candidate exactly when the
    candidate differs from the query as a raw string and the similarity of
    the two normalized forms reaches [highSimilarityThreshold]. *)
Lemma high_similarity_match_iff (q : jsstring) (cs : list jsstring)
    (cfg : DeduplicationConfig) (m : CompanyMatch) :
  In m (Matcher.findHighSimilarityMatches q cs cfg) <->
  exists c, In c cs /\ c <> q /\
    (highSimilarityThreshold cfg <=
     Matcher.calculateSimilarity (Normalizer.normalizeCompanyName q cfg)
                                 (Normalizer.normalizeCompanyName c cfg))%Q /\
    m = {| original := q; candidate := c;
           confidence :=
             Matcher.round3
               (Matcher.calculateSimilarity (Normalizer.normalizeCompanyName q cfg)
                                            (Normalizer.normalizeCompanyName c cfg));
           method := high_similarity;
           normalizedOriginal := Normalizer.normalizeCompanyName q cfg;
           normalizedCandidate := Normalizer.normalizeCompanyName c cfg |}.
Proof.
  unfold Matcher.findHighSimilarityMatches. rewrite In_push_loop.
  split.
  - intros [c [Hc Hb]]. exists c.
    destruct (str_eqb c q) eqn:Ecq; [discriminate|].
    destruct (Qle_bool _ _) eqn:Et; [|discriminate].
    apply str_eqb_neq in Ecq. apply Qle_bool_true in Et.
    inversion Hb; subst m. repeat split; auto.
  - intros [c [Hc [Hne [Ht ->]]]]. exists c. split; [assumption|].
    apply str_eqb_neq in Hne. rewrite Hne.
    apply Qle_bool_true in Ht. rewrite Ht. reflexivity.
Qed.


(** X5.  With [highSimilarityThreshold] equal to 1 the similarity layer
    accepts exactly the candidates the exact layer accepts, in the same
    order. *)
Theorem similarity_layer_at_threshold_one (q : jsstring) (cs : list jsstring)
    (cfg : DeduplicationConfig) :
  (highSimilarityThreshold cfg == 1)%Q ->
  map candidate (Matcher.findHighSimilarityMatches q cs cfg) =
  map candidate (Matcher.findExactMatches q cs cfg).
Proof.
  intros Hone.
  unfold Matcher.findHighSimilarityMatches, Matcher.findExactMatches.
  rewrite !push_loop_flat_map.
  induction cs as [|c cs IH]; [reflexivity|].
  cbn [flat_map]. rewrite !map_app, IH. f_equal.
  destruct (str_eqb c q); [reflexivity|].
  set (no := Normalizer.normalizeCompanyName q cfg).
  set (nc := Normalizer.normalizeCompanyName c cfg).
  pose proof (LevenshteinValues.similarity_range no nc) as [_ Hle].
  pose proof (LevenshteinValues.similarity_one no nc) as Hiff.
  destruct (str_eqb nc no) eqn:E.
  - apply str_eqb_eq in E.
    assert (H1 : (Matcher.calculateSimilarity no nc == 1)%Q)
      by (apply Hiff; congruence).
    assert (Ht : Qle_bool (highSimilarityThreshold cfg)
                          (Matcher.calculateSimilarity no nc) = true)
      by (apply Qle_bool_true; lra).
    rewrite Ht. reflexivity.
  - apply str_eqb_neq in E.
    destruct (Qle_bool (highSimilarityThreshold cfg)
                       (Matcher.calculateSimilarity no nc)) eqn:Ht; [|reflexivity].
    apply Qle_bool_true in Ht. exfalso. apply E. symmetry. apply Hiff. lra.
Qed.

Lemma similarity_layer_at_threshold_one_witness :
  (highSimilarityThreshold (Examples.strict_config) == 1)%Q /\
  map candidate
    (Matcher.findHighSimilarityMatches Examples.ubisoft_montreal
       [Examples.montreal_ubisoft; Examples.ubisoft_montreal_inc] Examples.strict_config) =
  map candidate
    (Matcher.findExactMatches Examples.ubisoft_montreal
       [Examples.montreal_ubisoft; Examples.ubisoft_montreal_inc] Examples.strict_config).
Proof.
  split; [reflexivity|].
  apply similarity_layer_at_threshold_one. reflexivity.
Defined.

(** ** Reconciliation *)

Module ReconcileFacts.

Import Matcher MapFacts ConfidenceFacts OrderFacts.

Lemma best_map_snoc (l : list CompanyMatch) (x : CompanyMatch) :
  best_map (l ++ [x]) = best_step (best_map l) x.
Proof. unfold best_map. now rewrite fold_left_app. Qed.

Lemma map_get_best_step_other (bm : jsmap) (x : CompanyMatch) (c : jsstring) :
  str_eqb (candidate x) c = false ->
  map_get c (best_step bm x) = map_get c bm.
Proof.
  intros E. unfold best_step.
  destruct (map_get (candidate x) bm) as [e|]; [destruct (Qlt_bool _ _)|];
    try reflexivity; now rewrite map_get_map_set, E.
Qed.

(** The entry of a candidate is one of its pooled matches, and none of its
    pooled matches has a greater confidence; a candidate without an entry
    has no pooled match. *)
Lemma map_get_best_map (l : list CompanyMatch) (c : jsstring) :
  match map_get c (best_map l) with
  | Some m => In m l /\ candidate m = c /\
              forall m', In m' l -> candidate m' = c ->
                         (confidence m' <= confidence m)%Q
  | None => forall m', In m' l -> candidate m' <> c
  end.
Proof.
  induction l as [|x l IH] using rev_ind; [intros m' []|].
  rewrite best_map_snoc.
  destruct (str_eqb (candidate x) c) eqn:Ek.
  - apply str_eqb_eq in Ek. unfold best_step. rewrite Ek.
    destruct (map_get c (best_map l)) as [e|] eqn:Eg.
    + destruct IH as (Hin & Hc & Hmax).
      destruct (Qlt_bool (confidence e) (confidence x)) eqn:El.
      * apply Qlt_bool_true in El.
        rewrite map_get_map_set, str_eqb_refl.
        split; [apply in_or_app; right; now left|]. split; [assumption|].
        intros m' Hm' Hcm'. apply in_app_or in Hm'.
        destruct Hm' as [Hm'|[<-|[]]]; [|apply Qle_refl].
        specialize (Hmax m' Hm' Hcm'). lra.
      * rewrite Eg. split; [apply in_or_app; now left|]. split; [assumption|].
        intros m' Hm' Hcm'. apply in_app_or in Hm'.
        destruct Hm' as [Hm'|[<-|[]]]; [now apply Hmax|].
        apply Qnot_lt_le. intros Hlt. apply Qlt_bool_true in Hlt. congruence.
    + rewrite map_get_map_set, str_eqb_refl.
      split; [apply in_or_app; right; now left|]. split; [assumption|].
      intros m' Hm' Hcm'. apply in_app_or in Hm'.
      destruct Hm' as [Hm'|[<-|[]]]; [|apply Qle_refl].
      exfalso. now apply (IH m').
  - rewrite (@map_get_best_step_other _ _ _ Ek).
    apply str_eqb_neq in Ek.
    destruct (map_get c (best_map l)) as [e|].
    + destruct IH as (Hin & Hc & Hmax).
      split; [apply in_or_app; now left|]. split; [assumption|].
      intros m' Hm' Hcm'. apply in_app_or in Hm'.
      destruct Hm' as [Hm'|[<-|[]]]; [now apply Hmax | contradiction].
    + intros m' Hm'. apply in_app_or in Hm'.
      destruct Hm' as [Hm'|[<-|[]]]; [now apply IH | assumption].
Qed.

Lemma value_is_entry (l : list CompanyMatch) (m : CompanyMatch) :
  In m (map_values (best_map l)) -> map_get (candidate m) (best_map l) = Some m.
Proof.
  unfold map_values. rewrite in_map_iff. intros [[k v] [Ev Hkv]]. simpl in Ev; subst v.
  pose proof (entries_best_map _ _ _ Hkv) as [Hk _]. subst k.
  apply In_map_get; [|assumption].
  rewrite keys_best_map. apply set_of_NoDup.
Qed.

(** With a limit that is at least the size of the pool nothing is cut off. *)
Lemma findAllMatches_unsliced (q : jsstring) (cs : list jsstring)
    (cfg : DeduplicationConfig) :
  (Z.of_nat (length cs) <= maxResultsPerCompany cfg)%Z ->
  findAllMatches q cs cfg =
  js_sort by_confidence_desc
    (filter (fun m => Qle_bool (minConfidenceScore cfg) (confidence m))
            (map_values (best_map (combined_matches q cs cfg)))).
Proof.
  intros Hmax. unfold findAllMatches. apply slice0_all.
  rewrite <- (Permutation_length (js_sort_perm by_confidence_desc _)).
  eapply Z.le_trans; [|exact Hmax]. apply Nat2Z.inj_le.
  eapply Nat.le_trans; [apply filter_length_le|].
  unfold map_values. rewrite length_map, <- (length_map fst).
  apply NoDup_incl_length; [rewrite keys_best_map; apply set_of_NoDup|].
  intros k Hk. rewrite keys_best_map, set_of_In in Hk.
  apply in_map_iff in Hk. destruct Hk as [m [<- Hm]].
  now apply (combined_matches_shape q cs cfg).
Qed.

(** Each layer stamps its own method and records the two normalized forms. *)
Lemma layer_of_method (q : jsstring) (cs : list jsstring) (cfg : DeduplicationConfig)
    (m : CompanyMatch) :
  In m (combined_matches q cs cfg) ->
  normalizedOriginal m = Normalizer.normalizeCompanyName q cfg /\
  normalizedCandidate m = Normalizer.normalizeCompanyName (candidate m) cfg /\
  In m (match method m with
        | exact_after_normalization => findExactMatches q cs cfg
        | high_similarity => findHighSimilarityMatches q cs cfg
        | token_match => findTokenMatches q cs cfg
        | partial_match => findPartialMatches q cs cfg
        end).
Proof.
  unfold combined_matches. rewrite !in_app_iff.
  intros [H|[H|[H|H]]]; pose proof H as H';
    unfold findExactMatches, findHighSimilarityMatches, findTokenMatches,
      findPartialMatches in H';
    rewrite In_push_loop in H'; destruct H' as [c [Hc Hb]];
    destruct (str_eqb c q); try discriminate;
    repeat match type of Hb with
           | context [if ?b then _ else _] => destruct b; try discriminate
           end;
    inversion Hb; subst m;
    cbn [method normalizedOriginal normalizedCandidate candidate];
    (split; [reflexivity|]); (split; [reflexivity|]); exact H.
Qed.

End ReconcileFacts.

(** X7.  Every returned match is one of the pooled layer results, and no
    pooled result for the same candidate has a greater confidence: the
    confidence reported for a candidate is the largest any layer gave it. *)
Theorem reported_confidence_is_largest (q : jsstring) (cs : list jsstring)
    (cfg : DeduplicationConfig) (m : CompanyMatch) :
  In m (Matcher.findAllMatches q cs cfg) ->
  In m (Matcher.combined_matches q cs cfg) /\
  forall m', In m' (Matcher.combined_matches q cs cfg) ->
             candidate m' = candidate m ->
             (confidence m' <= confidence m)%Q.
Proof.
  intros H. apply findAllMatches_sub in H. destruct H as [Hv _].
  apply ReconcileFacts.value_is_entry in Hv.
  pose proof (ReconcileFacts.map_get_best_map
                (Matcher.combined_matches q cs cfg) (candidate m)) as Hbest.
  rewrite Hv in Hbest. destruct Hbest as (Hin & _ & Hmax). split; assumption.
Qed.

Lemma reported_confidence_is_largest_witness :
  In Examples.exact_inc_match
     (Matcher.findAllMatches Examples.ubisoft_montreal
        [Examples.montreal_ubisoft; Examples.ubisoft_montreal_inc]
        Examples.balanced_config) /\
  In Examples.exact_inc_match
     (Matcher.combined_matches Examples.ubisoft_montreal
        [Examples.montreal_ubisoft; Examples.ubisoft_montreal_inc]
        Examples.balanced_config).
Proof.
  assert (H : In Examples.exact_inc_match
                 (Matcher.findAllMatches Examples.ubisoft_montreal
                    [Examples.montreal_ubisoft; Examples.ubisoft_montreal_inc]
                    Examples.balanced_config))
    by (vm_compute; left; reflexivity).
  split; [exact H|].
  exact (proj1 (@reported_confidence_is_largest _ _ _ _ H)).
Defined.

(** X8.  A returned match belongs to the output of the layer its [method]
    names, and its two normalized forms are those of the query and of its
    candidate. *)
Theorem returned_match_is_justified (q : jsstring) (cs : list jsstring)
    (cfg : DeduplicationConfig) (m : CompanyMatch) :
  In m (Matcher.findAllMatches q cs cfg) ->
  original m = q /\ In (candidate m) cs /\
  normalizedOriginal m = Normalizer.normalizeCompanyName q cfg /\
  normalizedCandidate m = Normalizer.normalizeCompanyName (candidate m) cfg /\
  In m (match method m with
        | exact_after_normalization => Matcher.findExactMatches q cs cfg
        | high_similarity => Matcher.findHighSimilarityMatches q cs cfg
        | token_match => Matcher.findTokenMatches q cs cfg
        | partial_match => Matcher.findPartialMatches q cs cfg
        end).
Proof.
  intros H. apply findAllMatches_sub in H. destruct H as [Hv _].
  apply MapFacts.values_best_map in Hv.
  pose proof (ConfidenceFacts.combined_matches_shape _ _ _ _ Hv) as (Ho & Hc & _).
  pose proof (ReconcileFacts.layer_of_method _ _ _ _ Hv) as (Hn1 & Hn2 & Hl).
  repeat split; assumption.
Qed.

Lemma returned_match_is_justified_witness :
  In Examples.exact_inc_match
     (Matcher.findAllMatches Examples.ubisoft_montreal
        [Examples.montreal_ubisoft; Examples.ubisoft_montreal_inc]
        Examples.balanced_config) /\
  In Examples.exact_inc_match
     (Matcher.findExactMatches Examples.ubisoft_montreal
        [Examples.montreal_ubisoft; Examples.ubisoft_montreal_inc]
        Examples.balanced_config).
Proof.
  assert (H : In Examples.exact_inc_match
                 (Matcher.findAllMatches Examples.ubisoft_montreal
                    [Examples.montreal_ubisoft; Examples.ubisoft_montreal_inc]
                    Examples.balanced_config))
    by (vm_compute; left; reflexivity).
  split; [exact H|].
  exact (proj2 (proj2 (proj2 (proj2 (@returned_match_is_justified _ _ _ _ H))))).
Defined.



(** X10.  A pool that holds nothing but copies of the query, the empty pool
    included, yields no match. *)
Theorem no_match_with_oneself (q : jsstring) (cs : list jsstring)
    (cfg : DeduplicationConfig) :
  (forall c, In c cs -> c = q) ->
  Matcher.findAllMatches q cs cfg = [].
Proof.
  intros Hall.
  assert (Hnone : forall m, ~ In m (Matcher.findAllMatches q cs cfg)).
  { intros m H. apply findAllMatches_sub in H. destruct H as [Hv _].
    apply MapFacts.values_best_map in Hv.
    pose proof (ConfidenceFacts.combined_matches_shape _ _ _ _ Hv) as (_ & Hc & Hne & _).
    apply Hne. now apply Hall. }
  destruct (Matcher.findAllMatches q cs cfg) as [|m l]; [reflexivity|].
  exfalso. apply (Hnone m). now left.
Qed.

Lemma no_match_with_oneself_witness :
  (forall c, In c [Examples.ubisoft; Examples.ubisoft] -> c = Examples.ubisoft) /\
  Matcher.findAllMatches Examples.ubisoft [Examples.ubisoft; Examples.ubisoft]
                         Examples.balanced_config = [].
Proof.
  assert (H : forall c, In c [Examples.ubisoft; Examples.ubisoft] -> c = Examples.ubisoft).
  { intros c [<-|[<-|[]]]; reflexivity. }
  split; [exact H|].
  exact (@no_match_with_oneself _ _ Examples.balanced_config H).
Defined.

(** ** Tokens *)

Module TokenFacts.

Import Normalizer.

Lemma code_injective (x y : ascii) : code x = code y -> x = y.
Proof.
  unfold code. intros H.
  rewrite <- (ascii_N_embedding x), <- (ascii_N_embedding y). now rewrite H.
Qed.

Lemma str_leb_refl (a : jsstring) : str_leb a a = true.
Proof.
  induction a as [|x a IH]; [reflexivity|]. simpl.
  now rewrite N.ltb_irrefl.
Qed.

Lemma str_leb_total (a : jsstring) : forall b, str_leb a b = true \/ str_leb b a = true.
Proof.
  induction a as [|x a IH]; intros [|y b]; simpl; auto.
  destruct (N.ltb_spec (code x) (code y)); [auto|].
  destruct (N.ltb_spec (code y) (code x)); [auto|]. apply IH.
Qed.

Lemma str_leb_antisym (a : jsstring) :
  forall b, str_leb a b = true -> str_leb b a = true -> a = b.
Proof.
  induction a as [|x a IH]; intros [|y b]; simpl; try discriminate; [reflexivity|].
  destruct (N.ltb_spec (code x) (code y)); destruct (N.ltb_spec (code y) (code x));
    try discriminate; try lia.
  intros H1 H2. f_equal; [apply code_injective; lia | now apply IH].
Qed.

Lemma str_leb_trans (a : jsstring) :
  forall b c, str_leb a b = true -> str_leb b c = true -> str_leb a c = true.
Proof.
  induction a as [|x a IH]; intros [|y b] [|z c]; simpl; try discriminate; auto.
  destruct (N.ltb_spec (code x) (code y)), (N.ltb_spec (code y) (code x)),
           (N.ltb_spec (code y) (code z)), (N.ltb_spec (code z) (code y)),
           (N.ltb_spec (code x) (code z)), (N.ltb_spec (code z) (code x));
    intros Hab Hbc; try discriminate; try lia; try reflexivity.
  eapply IH; eassumption.
Qed.

Lemma In_insert_sorted (x y : jsstring) (l : list jsstring) :
  In y (insert_sorted x l) <-> y = x \/ In y l.
Proof.
  induction l as [|z l IH]; simpl; [intuition|].
  destruct (str_leb x z); simpl; [intuition|]. rewrite IH. intuition.
Qed.

Lemma insert_sorted_perm (x : jsstring) (l : list jsstring) :
  Permutation (x :: l) (insert_sorted x l).
Proof.
  induction l as [|z l IH]; simpl; [apply Permutation_refl|].
  destruct (str_leb x z); [apply Permutation_refl|].
  eapply Permutation_trans; [apply perm_swap|]. now apply perm_skip.
Qed.

Lemma sort_strings_perm (l : list jsstring) : Permutation l (sort_strings l).
Proof.
  induction l as [|x l IH]; simpl; [constructor|].
  eapply Permutation_trans; [apply perm_skip, IH | apply insert_sorted_perm].
Qed.

Lemma insert_sorted_sorted (x : jsstring) (l : list jsstring) :
  StronglySorted (fun a b => str_leb a b = true) l ->
  StronglySorted (fun a b => str_leb a b = true) (insert_sorted x l).
Proof.
  induction 1 as [|z l Hs IH Hall]; simpl; [repeat constructor|].
  destruct (str_leb x z) eqn:E.
  - constructor; [now constructor|].
    constructor; [assumption|].
    eapply Forall_impl; [|exact Hall]. intros a Ha. cbv beta in Ha.
    eapply str_leb_trans; eassumption.
  - constructor; [assumption|].
    apply Forall_forall. intros a Ha. apply In_insert_sorted in Ha.
    destruct Ha as [->|Ha].
    + destruct (str_leb_total z x); congruence.
    + rewrite Forall_forall in Hall. now apply Hall.
Qed.

Lemma sort_strings_sorted (l : list jsstring) :
  StronglySorted (fun a b => str_leb a b = true) (sort_strings l).
Proof.
  induction l as [|x l IH]; simpl; [constructor | now apply insert_sorted_sorted].
Qed.

(** Two sorted arrangements of the same strings are the same list. *)
Lemma sorted_arrangement_unique (l : list jsstring) :
  forall l',
    StronglySorted (fun a b => str_leb a b = true) l ->
    StronglySorted (fun a b => str_leb a b = true) l' ->
    Permutation l l' -> l = l'.
Proof.
  induction l as [|x l IH]; intros l' Hs Hs' Hp.
  - apply Permutation_nil in Hp. now subst.
  - destruct l' as [|y l']; [apply Permutation_sym, Permutation_nil in Hp; discriminate|].
    inversion Hs as [|? ? Hsl Hxl]; inversion Hs' as [|? ? Hsl' Hyl']; subst.
    rewrite Forall_forall in Hxl, Hyl'.
    assert (Exy : x = y).
    { assert (Hx : In x (y :: l')) by (eapply Permutation_in; [exact Hp | now left]).
      assert (Hy : In y (x :: l))
        by (eapply Permutation_in; [apply Permutation_sym; exact Hp | now left]).
      destruct Hx as [->|Hx]; [reflexivity|].
      destruct Hy as [->|Hy]; [reflexivity|].
      apply str_leb_antisym; [now apply Hxl | now apply Hyl']. }
    subst y. f_equal. apply IH; try assumption.
    eapply Permutation_cons_inv. exact Hp.
Qed.

Lemma sort_strings_canonical (l l' : list jsstring) :
  Permutation l l' -> sort_strings l = sort_strings l'.
Proof.
  intros Hp. apply sorted_arrangement_unique; try apply sort_strings_sorted.
  eapply Permutation_trans; [apply Permutation_sym, sort_strings_perm|].
  eapply Permutation_trans; [exact Hp | apply sort_strings_perm].
Qed.

Lemma In_extractTokens (n t : jsstring) :
  In t (extractTokens n) <-> In t (split_space n) /\ t <> [].
Proof.
  unfold extractTokens. split.
  - intros H. eapply Permutation_in in H; [|apply Permutation_sym, sort_strings_perm].
    apply filter_In in H. destruct H as [H1 H2]. split; [assumption|].
    destruct t; [discriminate | discriminate].
  - intros [H1 H2]. eapply Permutation_in; [apply sort_strings_perm|].
    apply filter_In. split; [assumption|].
    destruct t; [exfalso; now apply H2 | reflexivity].
Qed.

(** Splitting what was joined, for pieces without a space. *)
Lemma split_space_piece (w r : jsstring) :
  Forall (fun c => ascii_eqb c space = false) w ->
  split_space (w ++ space :: r) = w :: split_space r.
Proof.
  induction 1 as [|c t Hc Ht IH]; [reflexivity|].
  cbn [app]. rewrite NormalizerFacts.split_space_cons, Hc, IH. reflexivity.
Qed.

Lemma split_space_single (w : jsstring) :
  Forall (fun c => ascii_eqb c space = false) w -> split_space w = [w].
Proof.
  induction 1 as [|c t Hc Ht IH]; [reflexivity|].
  rewrite NormalizerFacts.split_space_cons, Hc, IH. reflexivity.
Qed.

Lemma split_space_joined (ws : list jsstring) :
  Forall (Forall (fun c => ascii_eqb c space = false)) ws -> ws <> [] ->
  split_space (join [space] ws) = ws.
Proof.
  induction 1 as [|w ws Hw Hws IH]; intros Hne; [exfalso; now apply Hne|].
  destruct ws as [|w' ws'].
  - now apply split_space_single.
  - cbn [join app]. rewrite split_space_piece by assumption.
    f_equal. apply IH. discriminate.
Qed.

Lemma tokens_of_joined (ws : list jsstring) :
  Forall (Forall (fun c => ascii_eqb c space = false)) ws ->
  extractTokens (join [space] ws) = sort_strings (filter nonempty ws).
Proof.
  intros H. unfold extractTokens. destruct ws as [|w ws]; [reflexivity|].
  now rewrite split_space_joined.
Qed.

Lemma tokens_ignore_order (ws ws' : list jsstring) :
  Forall (Forall (fun c => ascii_eqb c space = false)) ws ->
  Permutation ws ws' ->
  extractTokens (join [space] ws) = extractTokens (join [space] ws').
Proof.
  intros Hws Hp.
  assert (Hws' : Forall (Forall (fun c => ascii_eqb c space = false)) ws').
  { rewrite Forall_forall in *. intros w Hw. apply Hws.
    eapply Permutation_in; [apply Permutation_sym; exact Hp | exact Hw]. }
  rewrite !tokens_of_joined by assumption.
  apply sort_strings_canonical.
  clear Hws Hws'. induction Hp; simpl.
  - constructor.
  - destruct (nonempty x); [now constructor | assumption].
  - destruct (nonempty x), (nonempty y);
      try apply Permutation_refl. apply perm_swap.
  - eapply Permutation_trans; eassumption.
Qed.

End TokenFacts.

(** X11.  The tokens of a name are in ascending order of code units, none is
    empty, and they are the non-empty pieces between the spaces of the
    name. *)
Theorem extractTokens_sorted (n : jsstring) :
  StronglySorted (fun a b => Normalizer.str_leb a b = true) (Normalizer.extractTokens n) /\
  (forall t, In t (Normalizer.extractTokens n) <-> In t (split_space n) /\ t <> []) /\
  Permutation (filter Normalizer.nonempty (split_space n)) (Normalizer.extractTokens n).
Proof.
  split; [apply TokenFacts.sort_strings_sorted|].
  split; [intros t; apply TokenFacts.In_extractTokens|].
  apply TokenFacts.sort_strings_perm.
Qed.

(** X12.  The order of the words of a name does not matter to its tokens:
    two names made of the same words (none containing a space) in a different
    order have the same token list. *)
Theorem extractTokens_ignores_word_order (ws ws' : list jsstring) :
  Forall (Forall (fun c => ascii_eqb c space = false)) ws ->
  Permutation ws ws' ->
  Normalizer.extractTokens (join [space] ws) = Normalizer.extractTokens (join [space] ws').
Proof. apply TokenFacts.tokens_ignore_order. Qed.

Lemma extractTokens_ignores_word_order_witness :
  (Forall (Forall (fun c => ascii_eqb c space = false))
          [Examples.ubisoft; str "montreal"] /\
   Permutation [Examples.ubisoft; str "montreal"] [str "montreal"; Examples.ubisoft]) /\
  Normalizer.extractTokens (join [space] [Examples.ubisoft; str "montreal"]) =
  Normalizer.extractTokens (join [space] [str "montreal"; Examples.ubisoft]).
Proof.
  assert (H1 : Forall (Forall (fun c => ascii_eqb c space = false))
                 [Examples.ubisoft; str "montreal"])
    by (repeat constructor).
  assert (H2 : Permutation [Examples.ubisoft; str "montreal"]
                           [str "montreal"; Examples.ubisoft])
    by apply perm_swap.
  split; [split; assumption|].
  exact (extractTokens_ignores_word_order H1 H2).
Defined.

(** ** Token overlap *)

Module OverlapFacts.

Import Normalizer.

Lemma same_elements_length (l l' : list jsstring) :
  NoDup l -> NoDup l' -> (forall x, In x l <-> In x l') -> length l = length l'.
Proof.
  intros H H' Hiff. apply Permutation_length. now apply NoDup_Permutation.
Qed.

Lemma In_intersection (t1 t2 : list jsstring) (x : jsstring) :
  In x (set_of (filter (fun token => str_mem token t2) t1)) <-> In x t1 /\ In x t2.
Proof. now rewrite set_of_In, filter_In, str_mem_In. Qed.

Lemma In_union (t1 t2 : list jsstring) (x : jsstring) :
  In x (set_of (t1 ++ t2)) <-> In x t1 \/ In x t2.
Proof. now rewrite set_of_In, in_app_iff. Qed.

Lemma ratio_nonneg (a b : nat) : (0 <= ratio a b)%Q.
Proof. unfold ratio, Qle. cbn [Qnum Qden]. lia. Qed.

Lemma ratio_one (a b : nat) : 0 < b -> (ratio a b == 1)%Q <-> a = b.
Proof.
  intros Hb. unfold ratio, Qeq. cbn [Qnum Qden].
  rewrite <- (positive_nat_Z (Pos.of_nat b)), Nat2Pos.id by lia. lia.
Qed.

Lemma calculateTokenOverlap_comm (n1 n2 : jsstring) :
  calculateTokenOverlap n1 n2 = calculateTokenOverlap n2 n1.
Proof.
  unfold calculateTokenOverlap.
  set (t1 := set_of (extractTokens n1)). set (t2 := set_of (extractTokens n2)).
  assert (Hi : length (set_of (filter (fun token => str_mem token t2) t1))
               = length (set_of (filter (fun token => str_mem token t1) t2))).
  { apply same_elements_length; try apply set_of_NoDup.
    intros x. rewrite !In_intersection. tauto. }
  assert (Hu : length (set_of (t1 ++ t2)) = length (set_of (t2 ++ t1))).
  { apply same_elements_length; try apply set_of_NoDup.
    intros x. rewrite !In_union. tauto. }
  now rewrite Hi, Hu.
Qed.

Lemma calculateTokenOverlap_one (n1 n2 : jsstring) :
  (calculateTokenOverlap n1 n2 == 1)%Q <->
  extractTokens n1 <> [] /\
  forall t, In t (extractTokens n1) <-> In t (extractTokens n2).
Proof.
  unfold calculateTokenOverlap.
  set (t1 := set_of (extractTokens n1)). set (t2 := set_of (extractTokens n2)).
  set (I := set_of (filter (fun token => str_mem token t2) t1)).
  set (U := set_of (t1 ++ t2)).
  assert (HI : forall x, In x I <-> In x (extractTokens n1) /\ In x (extractTokens n2)).
  { intros x. subst I t1 t2. now rewrite In_intersection, !set_of_In. }
  assert (HU : forall x, In x U <-> In x (extractTokens n1) \/ In x (extractTokens n2)).
  { intros x. subst U t1 t2. now rewrite In_union, !set_of_In. }
  assert (HIU : incl I U) by (intros x Hx; apply HU; apply HI in Hx; tauto).
  destruct (Nat.ltb_spec 0 (length U)) as [Hpos|Hzero].
  - rewrite ratio_one by assumption. split.
    + intros Hlen.
      assert (HUI : incl U I).
      { apply NoDup_length_incl; [apply set_of_NoDup | lia | exact HIU]. }
      assert (Hsame : forall t, In t (extractTokens n1) <-> In t (extractTokens n2)).
      { intros t. split; intros Ht.
        - assert (In t U) by (apply HU; now left). now apply HUI, HI in H.
        - assert (In t U) by (apply HU; now right). now apply HUI, HI in H. }
      split; [|exact Hsame].
      intros E. destruct U as [|u U'] eqn:EU; [simpl in Hpos; lia|].
      assert (Hu : In u (extractTokens n1)).
      { assert (In u (u :: U')) as Hin by now left.
        apply HU in Hin. destruct Hin as [Hin|Hin]; [assumption | now apply Hsame]. }
      rewrite E in Hu. destruct Hu.
    + intros [_ Hsame]. apply same_elements_length; try apply set_of_NoDup.
      intros x. rewrite HI, HU, <- Hsame. tauto.
  - split; [intros H; discriminate H|].
    intros [Hne Hsame]. exfalso.
    destruct (extractTokens n1) as [|t l] eqn:E; [now apply Hne|].
    assert (In t U) as Hin by (apply HU; left; now left).
    destruct U; [destruct Hin | simpl in Hzero; lia].
Qed.

End OverlapFacts.

(** X13.  The token overlap is symmetric and lies between 0 and 1. *)
Theorem calculateTokenOverlap_sym (n1 n2 : jsstring) :
  Normalizer.calculateTokenOverlap n1 n2 = Normalizer.calculateTokenOverlap n2 n1 /\
  (0 <= Normalizer.calculateTokenOverlap n1 n2 <= 1)%Q.
Proof.
  split; [apply OverlapFacts.calculateTokenOverlap_comm|].
  split; [|apply ConfidenceFacts.calculateTokenOverlap_le_1].
  unfold Normalizer.calculateTokenOverlap.
  destruct (Nat.ltb _ _); [apply OverlapFacts.ratio_nonneg | apply Qle_refl].
Qed.

(** X14.  The token overlap is 1 exactly when the first name has a token and
    the two names have the same tokens; in particular two names without any
    token have overlap 0, not 1. *)
Theorem calculateTokenOverlap_full (n1 n2 : jsstring) :
  ((Normalizer.calculateTokenOverlap n1 n2 == 1)%Q <->
   Normalizer.extractTokens n1 <> [] /\
   forall t, In t (Normalizer.extractTokens n1) <-> In t (Normalizer.extractTokens n2)) /\
  (Normalizer.extractTokens n1 = [] -> Normalizer.extractTokens n2 = [] ->
   Normalizer.calculateTokenOverlap n1 n2 = 0%Q).
Proof.
  split; [apply OverlapFacts.calculateTokenOverlap_one|].
  intros E1 E2. unfold Normalizer.calculateTokenOverlap. now rewrite E1, E2.
Qed.

(** ** The normalized name *)

Module NormalizedFacts.

Import Normalizer NormalForm NormalizerFacts.

Lemma lower_char_space : forall c, is_space (lower_char c) = is_space c.
Proof. all_chars. Qed.

Lemma lower_char_idempotent : forall c, lower_char (lower_char c) = lower_char c.
Proof. all_chars. Qed.

Lemma toLowerCase_idempotent (s : jsstring) : toLowerCase (toLowerCase s) = toLowerCase s.
Proof.
  unfold toLowerCase. rewrite map_map. apply map_ext. apply lower_char_idempotent.
Qed.

Lemma trimStart_toLowerCase (s : jsstring) :
  trimStart (toLowerCase s) = toLowerCase (trimStart s).
Proof.
  induction s as [|c t IH]; [reflexivity|].
  cbn [toLowerCase map trimStart]. rewrite lower_char_space.
  destruct (is_space c); [exact IH | reflexivity].
Qed.

Lemma trimEnd_toLowerCase (s : jsstring) :
  trimEnd (toLowerCase s) = toLowerCase (trimEnd s).
Proof.
  induction s as [|c t IH]; [reflexivity|].
  cbn [toLowerCase map trimEnd]. fold (toLowerCase t). rewrite IH, lower_char_space.
  destruct (trimEnd t) as [|d t']; [destruct (is_space c); reflexivity | reflexivity].
Qed.

Lemma trim_toLowerCase (s : jsstring) : trim (toLowerCase s) = toLowerCase (trim s).
Proof. unfold trim. now rewrite trimStart_toLowerCase, trimEnd_toLowerCase. Qed.

Lemma trim_idempotent (s : jsstring) : trim (trim s) = trim s.
Proof.
  unfold trim.
  rewrite (trimStart_fixed (trimEnd (trimStart s)))
    by apply trimEnd_starts, trimStart_starts.
  apply trimEnd_fixed, trimEnd_ends.
Qed.

Lemma word_toLowerCase (num : bool) (w : jsstring) : word num w -> toLowerCase w = w.
Proof. intros H. eapply clean_toLowerCase. apply word_clean. eassumption. Qed.

(** The result of suffix removal on a clean string. *)
Lemma removeSuffixes_no_suffix (num : bool) (r w : jsstring) :
  clean num r -> In w (split_space (removeSuffixes r)) ->
  str_mem w BUSINESS_SUFFIXES = false.
Proof.
  intros Hr Hw.
  destruct (@removeSuffixes_clean num r Hr) as [ws [Hws [Hf E]]].
  rewrite E in Hw. destruct ws as [|w0 ws].
  - destruct Hw as [<-|[]]. reflexivity.
  - rewrite (@split_space_join num _ Hws) in Hw by discriminate.
    rewrite Forall_forall in Hws, Hf.
    pose proof (Hf w Hw) as Hn. unfold not_suffix in Hn.
    rewrite (@word_toLowerCase num w (Hws w Hw)) in Hn.
    now apply negb_true_iff in Hn.
Qed.

Lemma normalized_clean (x : jsstring) (cfg : DeduplicationConfig) :
  clean (removeNumbers cfg) (normalizeCompanyName x cfg).
Proof.
  rewrite normalizeCompanyName_steps.
  pose proof (front_steps_clean x cfg) as Hc.
  destruct (Types.removeSuffixes cfg); [|exact Hc].
  destruct (@removeSuffixes_clean _ _ Hc) as [ws [Hws [_ E]]].
  rewrite E. now apply join_words_clean.
Qed.

End NormalizedFacts.

(** X15.  A normalized name consists of words over [a-z0-9_] separated by
    single spaces, without white space at either end; it has no digit when
    [removeNumbers] is set, and none of its words is a business suffix when
    [removeSuffixes] is set. *)
Theorem normalized_name_shape (x : jsstring) (cfg : DeduplicationConfig) :
  let r := Normalizer.normalizeCompanyName x cfg in
  NormalForm.clean (removeNumbers cfg) r /\
  Forall (fun c => c = space \/
                   in_range 97 122 c = true \/ is_digit c = true \/ c = "_"%char) r /\
  (removeNumbers cfg = true -> Forall (fun c => is_digit c = false) r) /\
  (Types.removeSuffixes cfg = true ->
   forall w, In w (split_space r) -> str_mem w Normalizer.BUSINESS_SUFFIXES = false).
Proof.
  intros r. subst r.
  pose proof (NormalizedFacts.normalized_clean x cfg) as Hc.
  split; [exact Hc|]. split; [|split].
  - destruct Hc as [Hall _]. eapply Forall_impl; [|exact Hall].
    intros c [->|H]; [now left | right].
    apply NormalizerFacts.plain_char_spec in H. destruct H as (Hw & Hu & _).
    unfold is_word in Hw. rewrite Hu in Hw. simpl in Hw.
    apply orb_true_iff in Hw. destruct Hw as [Hw|Hw].
    + apply orb_true_iff in Hw. destruct Hw as [Hw|Hw]; auto.
    + right; right. apply N.eqb_eq in Hw. apply TokenFacts.code_injective.
      rewrite Hw. reflexivity.
  - intros Hnum. destruct Hc as [Hall _]. eapply Forall_impl; [|exact Hall].
    intros c [->|H]; [reflexivity|].
    apply NormalizerFacts.plain_char_spec in H. now apply H.
  - intros Hsuf w Hw.
    rewrite NormalizerFacts.normalizeCompanyName_steps, Hsuf in Hw.
    eapply NormalizedFacts.removeSuffixes_no_suffix; [|exact Hw].
    apply NormalizerFacts.front_steps_clean.
Qed.

(** X16.  Names that differ only in letter case or in surrounding white
    space normalize to the same string. *)
Theorem normalization_ignores_case_and_margins (x : jsstring) (cfg : DeduplicationConfig) :
  Normalizer.normalizeCompanyName (toLowerCase x) cfg
    = Normalizer.normalizeCompanyName x cfg /\
  Normalizer.normalizeCompanyName (trim x) cfg
    = Normalizer.normalizeCompanyName x cfg.
Proof.
  unfold Normalizer.normalizeCompanyName. split.
  - now rewrite NormalizedFacts.toLowerCase_idempotent.
  - now rewrite <- NormalizedFacts.trim_toLowerCase, NormalizedFacts.trim_idempotent.
Qed.

(** ** The fuzzy signature and the geographic variant *)

Module SignatureFacts.

Import Normalizer NormalizerExtra.

Lemma length_join_firstn (l : list jsstring) :
  length (join [] (map (firstn 3) l)) <= 3 * length l.
Proof.
  induction l as [|w l IH]; [simpl; lia|].
  assert (Hw : length (firstn 3 w) <= 3) by (rewrite length_firstn; lia).
  cbn [map]. destruct (map (firstn 3) l) as [|w' l'] eqn:E.
  - cbn [join length]. lia.
  - cbn [join app] in *. rewrite length_app. cbn [length] in *. lia.
Qed.

Lemma filter_no_difference (t : list jsstring) :
  filter (fun token => negb (str_mem token t)) t = [].
Proof.
  assert (H : forall l, incl l t -> filter (fun token => negb (str_mem token t)) l = []).
  { induction l as [|x l IH]; intros Hi; [reflexivity|].
    simpl. rewrite (proj2 (str_mem_In x t)) by (apply Hi; now left).
    simpl. apply IH. intros y Hy. apply Hi. now right. }
  apply H, incl_refl.
Qed.

(** When the test for a one-sided difference succeeds, that difference has a
    first element, which is a geographic term. *)
Lemma only_geographic_witness (diffs : list jsstring) :
  Nat.ltb 0 (length diffs) &&
  forallb (fun diff => str_mem (toLowerCase diff) GEOGRAPHIC_TERMS) diffs = true ->
  exists t, In t diffs /\ In (toLowerCase t) GEOGRAPHIC_TERMS.
Proof.
  intros H. apply andb_true_iff in H. destruct H as [Hl Hall].
  destruct diffs as [|t l]; [discriminate|].
  exists t. split; [now left|].
  simpl in Hall. apply andb_true_iff in Hall. now apply str_mem_In.
Qed.

End SignatureFacts.

(** X17.  The fuzzy signature does not depend on the order of the words of
    the name, and it has at most three characters for each token. *)
Theorem createFuzzySignature_ignores_word_order (ws ws' : list jsstring) :
  Forall (Forall (fun c => ascii_eqb c space = false)) ws ->
  Permutation ws ws' ->
  NormalizerExtra.createFuzzySignature (join [space] ws)
    = NormalizerExtra.createFuzzySignature (join [space] ws') /\
  length (NormalizerExtra.createFuzzySignature (join [space] ws))
    <= 3 * length (Normalizer.extractTokens (join [space] ws)).
Proof.
  intros Hws Hp. unfold NormalizerExtra.createFuzzySignature. cbv zeta.
  rewrite (TokenFacts.tokens_ignore_order Hws Hp). split; [reflexivity|].
  rewrite <- (TokenFacts.tokens_ignore_order Hws Hp).
  eapply Nat.le_trans; [apply SignatureFacts.length_join_firstn|].
  apply Nat.mul_le_mono_l, filter_length_le.
Qed.

Lemma createFuzzySignature_ignores_word_order_witness :
  (Forall (Forall (fun c => ascii_eqb c space = false))
          [Examples.ubisoft; str "montreal"] /\
   Permutation [Examples.ubisoft; str "montreal"] [str "montreal"; Examples.ubisoft]) /\
  NormalizerExtra.createFuzzySignature (join [space] [Examples.ubisoft; str "montreal"])
  = NormalizerExtra.createFuzzySignature (join [space] [str "montreal"; Examples.ubisoft]).
Proof.
  assert (H1 : Forall (Forall (fun c => ascii_eqb c space = false))
                 [Examples.ubisoft; str "montreal"])
    by (repeat constructor).
  assert (H2 : Permutation [Examples.ubisoft; str "montreal"]
                           [str "montreal"; Examples.ubisoft])
    by apply perm_swap.
  split; [split; assumption|].
  exact (proj1 (createFuzzySignature_ignores_word_order H1 H2)).
Defined.

(** X18.  The geographic-variant test is symmetric, it fails for a name
    against itself, and when it succeeds some piece of one name (after
    lowercasing) is a geographic term that is not a piece of the other. *)
Theorem isLikelyGeographicVariant_sound (n1 n2 : jsstring) :
  Normalizer.isLikelyGeographicVariant n1 n2 = Normalizer.isLikelyGeographicVariant n2 n1 /\
  Normalizer.isLikelyGeographicVariant n1 n1 = false /\
  (Normalizer.isLikelyGeographicVariant n1 n2 = true ->
   exists t, In (toLowerCase t) Normalizer.GEOGRAPHIC_TERMS /\
     ((In t (split_space (toLowerCase n1)) /\ ~ In t (split_space (toLowerCase n2))) \/
      (In t (split_space (toLowerCase n2)) /\ ~ In t (split_space (toLowerCase n1))))).
Proof.
  unfold Normalizer.isLikelyGeographicVariant. cbv zeta.
  split; [apply orb_comm|]. split.
  - rewrite SignatureFacts.filter_no_difference. reflexivity.
  - intros H. apply orb_true_iff in H.
    destruct H as [H|H]; apply SignatureFacts.only_geographic_witness in H;
      destruct H as [t [Ht Hg]]; exists t; (split; [exact Hg|]);
      apply filter_In in Ht; destruct Ht as [Hin Hout];
      apply negb_true_iff, str_mem_not_In in Hout;
      rewrite set_of_In in Hin, Hout; [left | right]; split; assumption.
Qed.

(** ** Building and replacing the configuration *)

Module ConfigMoreFacts.

Import Config.

Lemma validateConfig_nil_iff (cfg : DeduplicationConfig) :
  validateConfig cfg = [] <->
  (0 <= highSimilarityThreshold cfg <= 1)%Q /\
  (0 <= tokenMatchThreshold cfg <= 1)%Q /\
  (0 <= partialMatchThreshold cfg <= 1)%Q /\
  (0 <= minConfidenceScore cfg <= 1)%Q /\
  (0 < maxResultsPerCompany cfg)%Z.
Proof.
  split.
  - intros H.
    assert (Hno : forall msg, ~ In msg (validateConfig cfg)) by (rewrite H; auto).
    repeat split;
      try (apply Qnot_lt_le; intros Hlt;
           match goal with
           | |- False =>
               first
                 [ apply (Hno "highSimilarityThreshold must be between 0 and 1"%string);
                   apply In_validateConfig; tauto
                 | apply (Hno "tokenMatchThreshold must be between 0 and 1"%string);
                   apply In_validateConfig; tauto
                 | apply (Hno "partialMatchThreshold must be between 0 and 1"%string);
                   apply In_validateConfig; tauto
                 | apply (Hno "minConfidenceScore must be between 0 and 1"%string);
                   apply In_validateConfig; tauto ]
           end).
    apply Z.nle_gt. intros Hle.
    apply (Hno "maxResultsPerCompany must be > 0"%string).
    apply In_validateConfig. tauto.
  - intros (H1 & H2 & H3 & H4 & H5).
    destruct (validateConfig cfg) as [|e l] eqn:E; [reflexivity|].
    assert (Hin : In e (validateConfig cfg)) by (rewrite E; now left).
    apply In_validateConfig in Hin.
    exfalso. decompose [and or] Hin; try lra; lia.
Qed.

Lemma presets_valid (preset : ConfigPreset) : validateConfig (CONFIG_PRESETS preset) = [].
Proof. destruct preset; reflexivity. Qed.

End ConfigMoreFacts.

(** X19.  A configuration built from a preset and overrides passes
    validation exactly when every overridden threshold is a number of [0,1]
    or NaN and an overridden limit is a positive number, infinite or NaN;
    without overrides it is the preset itself, which passes. *)
Theorem createConfig_valid_iff (preset : ConfigPreset) (overrides : RawConfig.partial) :
  (RawConfig.validateConfig (RawConfig.createConfig preset overrides) = [] <->
   RawConfig.override_passes RawConfig.threshold_passes
     (RawConfig.override_highSimilarityThreshold overrides) /\
   RawConfig.override_passes RawConfig.threshold_passes
     (RawConfig.override_tokenMatchThreshold overrides) /\
   RawConfig.override_passes RawConfig.threshold_passes
     (RawConfig.override_partialMatchThreshold overrides) /\
   RawConfig.override_passes RawConfig.threshold_passes
     (RawConfig.override_minConfidenceScore overrides) /\
   RawConfig.override_passes RawConfig.limit_passes
     (RawConfig.override_maxResultsPerCompany overrides)) /\
  RawConfig.createConfig preset RawConfig.no_overrides = RawConfig.CONFIG_PRESETS preset /\
  RawConfig.validateConfig (RawConfig.CONFIG_PRESETS preset) = [].
Proof.
  split; [|split; [destruct preset; reflexivity | apply RawConfigFacts.presets_pass]].
  rewrite RawConfigFacts.validateConfig_passes_iff.
  pose proof (proj1 (RawConfigFacts.validateConfig_passes_iff (RawConfig.CONFIG_PRESETS preset))
                    (RawConfigFacts.presets_pass preset)) as (P1 & P2 & P3 & P4 & P5).
  destruct overrides as [hs tm pm rs ha rn mc mx].
  unfold RawConfig.createConfig, ConfigExtra.spread, RawConfig.override_passes.
  cbn [RawConfig.highSimilarityThreshold RawConfig.tokenMatchThreshold
       RawConfig.partialMatchThreshold RawConfig.minConfidenceScore
       RawConfig.maxResultsPerCompany
       RawConfig.override_highSimilarityThreshold RawConfig.override_tokenMatchThreshold
       RawConfig.override_partialMatchThreshold RawConfig.override_minConfidenceScore
       RawConfig.override_maxResultsPerCompany].
  destruct hs, tm, pm, mc, mx; tauto.
Qed.

Module MethodFacts.

Import Deduplicator DeduplicatorMethods.

Lemma constructor_valid (cfg : DeduplicationConfig) (d : CompanyDeduplicator) :
  constructor cfg = Returns d -> Config.validateConfig (config d) = [].
Proof.
  unfold constructor. destruct (Config.validateConfig cfg) eqn:E; simpl; [|discriminate].
  intros H. inversion H; subst. exact E.
Qed.

Lemma setConfig_valid (self : CompanyDeduplicator) (newCfg : DeduplicationConfig) :
  Config.validateConfig (config self) = [] ->
  Config.validateConfig (config (fst (setConfig self newCfg))) = [].
Proof.
  intros H. unfold setConfig.
  destruct (Config.validateConfig newCfg) eqn:E; simpl; assumption.
Qed.

Lemma perform_valid (self : CompanyDeduplicator) (c : call) :
  Config.validateConfig (config self) = [] ->
  Config.validateConfig (config (perform self c)) = [].
Proof. destruct c; apply setConfig_valid. Qed.

Lemma perform_all_valid (calls : list call) :
  forall self, Config.validateConfig (config self) = [] ->
               Config.validateConfig (config (perform_all self calls)) = [].
Proof.
  unfold perform_all. induction calls as [|c calls IH]; intros self H; [exact H|].
  simpl. apply IH. now apply perform_valid.
Qed.

End MethodFacts.

(** X20.  The configuration held by a deduplicator is always valid: it is so
    after a construction that returns, and it stays so through any sequence
    of [setConfig] and [usePreset] calls, whether they return or throw. *)
Theorem held_configuration_is_valid (cfg : DeduplicationConfig)
    (d : Deduplicator.CompanyDeduplicator) (calls : list DeduplicatorMethods.call) :
  Deduplicator.constructor cfg = Deduplicator.Returns d ->
  Config.validateConfig
    (DeduplicatorMethods.getConfig (DeduplicatorMethods.perform_all d calls)) = [].
Proof.
  intros H. apply MethodFacts.perform_all_valid.
  eapply MethodFacts.constructor_valid. exact H.
Qed.

Lemma held_configuration_is_valid_witness :
  Deduplicator.constructor Examples.balanced_config
    = Deduplicator.Returns (Deduplicator.mkDeduplicator Examples.balanced_config) /\
  Config.validateConfig
    (DeduplicatorMethods.getConfig
       (DeduplicatorMethods.perform_all
          (Deduplicator.mkDeduplicator Examples.balanced_config)
          [DeduplicatorMethods.CallSetConfig (Examples.token_config (-1));
           DeduplicatorMethods.CallUsePreset aggressive Partial.empty])) = [].
Proof.
  assert (H : Deduplicator.constructor Examples.balanced_config
              = Deduplicator.Returns (Deduplicator.mkDeduplicator Examples.balanced_config))
    by reflexivity.
  split; [exact H|].
  exact (@held_configuration_is_valid _ _ _ H).
Defined.

(** ** The clustering loop: coverage and order *)

Module ClusterMoreFacts.

Import Matcher Deduplicator OrderFacts.

Lemma before_app_left (A : Type) (l r : list A) (x y : A) :
  before l x y -> before (l ++ r) x y.
Proof.
  induction 1 as [x y l H | z x y l H IH]; simpl.
  - apply before_here. apply in_or_app. now left.
  - now apply before_later.
Qed.

Lemma before_last (A : Type) (l : list A) (x z : A) :
  In x l -> before (l ++ [z]) x z.
Proof.
  induction l as [|w l IH]; intros H; [destruct H|].
  destruct H as [->|H]; simpl.
  - apply before_here. apply in_or_app. right. now left.
  - apply before_later. now apply IH.
Qed.

Lemma coverage_step (U : list jsstring) (cfg : DeduplicationConfig)
    (visited : list jsstring) (state : list jsstring * list DuplicateGroup)
    (company : jsstring) :
  cluster_invariant U cfg visited state ->
  cluster_coverage U cfg visited state ->
  cluster_coverage U cfg (visited ++ [company]) (dedup_step U cfg state company).
Proof.
  destruct state as [processed groups].
  intros (Hvis & _) (Hcov & Hin & Hsize & Hord).
  unfold dedup_step.
  destruct (str_mem company processed) eqn:Eproc.
  { apply str_mem_In in Eproc. unfold cluster_coverage.
    split; [|split; [|split]]; try assumption.
    - intros x Hx. apply in_app_or in Hx. destruct Hx as [Hx|[<-|[]]]; auto.
    - intros g1 g2 Hb. apply before_app_left. now apply Hord. }
  destruct (findAllMatches company U cfg) as [|m0 ms] eqn:Em.
  { simpl. split; [|split; [|split]]; try assumption.
    - intros x Hx. apply in_app_or in Hx. destruct Hx as [Hx|[<-|[]]]; auto.
    - intros g1 g2 Hb. apply before_app_left. now apply Hord. }
  cbn [length Nat.ltb Nat.leb].
  set (g0 := {| group_original := company;
                duplicates := m0 :: ms;
                totalMatches := S (length ms) |}).
  unfold cluster_coverage. split; [|split; [|split]].
  - intros x Hx. apply in_app_or in Hx. destruct Hx as [Hx|[<-|[]]].
    + destruct (Hcov x Hx) as [Hp|He]; [left | now right].
      apply In_mark_candidates. left. apply In_set_add. now left.
    + left. apply In_mark_candidates. left. apply In_set_add. now right.
  - intros x Hx. apply In_mark_candidates in Hx. destruct Hx as [Hx|Hx].
    + apply In_set_add in Hx. destruct Hx as [Hx| ->].
      * destruct (Hin x Hx) as [g [Hg Hx']]. exists g.
        split; [apply in_or_app; now left | assumption].
      * exists g0. split; [apply in_or_app; right; now left | now left].
    + exists g0. split; [apply in_or_app; right; now left | now right].
  - intros g Hg. apply in_app_or in Hg. destruct Hg as [Hg|[<-|[]]];
      [now apply Hsize | split; [discriminate | reflexivity]].
  - intros g1 g2 Hb. apply before_app_last in Hb.
    destruct Hb as [Hb|[-> Hg1]].
    + apply before_app_left. now apply Hord.
    + apply before_last. now apply Hvis.
Qed.

Lemma coverage_loop (U : list jsstring) (cfg : DeduplicationConfig)
    (rest : list jsstring) :
  forall visited state,
    NoDup (visited ++ rest) ->
    cluster_invariant U cfg visited state ->
    cluster_coverage U cfg visited state ->
    cluster_invariant U cfg (visited ++ rest) (fold_left (dedup_step U cfg) rest state) /\
    cluster_coverage U cfg (visited ++ rest) (fold_left (dedup_step U cfg) rest state).
Proof.
  induction rest as [|x rest IH]; intros visited state Hnd Hinv Hcov; simpl.
  - rewrite app_nil_r. now split.
  - replace (visited ++ x :: rest) with ((visited ++ [x]) ++ rest)
      by (now rewrite <- app_assoc).
    apply IH; [now rewrite <- app_assoc | | now apply coverage_step].
    apply dedup_step_invariant; [|assumption].
    apply NoDup_remove_2 in Hnd. intros H. apply Hnd. apply in_or_app. now left.
Qed.

(** The unique list: the trimmed, non-blank names of the input, each once. *)
Lemma In_unique (companies : list jsstring) (x : jsstring) :
  In x (set_of (filter Normalizer.nonempty (map trim companies))) <->
  x <> [] /\ exists raw, In raw companies /\ trim raw = x.
Proof.
  rewrite set_of_In, filter_In, in_map_iff. split.
  - intros [[raw [Hr Hin]] Hne]. split; [|now exists raw].
    intros ->. discriminate.
  - intros [Hne [raw [Hin Hr]]]. split; [now exists raw|].
    destruct x; [exfalso; now apply Hne | reflexivity].
Qed.

(** The final state of the loop of [findDuplicates]. *)
Lemma findDuplicates_state (self : CompanyDeduplicator) (companies : list jsstring) :
  exists processed,
    let U := set_of (filter Normalizer.nonempty (map trim companies)) in
    let state := (processed, duplicateGroups (findDuplicates self companies)) in
    cluster_invariant U (config self) U state /\
    cluster_coverage U (config self) U state.
Proof.
  unfold findDuplicates.
  set (U := set_of (filter Normalizer.nonempty (map trim companies))).
  pose proof (coverage_loop U (config self) U [] ([], [])) as H.
  simpl app in H.
  destruct (fold_left (dedup_step U (config self)) U ([], [])) as [processed groups].
  exists processed. simpl. apply H.
  - apply set_of_NoDup.
  - unfold cluster_invariant. split; [intros g []|].
    split; [constructor|]. split; [intros g []|]. split; [intros g []|].
    intros g1 g2 Hb. inversion Hb.
  - unfold cluster_coverage. split; [intros x []|].
    split; [intros x []|]. split; [intros g []|].
    intros g1 g2 Hb. inversion Hb.
Qed.

End ClusterMoreFacts.

(** X21.  Every group of the result is well formed: its representative is
    a trimmed, non-blank name of the input, its members are what the matcher
    returns for the representative against all the unique names, there is at
    least one member, [totalMatches] counts them, and every member's
    candidate is another such name. *)
Theorem findDuplicates_group_shape (self : Deduplicator.CompanyDeduplicator)
    (companies : list jsstring) (g : DuplicateGroup) :
  In g (Deduplicator.duplicateGroups (Deduplicator.findDuplicates self companies)) ->
  let U := set_of (filter Normalizer.nonempty (map trim companies)) in
  (group_original g <> [] /\
   exists raw, In raw companies /\ trim raw = group_original g) /\
  duplicates g = Matcher.findAllMatches (group_original g) U (Deduplicator.config self) /\
  duplicates g <> [] /\
  totalMatches g = length (duplicates g) /\
  (forall c, In c (map candidate (duplicates g)) ->
     c <> group_original g /\ c <> [] /\ exists raw, In raw companies /\ trim raw = c).
Proof.
  intros Hg U.
  destruct (ClusterMoreFacts.findDuplicates_state self companies)
    as [processed [Hinv Hcov]].
  cbv zeta in Hinv, Hcov. fold U in Hinv, Hcov.
  destruct Hinv as (Hvis & _ & Hdup & _). destruct Hcov as (_ & _ & Hsize & _).
  split; [apply ClusterMoreFacts.In_unique; now apply Hvis|].
  split; [now apply Hdup|]. split; [now apply Hsize|]. split; [now apply Hsize|].
  intros c Hc. rewrite (Hdup g Hg) in Hc. apply in_map_iff in Hc.
  destruct Hc as [m [<- Hm]]. apply findAllMatches_sub in Hm. destruct Hm as [Hv _].
  apply MapFacts.values_best_map in Hv.
  pose proof (ConfidenceFacts.combined_matches_shape _ _ _ _ Hv) as (_ & HinU & Hne & _).
  split; [assumption|]. now apply ClusterMoreFacts.In_unique.
Qed.

Lemma findDuplicates_group_shape_witness :
  In (mkGroup Examples.ubisoft_montreal [Examples.exact_inc_match] 1)
     (Deduplicator.duplicateGroups
        (Deduplicator.findDuplicates
           (Deduplicator.mkDeduplicator Examples.balanced_config)
           [Examples.ubisoft_montreal; Examples.ubisoft_montreal_inc])) /\
  totalMatches (mkGroup Examples.ubisoft_montreal [Examples.exact_inc_match] 1)
  = length (duplicates (mkGroup Examples.ubisoft_montreal [Examples.exact_inc_match] 1)).
Proof.
  assert (H : In (mkGroup Examples.ubisoft_montreal [Examples.exact_inc_match] 1)
                 (Deduplicator.duplicateGroups
                    (Deduplicator.findDuplicates
                       (Deduplicator.mkDeduplicator Examples.balanced_config)
                       [Examples.ubisoft_montreal; Examples.ubisoft_montreal_inc])))
    by (vm_compute; left; reflexivity).
  split; [exact H|].
  exact (proj1 (proj2 (proj2 (proj2 (@findDuplicates_group_shape _ _ _ H))))).
Defined.

(** X22.  No name with a match is left out: a unique name for which the
    matcher finds at least one match against the unique names is the
    representative of a group or a member of one. *)
Theorem findDuplicates_covers_matched_names (self : Deduplicator.CompanyDeduplicator)
    (companies : list jsstring) (x : jsstring) :
  In x (set_of (filter Normalizer.nonempty (map trim companies))) ->
  Matcher.findAllMatches x (set_of (filter Normalizer.nonempty (map trim companies)))
                         (Deduplicator.config self) <> [] ->
  exists g,
    In g (Deduplicator.duplicateGroups (Deduplicator.findDuplicates self companies)) /\
    (x = group_original g \/ In x (map candidate (duplicates g))).
Proof.
  intros Hx Hm.
  destruct (ClusterMoreFacts.findDuplicates_state self companies)
    as [processed [_ Hcov]].
  cbv zeta in Hcov. destruct Hcov as (Hcov & Hin & _).
  destruct (Hcov x Hx) as [Hp|He]; [now apply Hin | contradiction].
Qed.

Lemma findDuplicates_covers_matched_names_witness :
  (In Examples.ubisoft_montreal_inc
      (set_of (filter Normalizer.nonempty
                 (map trim [Examples.ubisoft_montreal; Examples.ubisoft_montreal_inc]))) /\
   Matcher.findAllMatches Examples.ubisoft_montreal_inc
     (set_of (filter Normalizer.nonempty
                (map trim [Examples.ubisoft_montreal; Examples.ubisoft_montreal_inc])))
     (Deduplicator.config (Deduplicator.mkDeduplicator Examples.balanced_config)) <> []) /\
  exists g,
    In g (Deduplicator.duplicateGroups
            (Deduplicator.findDuplicates
               (Deduplicator.mkDeduplicator Examples.balanced_config)
               [Examples.ubisoft_montreal; Examples.ubisoft_montreal_inc])) /\
    (Examples.ubisoft_montreal_inc = group_original g \/
     In Examples.ubisoft_montreal_inc (map candidate (duplicates g))).
Proof.
  assert (H1 : In Examples.ubisoft_montreal_inc
                  (set_of (filter Normalizer.nonempty
                             (map trim [Examples.ubisoft_montreal;
                                        Examples.ubisoft_montreal_inc]))))
    by (vm_compute; right; left; reflexivity).
  assert (H2 : Matcher.findAllMatches Examples.ubisoft_montreal_inc
                 (set_of (filter Normalizer.nonempty
                            (map trim [Examples.ubisoft_montreal;
                                       Examples.ubisoft_montreal_inc])))
                 (Deduplicator.config
                    (Deduplicator.mkDeduplicator Examples.balanced_config)) <> [])
    by (vm_compute; discriminate).
  split; [split; assumption|].
  exact (@findDuplicates_covers_matched_names _ _ _ H1 H2).
Defined.

(** X23.  The groups come in input order: of two groups the one listed first
    has the representative that comes first among the unique names. *)
Theorem findDuplicates_groups_in_input_order (self : Deduplicator.CompanyDeduplicator)
    (companies : list jsstring) (g1 g2 : DuplicateGroup) :
  before (Deduplicator.duplicateGroups (Deduplicator.findDuplicates self companies)) g1 g2 ->
  before (set_of (filter Normalizer.nonempty (map trim companies)))
         (group_original g1) (group_original g2).
Proof.
  intros Hb.
  destruct (ClusterMoreFacts.findDuplicates_state self companies)
    as [processed [_ Hcov]].
  cbv zeta in Hcov. destruct Hcov as (_ & _ & _ & Hord). now apply Hord.
Qed.

Lemma findDuplicates_groups_in_input_order_witness :
  before ClusterExamples.chain_groups
         (nth 0 ClusterExamples.chain_groups ClusterExamples.no_group)
         (nth 1 ClusterExamples.chain_groups ClusterExamples.no_group) /\
  before (set_of (filter Normalizer.nonempty
                    (map trim [Examples.chain_first; Examples.chain_middle;
                               Examples.chain_last])))
         (group_original (nth 0 ClusterExamples.chain_groups ClusterExamples.no_group))
         (group_original (nth 1 ClusterExamples.chain_groups ClusterExamples.no_group)).
Proof.
  assert (H : before ClusterExamples.chain_groups
                (nth 0 ClusterExamples.chain_groups ClusterExamples.no_group)
                (nth 1 ClusterExamples.chain_groups ClusterExamples.no_group))
    by (vm_compute; apply before_here; left; reflexivity).
  split; [exact H|].
  exact (@findDuplicates_groups_in_input_order
           (Deduplicator.mkDeduplicator Examples.balanced_config)
           [Examples.chain_first; Examples.chain_middle; Examples.chain_last] _ _ H).
Defined.

(** X24.  [totalCompanies] counts the distinct trimmed non-blank names of
    the input, so it is at most the size of the input, and there are at most
    that many groups; an input of blank names only gives no group. *)
Theorem findDuplicates_counts (self : Deduplicator.CompanyDeduplicator)
    (companies : list jsstring) :
  let result := Deduplicator.findDuplicates self companies in
  Deduplicator.totalCompanies result
    = length (set_of (filter Normalizer.nonempty (map trim companies))) /\
  Deduplicator.totalCompanies result <= length companies /\
  length (Deduplicator.duplicateGroups result) <= Deduplicator.totalCompanies result /\
  (Forall (fun raw => trim raw = []) companies ->
   Deduplicator.totalCompanies result = 0 /\ Deduplicator.duplicateGroups result = []).
Proof.
  cbv zeta.
  set (U := set_of (filter Normalizer.nonempty (map trim companies))).
  assert (Htotal : Deduplicator.totalCompanies (Deduplicator.findDuplicates self companies)
                   = length U).
  { unfold Deduplicator.findDuplicates. fold U.
    destruct (fold_left _ U ([], [])) as [processed groups]. reflexivity. }
  assert (Hgroups : length (Deduplicator.duplicateGroups
                              (Deduplicator.findDuplicates self companies)) <= length U).
  { destruct (ClusterMoreFacts.findDuplicates_state self companies)
      as [processed [Hinv _]].
    cbv zeta in Hinv. fold U in Hinv. destruct Hinv as (Hvis & Hnd & _).
    rewrite <- (length_map group_original).
    apply NoDup_incl_length; [exact Hnd|].
    intros x Hx. apply in_map_iff in Hx. destruct Hx as [g [<- Hg]]. now apply Hvis. }
  rewrite Htotal. split; [reflexivity|]. split; [|split; [exact Hgroups|]].
  - subst U.
    apply Nat.le_trans
      with (length (filter Normalizer.nonempty (map trim companies))).
    + apply NoDup_incl_length; [apply set_of_NoDup|].
      intros x Hx. now apply set_of_In.
    + rewrite <- (length_map trim companies). apply filter_length_le.
  - intros Hblank.
    assert (Hnone : filter Normalizer.nonempty (map trim companies) = []).
    { clear -Hblank. induction Hblank as [|raw l Hr Hl IH]; [reflexivity|].
      simpl. rewrite Hr. simpl. exact IH. }
    assert (HU : U = []) by (subst U; now rewrite Hnone).
    rewrite HU in *. split; [reflexivity|].
    destruct (Deduplicator.duplicateGroups (Deduplicator.findDuplicates self companies));
      [reflexivity | simpl in Hgroups; lia].
Qed.

(** ** The file reader *)

Module FileReaderFacts.

Import FileReader.

Lemma CR_is_space : is_space CR = true.
Proof. reflexivity. Qed.

Lemma split_lines_cons (c : ascii) (t : jsstring) :
  split_lines (c :: t) =
  if ascii_eqb c LF then [] :: split_lines t
  else match t with
       | d :: t' =>
           if ascii_eqb c CR && ascii_eqb d LF then [] :: split_lines t'
           else cons_first c (split_lines t)
       | [] => [[c]]
       end.
Proof. reflexivity. Qed.

Lemma not_LF (c : ascii) (t : jsstring) :
  ~ In LF (c :: t) -> ascii_eqb c LF = false /\ ~ In LF t.
Proof.
  intros H. split.
  - apply Ascii.eqb_neq. intros ->. apply H. now left.
  - intros Ht. apply H. now right.
Qed.

Lemma split_lines_single (l : jsstring) : ~ In LF l -> split_lines l = [l].
Proof.
  induction l as [|c t IH]; intros Hl; [reflexivity|].
  destruct (@not_LF _ _ Hl) as [Hc Ht].
  rewrite split_lines_cons, Hc. destruct t as [|d t']; [reflexivity|].
  destruct (@not_LF _ _ Ht) as [Hd _].
  rewrite Hd, andb_false_r, (IH Ht). reflexivity.
Qed.

(** The first piece ends at the first line feed; a carriage return before
    it is dropped. *)
Lemma split_lines_line (l rest : jsstring) :
  ~ In LF l ->
  exists l', split_lines (l ++ LF :: rest) = l' :: split_lines rest /\
             (l = l' \/ l = l' ++ [CR]).
Proof.
  induction l as [|c t IH]; intros Hl.
  - exists []. split; [reflexivity | now left].
  - destruct (@not_LF _ _ Hl) as [Hc Ht].
    destruct (IH Ht) as [l' [E Hl']].
    change ((c :: t) ++ LF :: rest) with (c :: (t ++ LF :: rest)).
    rewrite split_lines_cons, Hc.
    destruct t as [|d t'].
    + cbn [app]. change (ascii_eqb LF LF) with true. rewrite andb_true_r.
      destruct (ascii_eqb c CR) eqn:Ecr.
      * apply Ascii.eqb_eq in Ecr. subst c. exists []. split; [reflexivity | now right].
      * exists [c]. split; [reflexivity | now left].
    + destruct (@not_LF _ _ Ht) as [Hd _].
      rewrite E. cbn [app]. rewrite Hd, andb_false_r.
      exists (c :: l'). split; [reflexivity|].
      destruct Hl' as [Hl'|Hl']; rewrite Hl'; [now left | now right].
Qed.

Lemma cons_first_Forall (P : jsstring -> Prop) (c : ascii) (pieces : list jsstring) :
  (forall w, P w -> P (c :: w)) -> P [c] ->
  Forall P pieces -> Forall P (cons_first c pieces).
Proof.
  intros Hstep Hone Hall. destruct Hall as [|w ws Hw Hws]; simpl.
  - now repeat constructor.
  - constructor; [now apply Hstep | assumption].
Qed.

Lemma split_lines_no_LF_upto (n : nat) :
  forall s, length s <= n -> Forall (fun l => ~ In LF l) (split_lines s).
Proof.
  induction n as [|n IH]; intros s Hs.
  - destruct s; [|simpl in Hs; lia]. repeat constructor. intros [].
  - destruct s as [|c t]; [repeat constructor; intros []|].
    simpl in Hs. rewrite split_lines_cons.
    destruct (ascii_eqb c LF) eqn:Ec.
    + constructor; [intros []|]. apply IH. lia.
    + apply Ascii.eqb_neq in Ec.
      assert (Hone : ~ In LF [c]) by (intros [H|[]]; now apply Ec).
      destruct t as [|d t']; [now repeat constructor|].
      destruct (ascii_eqb c CR && ascii_eqb d LF).
      * constructor; [intros []|]. apply IH. simpl in Hs. lia.
      * apply cons_first_Forall; [|assumption|apply IH; lia].
        intros w Hw [H|H]; [now apply Ec | now apply Hw].
Qed.

Lemma split_lines_no_LF (s : jsstring) : Forall (fun l => ~ In LF l) (split_lines s).
Proof. now apply (@split_lines_no_LF_upto (length s)). Qed.

Lemma trimEnd_snoc_space (s : jsstring) (c : ascii) :
  is_space c = true -> trimEnd (s ++ [c]) = trimEnd s.
Proof.
  intros Hc. induction s as [|x s IH]; simpl; [now rewrite Hc|].
  now rewrite IH.
Qed.

Lemma trimStart_snoc (s : jsstring) (c : ascii) :
  is_space c = true ->
  trimStart (s ++ [c]) = trimStart s ++ [c] \/
  (trimStart s = [] /\ trimStart (s ++ [c]) = []).
Proof.
  intros Hc. induction s as [|x s IH]; simpl.
  - right. now rewrite Hc.
  - destruct (is_space x); [exact IH | now left].
Qed.

Lemma trim_snoc_space (s : jsstring) (c : ascii) :
  is_space c = true -> trim (s ++ [c]) = trim s.
Proof.
  intros Hc. unfold trim.
  destruct (@trimStart_snoc s c Hc) as [E|[E1 E2]].
  - rewrite E. now apply trimEnd_snoc_space.
  - now rewrite E1, E2.
Qed.

Lemma trim_no_LF (l : jsstring) : ~ In LF l -> ~ In LF (trim l).
Proof.
  intros Hl. unfold trim.
  assert (H : Forall (fun c => c <> LF) l).
  { apply Forall_forall. intros c Hc ->. now apply Hl. }
  apply NormalizerFacts.trimStart_Forall in H.
  apply NormalizerFacts.trimEnd_Forall in H.
  rewrite Forall_forall in H. intros Hin. now apply (H LF Hin).
Qed.

(** Lines joined by LF or by CR LF are read back trimmed, blank ones dropped. *)
Lemma read_joined (pre : jsstring) (ls : list jsstring) :
  pre = [] \/ pre = [CR] ->
  Forall (fun l => ~ In LF l) ls ->
  filter Normalizer.nonempty (map trim (split_lines (join (pre ++ [LF]) ls)))
  = filter Normalizer.nonempty (map trim ls).
Proof.
  intros Hpre Hls. induction Hls as [|w ls Hw Hls IH]; [reflexivity|].
  destruct ls as [|w' ls'].
  - cbn [join]. now rewrite (@split_lines_single _ Hw).
  - change (join (pre ++ [LF]) (w :: w' :: ls'))
      with (w ++ (pre ++ [LF]) ++ join (pre ++ [LF]) (w' :: ls')).
    rewrite <- app_assoc. rewrite app_assoc.
    change ([LF] ++ join (pre ++ [LF]) (w' :: ls'))
      with (LF :: join (pre ++ [LF]) (w' :: ls')).
    assert (Hwp : ~ In LF (w ++ pre)).
    { intros H. apply in_app_or in H. destruct H as [H|H]; [now apply Hw|].
      destruct Hpre as [-> | ->]; [destruct H | destruct H as [H|[]]; discriminate]. }
    destruct (@split_lines_line _ (join (pre ++ [LF]) (w' :: ls')) Hwp) as [l' [E Hl']].
    rewrite E. cbn [map]. 
    assert (Ht : trim l' = trim w).
    { destruct Hpre as [-> | ->]; rewrite ?app_nil_r in Hl'.
      - destruct Hl' as [->| ->]; [reflexivity|].
        symmetry. apply trim_snoc_space, CR_is_space.
      - destruct Hl' as [<- |Hl']; [apply trim_snoc_space, CR_is_space|].
        apply app_inj_tail in Hl'. destruct Hl' as [-> _]. reflexivity. }
    rewrite Ht. cbn [filter]. rewrite IH. reflexivity.
Qed.

Lemma read_lines_shape (content : jsstring) :
  Forall (fun r => r <> [] /\ trim r = r /\ ~ In LF r)
         (filter Normalizer.nonempty (map trim (split_lines content))).
Proof.
  apply Forall_forall. intros r Hr. apply filter_In in Hr. destruct Hr as [Hr Hne].
  apply in_map_iff in Hr. destruct Hr as [l [<- Hl]].
  split; [intros E; rewrite E in Hne; discriminate|].
  split; [apply NormalizedFacts.trim_idempotent|].
  apply trim_no_LF.
  pose proof (split_lines_no_LF content) as H. rewrite Forall_forall in H. now apply H.
Qed.

Lemma trimmed_names_fixed (names : list jsstring) :
  Forall (fun r => r <> [] /\ trim r = r) names ->
  filter Normalizer.nonempty (map trim names) = names.
Proof.
  induction 1 as [|r names [Hne Ht] _ IH]; [reflexivity|].
  cbn [map filter]. rewrite Ht, IH. destruct r; [now contradiction Hne | reflexivity].
Qed.

End FileReaderFacts.

(** X25.  Every name the reader returns is non-empty, has no white space at
    either end and contains no line feed. *)
Theorem readCompanyNamesFromFile_names (resolve : jsstring -> jsstring)
    (fs : FileReader.filesystem) (filePath : jsstring) (names : list jsstring) :
  FileReader.readCompanyNamesFromFile resolve fs filePath = Deduplicator.Returns names ->
  Forall (fun r => r <> [] /\ trim r = r /\ ~ In FileReader.LF r) names.
Proof.
  unfold FileReader.readCompanyNamesFromFile.
  destruct (negb _); [discriminate|].
  destruct (FileReader.readFileSync fs (resolve filePath)) as [content|e];
    [|discriminate].
  intros H. inversion H; subst names. apply FileReaderFacts.read_lines_shape.
Qed.

Lemma readCompanyNamesFromFile_names_witness :
  FileReader.readCompanyNamesFromFile FileExamples.same_path FileExamples.crlf_disk
    (str "names.txt") = Deduplicator.Returns [str "Acme Inc"; str "Acme"] /\
  Forall (fun r => r <> [] /\ trim r = r /\ ~ In FileReader.LF r)
         [str "Acme Inc"; str "Acme"].
Proof.
  assert (H : FileReader.readCompanyNamesFromFile FileExamples.same_path
                FileExamples.crlf_disk (str "names.txt")
              = Deduplicator.Returns [str "Acme Inc"; str "Acme"])
    by (vm_compute; reflexivity).
  split; [exact H|].
  exact (@readCompanyNamesFromFile_names _ _ _ _ H).
Defined.

(** X26.  Line endings do not matter: a file whose content is a list of
    lines joined by LF, or by CR LF, is read back as those lines trimmed, the
    blank ones dropped. *)
Theorem readCompanyNamesFromFile_line_endings (resolve : jsstring -> jsstring)
    (fs : FileReader.filesystem) (filePath : jsstring) (ls : list jsstring) :
  Forall (fun l => ~ In FileReader.LF l) ls ->
  FileReader.existsSync fs (resolve filePath) = true ->
  FileReader.readFileSync fs (resolve filePath)
    = Deduplicator.Returns (join [FileReader.LF] ls) \/
  FileReader.readFileSync fs (resolve filePath)
    = Deduplicator.Returns (join [FileReader.CR; FileReader.LF] ls) ->
  FileReader.readCompanyNamesFromFile resolve fs filePath
    = Deduplicator.Returns (filter Normalizer.nonempty (map trim ls)).
Proof.
  intros Hls Hex Hread. unfold FileReader.readCompanyNamesFromFile.
  rewrite Hex. cbn [negb].
  destruct Hread as [-> | ->]; f_equal.
  - apply (@FileReaderFacts.read_joined [] ls); [now left | assumption].
  - apply (@FileReaderFacts.read_joined [FileReader.CR] ls); [now right | assumption].
Qed.

Lemma readCompanyNamesFromFile_line_endings_witness :
  (Forall (fun l => ~ In FileReader.LF l) FileExamples.three_lines /\
   FileReader.existsSync FileExamples.crlf_disk
     (FileExamples.same_path (str "names.txt")) = true /\
   (FileReader.readFileSync FileExamples.crlf_disk
      (FileExamples.same_path (str "names.txt"))
      = Deduplicator.Returns (join [FileReader.LF] FileExamples.three_lines) \/
    FileReader.readFileSync FileExamples.crlf_disk
      (FileExamples.same_path (str "names.txt"))
      = Deduplicator.Returns
          (join [FileReader.CR; FileReader.LF] FileExamples.three_lines))) /\
  FileReader.readCompanyNamesFromFile FileExamples.same_path FileExamples.crlf_disk
    (str "names.txt")
  = Deduplicator.Returns
      (filter Normalizer.nonempty (map trim FileExamples.three_lines)).
Proof.
  assert (H1 : Forall (fun l => ~ In FileReader.LF l) FileExamples.three_lines).
  { repeat constructor; vm_compute; intuition discriminate. }
  assert (H2 : FileReader.existsSync FileExamples.crlf_disk
                 (FileExamples.same_path (str "names.txt")) = true)
    by reflexivity.
  assert (H3 : FileReader.readFileSync FileExamples.crlf_disk
                 (FileExamples.same_path (str "names.txt"))
               = Deduplicator.Returns (join [FileReader.LF] FileExamples.three_lines) \/
               FileReader.readFileSync FileExamples.crlf_disk
                 (FileExamples.same_path (str "names.txt"))
               = Deduplicator.Returns
                   (join [FileReader.CR; FileReader.LF] FileExamples.three_lines))
    by (right; reflexivity).
  split; [split; [exact H1 | split; [exact H2 | exact H3]]|].
  exact (@readCompanyNamesFromFile_line_endings _ _ _ _ H1 H2 H3).
Defined.

(** X27.  On names read from a file the input cleaning of the deduplicator
    changes nothing: [totalCompanies] of [findDuplicates] is the number of
    distinct names read, and [findDuplicatesForCompany] matches against the
    names as read. *)
Theorem names_read_need_no_cleaning (resolve : jsstring -> jsstring)
    (fs : FileReader.filesystem) (filePath : jsstring) (names : list jsstring)
    (self : Deduplicator.CompanyDeduplicator) :
  FileReader.readCompanyNamesFromFile resolve fs filePath = Deduplicator.Returns names ->
  Deduplicator.totalCompanies (Deduplicator.findDuplicates self names)
    = length (set_of names) /\
  forall company,
    Deduplicator.findDuplicatesForCompany self company names
    = Matcher.findAllMatches company names (Deduplicator.config self).
Proof.
  unfold FileReader.readCompanyNamesFromFile.
  destruct (negb _); [discriminate|].
  destruct (FileReader.readFileSync fs (resolve filePath)) as [content|e];
    [|discriminate].
  intros H. injection H as Hn.
  assert (Hfix : filter Normalizer.nonempty (map trim names) = names).
  { apply FileReaderFacts.trimmed_names_fixed. rewrite <- Hn.
    eapply Forall_impl; [|apply FileReaderFacts.read_lines_shape].
    intros r (Hne & Ht & _). now split. }
  clear Hn.
  split.
  - unfold Deduplicator.findDuplicates. cbv zeta. rewrite Hfix.
    destruct (fold_left _ (set_of names) ([], [])) as [processed groups]. reflexivity.
  - intros company. unfold Deduplicator.findDuplicatesForCompany. cbv zeta.
    now rewrite Hfix.
Qed.

Lemma names_read_need_no_cleaning_witness :
  FileReader.readCompanyNamesFromFile FileExamples.same_path FileExamples.crlf_disk
    (str "names.txt") = Deduplicator.Returns [str "Acme Inc"; str "Acme"] /\
  Deduplicator.totalCompanies
    (Deduplicator.findDuplicates (Deduplicator.mkDeduplicator Examples.balanced_config)
       [str "Acme Inc"; str "Acme"])
  = length (set_of [str "Acme Inc"; str "Acme"]).
Proof.
  assert (H : FileReader.readCompanyNamesFromFile FileExamples.same_path
                FileExamples.crlf_disk (str "names.txt")
              = Deduplicator.Returns [str "Acme Inc"; str "Acme"])
    by (vm_compute; reflexivity).
  split; [exact H|].
  exact (proj1 (@names_read_need_no_cleaning _ _ _ _
                  (Deduplicator.mkDeduplicator Examples.balanced_config) H)).
Defined.

(** ** Matching one company against a list *)

Module SingleCompanyFacts.

Import Normalizer Matcher Deduplicator.

Lemma normalizeCompanyName_trim (x : jsstring) (cfg : DeduplicationConfig) :
  normalizeCompanyName (trim x) cfg = normalizeCompanyName x cfg.
Proof.
  unfold normalizeCompanyName.
  now rewrite <- NormalizedFacts.trim_toLowerCase, NormalizedFacts.trim_idempotent.
Qed.

(** A candidate with the normalized form of the query is returned with
    confidence 1 when the limit does not cut the list. *)
Lemma same_form_returned (q c : jsstring) (cs : list jsstring)
    (cfg : DeduplicationConfig) :
  In c cs -> c <> q ->
  normalizeCompanyName c cfg = normalizeCompanyName q cfg ->
  (minConfidenceScore cfg <= 1)%Q ->
  (Z.of_nat (length cs) <= maxResultsPerCompany cfg)%Z ->
  exists m, In m (findAllMatches q cs cfg) /\ candidate m = c /\ (confidence m == 1)%Q.
Proof.
  intros Hc Hne Hnorm Hmin Hmax.
  set (m0 := {| original := q; candidate := c; confidence := 1.000%Q;
                method := exact_after_normalization;
                normalizedOriginal := normalizeCompanyName q cfg;
                normalizedCandidate := normalizeCompanyName c cfg |}).
  assert (Hin0 : In m0 (combined_matches q cs cfg)).
  { unfold combined_matches. apply in_or_app. left.
    unfold findExactMatches. rewrite In_push_loop. exists c. split; [assumption|].
    apply str_eqb_neq in Hne. rewrite Hne.
    apply str_eqb_eq in Hnorm. rewrite Hnorm. reflexivity. }
  pose proof (ReconcileFacts.map_get_best_map (combined_matches q cs cfg) c) as Hbest.
  destruct (map_get c (best_map (combined_matches q cs cfg))) as [m|] eqn:Eg;
    [|exfalso; now apply (Hbest m0)].
  destruct Hbest as (Hin & Hcm & Hle).
  assert (H1 : (confidence m == 1)%Q).
  { pose proof (Hle m0 Hin0 eq_refl) as Hge. change (confidence m0) with 1.000%Q in Hge.
    pose proof (ConfidenceFacts.combined_matches_shape _ _ _ _ Hin) as (_ & _ & _ & _ & Hle1).
    assert (Hk : (1.000 == 1)%Q) by reflexivity. lra. }
  exists m. split; [|split; assumption].
  rewrite ReconcileFacts.findAllMatches_unsliced by assumption.
  eapply Permutation_in; [apply OrderFacts.js_sort_perm|].
  apply filter_In. split.
  - apply MapFacts.map_get_In in Eg. unfold map_values.
    change m with (snd (c, m)). now apply in_map.
  - apply Qle_bool_iff. lra.
Qed.

End SingleCompanyFacts.

(** X28.  [findDuplicatesForCompany] trims the candidates and not the
    company: a candidate whose trimmed form is non-empty, differs from the
    company as written and has its normalized form is returned under its
    trimmed form with confidence 1, when [minConfidenceScore] is at most 1
    and the limit is at least the number of candidates.  So a company written
    with surrounding white space matches its own trimmed copy. *)
Theorem findDuplicatesForCompany_trims_candidates_only
    (self : Deduplicator.CompanyDeduplicator) (company raw : jsstring)
    (candidates : list jsstring) :
  In raw candidates -> trim raw <> [] -> trim raw <> company ->
  Normalizer.normalizeCompanyName raw (Deduplicator.config self)
    = Normalizer.normalizeCompanyName company (Deduplicator.config self) ->
  (minConfidenceScore (Deduplicator.config self) <= 1)%Q ->
  (Z.of_nat (length candidates) <= maxResultsPerCompany (Deduplicator.config self))%Z ->
  exists m,
    In m (Deduplicator.findDuplicatesForCompany self company candidates) /\
    candidate m = trim raw /\ (confidence m == 1)%Q.
Proof.
  intros Hraw Hne Hdiff Hnorm Hmin Hmax.
  unfold Deduplicator.findDuplicatesForCompany.
  apply SingleCompanyFacts.same_form_returned; try assumption.
  - apply filter_In. split; [now apply in_map|].
    destruct (trim raw); [now contradiction Hne | reflexivity].
  - now rewrite SingleCompanyFacts.normalizeCompanyName_trim.
  - eapply Z.le_trans; [|exact Hmax]. apply Nat2Z.inj_le.
    eapply Nat.le_trans; [apply filter_length_le|]. now rewrite length_map.
Qed.

Lemma findDuplicatesForCompany_trims_candidates_only_witness :
  (In FileExamples.padded [FileExamples.padded] /\
   trim FileExamples.padded <> [] /\
   trim FileExamples.padded <> FileExamples.padded /\
   Normalizer.normalizeCompanyName FileExamples.padded
     (Deduplicator.config (Deduplicator.mkDeduplicator Examples.balanced_config))
   = Normalizer.normalizeCompanyName FileExamples.padded
       (Deduplicator.config (Deduplicator.mkDeduplicator Examples.balanced_config)) /\
   (minConfidenceScore
      (Deduplicator.config (Deduplicator.mkDeduplicator Examples.balanced_config)) <= 1)%Q /\
   (Z.of_nat (length [FileExamples.padded])
    <= maxResultsPerCompany
         (Deduplicator.config (Deduplicator.mkDeduplicator Examples.balanced_config)))%Z) /\
  exists m,
    In m (Deduplicator.findDuplicatesForCompany
            (Deduplicator.mkDeduplicator Examples.balanced_config)
            FileExamples.padded [FileExamples.padded]) /\
    candidate m = trim FileExamples.padded /\ (confidence m == 1)%Q.
Proof.
  assert (H1 : In FileExamples.padded [FileExamples.padded]) by (left; reflexivity).
  assert (H2 : trim FileExamples.padded <> []) by (vm_compute; discriminate).
  assert (H3 : trim FileExamples.padded <> FileExamples.padded)
    by (vm_compute; discriminate).
  assert (H4 : Normalizer.normalizeCompanyName FileExamples.padded
                 (Deduplicator.config
                    (Deduplicator.mkDeduplicator Examples.balanced_config))
               = Normalizer.normalizeCompanyName FileExamples.padded
                   (Deduplicator.config
                      (Deduplicator.mkDeduplicator Examples.balanced_config)))
    by reflexivity.
  assert (H5 : (minConfidenceScore
                  (Deduplicator.config
                     (Deduplicator.mkDeduplicator Examples.balanced_config)) <= 1)%Q)
    by (vm_compute; discriminate).
  assert (H6 : (Z.of_nat (length [FileExamples.padded])
                <= maxResultsPerCompany
                     (Deduplicator.config
                        (Deduplicator.mkDeduplicator Examples.balanced_config)))%Z)
    by (vm_compute; discriminate).
  split; [repeat split; assumption|].
  exact (@findDuplicatesForCompany_trims_candidates_only _ _ _ _ H1 H2 H3 H4 H5 H6).
Defined.

(** ** The command line *)

Module CliFacts.

Import Deduplicator Cli.

Lemma is_flag_true (arg : jsstring) (short long : string) :
  is_flag arg short long = true -> arg = str short \/ arg = str long.
Proof.
  unfold is_flag. intros H. apply orb_true_iff in H.
  destruct H as [H|H]; apply str_eqb_eq in H; auto.
Qed.

Section Facts.

Variable num : Type.
Variable Number : jsstring -> num.

Lemma parsed_from_initial : parsed_from Number [] (initial_args num).
Proof.
  unfold parsed_from.
  cbn [help verbose file preset format out minSim minConf initial_args].
  split; [intros H; discriminate H|]. split; [intros H; discriminate H|].
  split; [intros H; now contradiction H|]. split; [intros H; now contradiction H|].
  split; [intros H; now contradiction H|]. split; [intros v H; discriminate H|].
  split; intros x H; discriminate H.
Qed.

Lemma In_seen (seen extra : list jsstring) (x : jsstring) :
  In x seen -> In x (seen ++ extra).
Proof. intros H. apply in_or_app. now left. Qed.

Lemma In_extra (seen extra : list jsstring) (x : jsstring) :
  In x extra -> In x (seen ++ extra).
Proof. intros H. apply in_or_app. now right. Qed.

(** One round of the loop: each field is kept or taken from the arguments
    the round consumed. *)
Lemma parsed_from_update (seen extra : list jsstring) (parsed parsed' : ParsedArgs num) :
  parsed_from Number seen parsed ->
  (help parsed' = true ->
   help parsed = true \/ In (str "-h") extra \/ In (str "--help") extra) ->
  (verbose parsed' = true ->
   verbose parsed = true \/ In (str "-v") extra \/ In (str "--verbose") extra) ->
  (file parsed' = file parsed \/
   (In (file parsed') extra /\ Matcher.starts_with (str "-") (file parsed') = false)) ->
  (preset parsed' = preset parsed \/ In (preset parsed') extra) ->
  (format parsed' = format parsed \/ In (format parsed') extra) ->
  (out parsed' = out parsed \/ exists value, out parsed' = Some value /\ In value extra) ->
  (minSim parsed' = minSim parsed \/
   exists value, minSim parsed' = Some (Number value) /\ In value extra) ->
  (minConf parsed' = minConf parsed \/
   exists value, minConf parsed' = Some (Number value) /\ In value extra) ->
  parsed_from Number (seen ++ extra) parsed'.
Proof.
  intros (Oh & Ov & Of & Op & Ofm & Oo & Os & Oc) Nh Nv Nf Np Nfm No Ns Nc.
  unfold parsed_from.
  split; [|split; [|split; [|split; [|split; [|split; [|split]]]]]].
  - intros H. destruct (Nh H) as [H'|[H'|H']].
    + destruct (Oh H'); [left | right]; now apply In_seen.
    + left. now apply In_extra.
    + right. now apply In_extra.
  - intros H. destruct (Nv H) as [H'|[H'|H']].
    + destruct (Ov H'); [left | right]; now apply In_seen.
    + left. now apply In_extra.
    + right. now apply In_extra.
  - intros H. destruct Nf as [E|[Hin Hs]].
    + rewrite E in H. destruct (Of H) as [Hin Hs]. rewrite E.
      split; [now apply In_seen | assumption].
    + split; [now apply In_extra | assumption].
  - intros H. destruct Np as [E|Hin]; [|now apply In_extra].
    rewrite E in H. rewrite E. now apply In_seen, Op.
  - intros H. destruct Nfm as [E|Hin]; [|now apply In_extra].
    rewrite E in H. rewrite E. now apply In_seen, Ofm.
  - intros value H. destruct No as [E|[v [E Hin]]]; rewrite E in H.
    + now apply In_seen, Oo.
    + injection H as <-. now apply In_extra.
  - intros x H. destruct Ns as [E|[v [E Hin]]]; rewrite E in H.
    + destruct (Os x H) as [v [Hv Ex]]. exists v. split; [now apply In_seen | assumption].
    + injection H as <-. exists v. split; [now apply In_extra | reflexivity].
  - intros x H. destruct Nc as [E|[v [E Hin]]]; rewrite E in H.
    + destruct (Oc x H) as [v [Hv Ex]]. exists v. split; [now apply In_seen | assumption].
    + injection H as <-. exists v. split; [now apply In_extra | reflexivity].
Qed.

Ltac kept_or_taken :=
  cbn [help verbose file preset format out minSim minConf];
  first [ now left
        | now (intros; left)
        | now (right; left)
        | now (right; right; left)
        | now (right; eexists; split; [reflexivity | left; reflexivity])
        | now (right; eexists; split; [reflexivity | right; left; reflexivity])
        | now (intros; right; left; left)
        | now (intros; right; right; left) ].

Lemma parse_loop_from_upto (n : nat) :
  forall args seen parsed r,
    length args <= n ->
    parsed_from Number seen parsed ->
    parse_loop Number args parsed = Returns r ->
    parsed_from Number (seen ++ args) r.
Proof.
  induction n as [|n IH]; intros args seen parsed r Hn Hfrom Hr.
  - destruct args; [|simpl in Hn; lia]. simpl in Hr. injection Hr as <-.
    now rewrite app_nil_r.
  - destruct args as [|arg rest].
    { simpl in Hr. injection Hr as <-. now rewrite app_nil_r. }
    simpl in Hn. cbn [parse_loop] in Hr.
    destruct (is_flag arg "-h" "--help") eqn:Eh.
    { injection Hr as <-. apply is_flag_true in Eh.
      apply (@parsed_from_update seen (arg :: rest) parsed _ Hfrom); try kept_or_taken.
      cbn [help]. intros _. right. destruct Eh as [->| ->]; [left | right]; now left. }
    destruct (str_eqb arg (str "--preset")) eqn:E1.
    { destruct rest as [|value rest']; [discriminate|].
      replace (seen ++ arg :: value :: rest') with ((seen ++ [arg; value]) ++ rest')
        by (now rewrite <- app_assoc).
      eapply IH; [simpl in Hn; lia | | exact Hr].
      apply (@parsed_from_update seen ([arg; value]) parsed _ Hfrom); kept_or_taken. }
    destruct (str_eqb arg (str "--min-similarity")) eqn:E2.
    { destruct rest as [|value rest']; [discriminate|].
      replace (seen ++ arg :: value :: rest') with ((seen ++ [arg; value]) ++ rest')
        by (now rewrite <- app_assoc).
      eapply IH; [simpl in Hn; lia | | exact Hr].
      apply (@parsed_from_update seen ([arg; value]) parsed _ Hfrom); kept_or_taken. }
    destruct (str_eqb arg (str "--min-confidence")) eqn:E3.
    { destruct rest as [|value rest']; [discriminate|].
      replace (seen ++ arg :: value :: rest') with ((seen ++ [arg; value]) ++ rest')
        by (now rewrite <- app_assoc).
      eapply IH; [simpl in Hn; lia | | exact Hr].
      apply (@parsed_from_update seen ([arg; value]) parsed _ Hfrom); kept_or_taken. }
    destruct (str_eqb arg (str "--format")) eqn:E4.
    { destruct rest as [|value rest']; [discriminate|].
      replace (seen ++ arg :: value :: rest') with ((seen ++ [arg; value]) ++ rest')
        by (now rewrite <- app_assoc).
      eapply IH; [simpl in Hn; lia | | exact Hr].
      apply (@parsed_from_update seen ([arg; value]) parsed _ Hfrom); kept_or_taken. }
    destruct (is_flag arg "-o" "--output") eqn:E5.
    { destruct rest as [|value rest']; [discriminate|].
      replace (seen ++ arg :: value :: rest') with ((seen ++ [arg; value]) ++ rest')
        by (now rewrite <- app_assoc).
      eapply IH; [simpl in Hn; lia | | exact Hr].
      apply (@parsed_from_update seen ([arg; value]) parsed _ Hfrom); kept_or_taken. }
    replace (seen ++ arg :: rest) with ((seen ++ [arg]) ++ rest)
      by (now rewrite <- app_assoc).
    destruct (is_flag arg "-v" "--verbose") eqn:E6.
    { eapply IH; [lia | | exact Hr]. apply is_flag_true in E6.
      apply (@parsed_from_update seen ([arg]) parsed _ Hfrom); try kept_or_taken.
      cbn [verbose]. intros _. right. destruct E6 as [->| ->]; [left | right]; now left. }
    destruct (Matcher.starts_with (str "-") arg) eqn:E7; [discriminate|].
    destruct (negb (Normalizer.nonempty (file parsed))); [|discriminate].
    eapply IH; [lia | | exact Hr].
    apply (@parsed_from_update seen ([arg]) parsed _ Hfrom); try kept_or_taken.
    cbn [file]. right. split; [now left | exact E7].
Qed.

Lemma parse_loop_blank (n : nat) (rest : list jsstring) (parsed : ParsedArgs num) :
  file parsed = [] ->
  parse_loop Number (repeat ([] : jsstring) n ++ rest) parsed
  = parse_loop Number rest parsed.
Proof.
  intros Hf. induction n as [|n IH]; [reflexivity|].
  cbn [repeat app parse_loop]. rewrite Hf. cbn. rewrite <- IH.
  destruct parsed; simpl in Hf; subst; reflexivity.
Qed.

Lemma parse_loop_positional (arg : jsstring) (rest : list jsstring)
    (parsed : ParsedArgs num) :
  Matcher.starts_with (str "-") arg = false ->
  parse_loop Number (arg :: rest) parsed =
  if negb (Normalizer.nonempty (file parsed))
  then parse_loop Number rest
         {| file := arg; preset := preset parsed;
            minSim := minSim parsed; minConf := minConf parsed;
            format := format parsed; out := out parsed;
            verbose := verbose parsed; help := help parsed |}
  else Throws "Multiple input files specified".
Proof.
  intros Hd. destruct arg as [|c t]; [reflexivity|].
  cbn [parse_loop]. rewrite Hd.
  assert (Hc : ascii_eqb c "-"%char = false).
  { cbn in Hd. rewrite andb_true_r in Hd. unfold ascii_eqb in *.
    now rewrite Ascii.eqb_sym. }
  unfold is_flag. cbn [str list_ascii_of_string str_eqb]. rewrite Hc. reflexivity.
Qed.

End Facts.

End CliFacts.

(** X29.  [parseArgs] invents nothing: in a returned result every field
    that differs from its initial value was taken from the arguments after
    the first two. *)
Theorem parseArgs_fields_come_from_arguments (num : Type) (Number : jsstring -> num)
    (argv : list jsstring) (r : Cli.ParsedArgs num) :
  Cli.parseArgs Number argv = Deduplicator.Returns r ->
  let args := skipn 2 argv in
  (Cli.help r = true -> In (str "-h") args \/ In (str "--help") args) /\
  (Cli.verbose r = true -> In (str "-v") args \/ In (str "--verbose") args) /\
  (Cli.file r <> [] ->
   In (Cli.file r) args /\ Matcher.starts_with (str "-") (Cli.file r) = false) /\
  (Cli.preset r <> str "balanced" -> In (Cli.preset r) args) /\
  (Cli.format r <> str "text" -> In (Cli.format r) args) /\
  (forall value, Cli.out r = Some value -> In value args) /\
  (forall x, Cli.minSim r = Some x -> exists value, In value args /\ x = Number value) /\
  (forall x, Cli.minConf r = Some x -> exists value, In value args /\ x = Number value).
Proof.
  intros Hr args. unfold Cli.parseArgs in Hr. fold args in Hr.
  exact (@CliFacts.parse_loop_from_upto num Number (length args) args [] _ r
           (Nat.le_refl _) (CliFacts.parsed_from_initial Number) Hr).
Qed.

Lemma parseArgs_fields_come_from_arguments_witness :
  Cli.parseArgs (fun value : jsstring => length value)
    [str "node"; str "cli.js"; str "names.txt"; str "--min-similarity"; str "0.9"]
  = Deduplicator.Returns
      (Cli.mkArgs (str "names.txt") (str "balanced") (Some 3) None (str "text")
                  None false false) /\
  In (str "names.txt")
     (skipn 2 [str "node"; str "cli.js"; str "names.txt"; str "--min-similarity";
               str "0.9"]).
Proof.
  assert (H : Cli.parseArgs (fun value : jsstring => length value)
                [str "node"; str "cli.js"; str "names.txt"; str "--min-similarity";
                 str "0.9"]
              = Deduplicator.Returns
                  (Cli.mkArgs (str "names.txt") (str "balanced") (Some 3) None
                              (str "text") None false false))
    by (vm_compute; reflexivity).
  split; [exact H|].
  refine (proj1 (proj1 (proj2 (proj2
            (@parseArgs_fields_come_from_arguments _ _ _ _ H))) _)).
  vm_compute. discriminate.
Defined.

(** X30.  Arguments that are not flags: empty ones in front are skipped, the
    first non-empty one is the input file, and any further one, empty or not,
    is refused, whatever follows it. *)
Theorem parseArgs_positionals (num : Type) (Number : jsstring -> num)
    (node script f : jsstring) (n : nat) (rest : list jsstring) :
  f <> [] -> Matcher.starts_with (str "-") f = false ->
  Cli.parseArgs Number (node :: script :: repeat ([] : jsstring) n)
    = Deduplicator.Returns (Cli.initial_args num) /\
  Cli.parseArgs Number (node :: script :: repeat ([] : jsstring) n ++ [f])
    = Deduplicator.Returns
        (Cli.mkArgs f (str "balanced") None None (str "text") None false false) /\
  forall g, Matcher.starts_with (str "-") g = false ->
    Cli.parseArgs Number (node :: script :: repeat ([] : jsstring) n ++ f :: g :: rest)
    = Deduplicator.Throws "Multiple input files specified".
Proof.
  intros Hf Hd. unfold Cli.parseArgs. cbn [skipn].
  split; [|split].
  - pose proof (@CliFacts.parse_loop_blank num Number n [] (Cli.initial_args num)
                  eq_refl) as H.
    rewrite app_nil_r in H. exact H.
  - rewrite CliFacts.parse_loop_blank by reflexivity.
    now rewrite CliFacts.parse_loop_positional.
  - intros g Hg. rewrite CliFacts.parse_loop_blank by reflexivity.
    rewrite CliFacts.parse_loop_positional by assumption. cbn [Cli.initial_args Cli.file negb Normalizer.nonempty].
    rewrite CliFacts.parse_loop_positional by assumption.
    cbn [Cli.file]. destruct f; [now contradiction Hf | reflexivity].
Qed.

Lemma parseArgs_positionals_witness :
  (str "names.txt" <> [] /\
   Matcher.starts_with (str "-") (str "names.txt") = false) /\
  Cli.parseArgs (fun value : jsstring => length value)
    (str "node" :: str "cli.js" :: repeat ([] : jsstring) 1 ++ [str "names.txt"])
  = Deduplicator.Returns
      (Cli.mkArgs (str "names.txt") (str "balanced") None None (str "text")
                  None false false).
Proof.
  assert (H1 : str "names.txt" <> []) by (vm_compute; discriminate).
  assert (H2 : Matcher.starts_with (str "-") (str "names.txt") = false) by reflexivity.
  split; [split; assumption|].
  exact (proj1 (proj2 (@parseArgs_positionals _ (fun value : jsstring => length value)
                         (str "node") (str "cli.js") _ 1 [str "--help"] H1 H2))).
Defined.
